(** * parse-marathon-events: scraper normalizers, detail extractor and store sync

    A shallow embedding of [src/scrape-roadrun.mjs] and [src/notion.mjs].

    JavaScript strings are sequences of UTF-16 code units; they are modelled
    as lists of [N].  All Hangul syllables used by the program live in the
    Basic Multilingual Plane, so each is a single code unit. *)

From Stdlib Require Import List NArith Arith Bool Lia String Ascii
  Permutation.
Import ListNotations.
Open Scope N_scope.
Open Scope list_scope.

(** ** JavaScript strings *)

Definition jschar := N.
Definition jsstr := list jschar.

Module Utf8.
(** Source literals in this file are UTF-8; [decode] turns their bytes into
    UTF-16 code units so that examples read like the JavaScript ones. *)

Definition cont (b : N) : N := N.land b 63.

Fixpoint decode_bytes (fuel : nat) (bs : list N) : jsstr :=
  match fuel with
  | O => []
  | S fuel' =>
    match bs with
    | [] => []
    | b0 :: r0 =>
      if b0 <? 128 then b0 :: decode_bytes fuel' r0
      else if b0 <? 224 then
        match r0 with
        | b1 :: r1 =>
          (N.shiftl (N.land b0 31) 6 + cont b1) :: decode_bytes fuel' r1
        | _ => []
        end
      else if b0 <? 240 then
        match r0 with
        | b1 :: b2 :: r2 =>
          (N.shiftl (N.land b0 15) 12 + N.shiftl (cont b1) 6 + cont b2)
            :: decode_bytes fuel' r2
        | _ => []
        end
      else
        match r0 with
        | b1 :: b2 :: b3 :: r3 =>
          let cp := N.shiftl (N.land b0 7) 18 + N.shiftl (cont b1) 12
                    + N.shiftl (cont b2) 6 + cont b3 in
          let v := cp - 65536 in
          (55296 + N.shiftr v 10) :: (56320 + N.land v 1023)
            :: decode_bytes fuel' r3
        | _ => []
        end
    end
  end.

Fixpoint bytes_of (s : string) : list N :=
  match s with
  | EmptyString => []
  | String a r => N_of_ascii a :: bytes_of r
  end.

Definition decode (s : string) : jsstr :=
  let bs := bytes_of s in decode_bytes (List.length bs) bs.
End Utf8.

Definition js (s : string) : jsstr := Utf8.decode s.

Fixpoint jsstr_eqb (a b : jsstr) : bool :=
  match a, b with
  | [], [] => true
  | x :: a', y :: b' => (x =? y) && jsstr_eqb a' b'
  | _, _ => false
  end.

(** A string is truthy in JavaScript exactly when it is not empty. *)
Definition truthy (s : jsstr) : bool :=
  match s with [] => false | _ => true end.

(** [x || d] for a string [x]. *)
Definition or_default (s d : jsstr) : jsstr := if truthy s then s else d.

(** Truthiness of a value that is [null]/[undefined] or a string. *)
Definition truthy_opt (o : option jsstr) : bool :=
  match o with Some s => truthy s | None => false end.

(** ** Character classes *)

(** [\d]: ASCII digits only. *)
Definition is_digit (c : jschar) : bool := (48 <=? c) && (c <=? 57).

(** [\s], also the set removed by [String.prototype.trim]: WhiteSpace and
    LineTerminator of ECMAScript. *)
Definition is_space (c : jschar) : bool :=
  ((9 <=? c) && (c <=? 13)) || (c =? 32) || (c =? 160) || (c =? 5760)
  || ((8192 <=? c) && (c <=? 8202)) || (c =? 8232) || (c =? 8233)
  || (c =? 8239) || (c =? 8287) || (c =? 12288) || (c =? 65279).

Definition is_nonspace (c : jschar) : bool := negb (is_space c).

Definition is_char (x : jschar) (c : jschar) : bool := c =? x.

(** A literal letter under the [i] flag: canonicalisation maps a character to
    its upper case, so [k] matches exactly [k] and [K]. *)
Definition is_char_ci (lower upper : jschar) (c : jschar) : bool :=
  (c =? lower) || (c =? upper).

(** The Hangul syllables and ASCII characters the program mentions. *)
Definition ch_nyeon : jschar := 0xB144.  (* 년 *)
Definition ch_wol : jschar := 0xC6D4.    (* 월 *)
Definition ch_il : jschar := 0xC77C.     (* 일 *)
Definition ch_si : jschar := 0xC2DC.     (* 시 *)
Definition ch_bun : jschar := 0xBD84.    (* 분 *)
Definition ch_colon : jschar := 58.
Definition ch_comma : jschar := 44.
Definition ch_tilde : jschar := 126.
Definition ch_space : jschar := 32.
Definition ch_zero : jschar := 48.

Definition s_ojeon : jsstr := [0xC624; 0xC804].  (* 오전 *)
Definition s_ohu : jsstr := [0xC624; 0xD6C4].    (* 오후 *)

(** ** String library functions *)

Fixpoint starts_with (p s : jsstr) : bool :=
  match p, s with
  | [], _ => true
  | a :: p', b :: s' => (a =? b) && starts_with p' s'
  | _ :: _, [] => false
  end.

(** [s.includes(p)] *)
Fixpoint includes (s p : jsstr) : bool :=
  starts_with p s || match s with [] => false | _ :: s' => includes s' p end.

Fixpoint drop_while (p : jschar -> bool) (s : jsstr) : jsstr :=
  match s with
  | c :: s' => if p c then drop_while p s' else s
  | [] => []
  end.

(** [s.trim()] *)
Definition trim (s : jsstr) : jsstr :=
  rev (drop_while is_space (rev (drop_while is_space s))).

(** [s.replace(/\s+/g, r)]: every maximal run of white space becomes [r]. *)
Fixpoint replace_ws_runs (r : jsstr) (s : jsstr) : jsstr :=
  match s with
  | [] => []
  | c :: s' =>
    if is_space c then
      match s' with
      | c' :: _ => if is_space c' then replace_ws_runs r s'
                   else r ++ replace_ws_runs r s'
      | [] => r
      end
    else c :: replace_ws_runs r s'
  end.

(** [s.split(sep)] for a one-character separator. *)
Fixpoint split_on (sep : jschar) (s : jsstr) : list jsstr :=
  match s with
  | [] => [[]]
  | c :: s' =>
    if c =? sep then [] :: split_on sep s'
    else match split_on sep s' with
         | seg :: rest => (c :: seg) :: rest
         | [] => [[c]]
         end
  end.

(** [parts.join(sep)] *)
Fixpoint join (sep : jsstr) (parts : list jsstr) : jsstr :=
  match parts with
  | [] => []
  | [p] => p
  | p :: rest => p ++ sep ++ join sep rest
  end.

(** [s.padStart(2, "0")] *)
Definition padStart2 (s : jsstr) : jsstr :=
  match s with
  | [] => [ch_zero; ch_zero]
  | [c] => [ch_zero; c]
  | _ => s
  end.

(** [parseInt(s, 10)] on a string of decimal digits. *)
Definition parseInt (s : jsstr) : N :=
  fold_left (fun acc c => 10 * acc + (c - 48)) s 0.

(** [String(n)] for a non-negative integer. *)
Fixpoint to_digits (fuel : nat) (n : N) (acc : jsstr) : jsstr :=
  match fuel with
  | O => acc
  | S fuel' =>
    let acc' := (48 + n mod 10) :: acc in
    if n / 10 =? 0 then acc' else to_digits fuel' (n / 10) acc'
  end.

Definition String_of (n : N) : jsstr := to_digits (S (N.to_nat n)) n [].

(** [s.replace(" ", "T")]: only the first occurrence is replaced. *)
Fixpoint replace_first (x : jschar) (r : jsstr) (s : jsstr) : jsstr :=
  match s with
  | [] => []
  | c :: s' => if c =? x then r ++ s' else c :: replace_first x r s'
  end.


(** ** Regular expressions

    The fragment of ECMAScript patterns the program uses: single-character
    classes, sequencing, alternation, an optional group, greedy bounded or
    unbounded repetition of a character class, and capture groups.  As in the
    ECMAScript specification the matcher is written with continuations:
    a continuation receives the rest of the input and the captures so far,
    and a [None] from it makes the matcher backtrack. *)

Inductive regex :=
| Eps
| Chr (p : jschar -> bool)
| Seq (r1 r2 : regex)
| Alt (r1 r2 : regex)
| Opt (r : regex)
| Rep (p : jschar -> bool) (lo : nat) (hi : option nat)
| Group (n : nat) (r : regex).

(** Captures: the most recent binding of a group number is first. *)
Definition caps := list (nat * jsstr).

Fixpoint cap (n : nat) (c : caps) : option jsstr :=
  match c with
  | [] => None
  | (m, s) :: c' => if Nat.eqb m n then Some s else cap n c'
  end.

Definition hi_pos (hi : option nat) : bool :=
  match hi with Some O => false | _ => true end.

Definition hi_pred (hi : option nat) : option nat :=
  match hi with Some h => Some (Nat.pred h) | None => None end.

(** Greedy [p{lo,hi}]: take as many characters as allowed, give back one at a
    time while the continuation fails. *)
Fixpoint rep {A} (p : jschar -> bool) (lo : nat) (hi : option nat)
         (s : jsstr) (k : jsstr -> option A) : option A :=
  match s with
  | ch :: s' =>
    if p ch && hi_pos hi then
      match rep p (Nat.pred lo) (hi_pred hi) s' k with
      | Some x => Some x
      | None => if Nat.eqb lo 0 then k s else None
      end
    else if Nat.eqb lo 0 then k s else None
  | [] => if Nat.eqb lo 0 then k [] else None
  end.

Fixpoint rmatch {A} (r : regex) (s : jsstr) (c : caps)
         (k : jsstr -> caps -> option A) : option A :=
  match r with
  | Eps => k s c
  | Chr p =>
    match s with
    | ch :: s' => if p ch then k s' c else None
    | [] => None
    end
  | Seq r1 r2 => rmatch r1 s c (fun s1 c1 => rmatch r2 s1 c1 k)
  | Alt r1 r2 =>
    match rmatch r1 s c k with
    | Some x => Some x
    | None => rmatch r2 s c k
    end
  | Opt r1 =>
    match rmatch r1 s c k with
    | Some x => Some x
    | None => k s c
    end
  | Rep p lo hi => rep p lo hi s (fun s' => k s' c)
  | Group n r1 =>
    rmatch r1 s c
           (fun s' c' =>
              k s' ((n, firstn (List.length s - List.length s') s) :: c'))
  end.

(** The result of [RegExp.prototype.exec]: the text before the match, the
    matched text [m[0]], the captures and the text after the match. *)
Record rmatch_result := {
  m_before : jsstr;
  m_text : jsstr;
  m_caps : caps;
  m_after : jsstr
}.

Definition match_here (r : regex) (s : jsstr) : option (jsstr * caps) :=
  rmatch r s [] (fun s' c' => Some (s', c')).

(** [str.match(r)] without the [g] flag: the first start position, from the
    left, at which the pattern matches. [before] is kept reversed. *)
Fixpoint rexec_from (r : regex) (before : jsstr) (s : jsstr)
  : option rmatch_result :=
  match match_here r s with
  | Some (s', c') =>
    Some {| m_before := rev before;
            m_text := firstn (List.length s - List.length s') s;
            m_caps := c';
            m_after := s' |}
  | None =>
    match s with
    | [] => None
    | ch :: t => rexec_from r (ch :: before) t
    end
  end.

Definition rexec (r : regex) (s : jsstr) : option rmatch_result :=
  rexec_from r [] s.

(** [m[n]] *)
Definition group (n : nat) (m : rmatch_result) : option jsstr :=
  cap n (m_caps m).

(** A literal string as a pattern. *)
Fixpoint Lit (s : jsstr) : regex :=
  match s with
  | [] => Eps
  | [c] => Chr (is_char c)
  | c :: s' => Seq (Chr (is_char c)) (Lit s')
  end.

Definition digits (lo : nat) (hi : option nat) : regex := Rep is_digit lo hi.
Definition spaces : regex := Rep is_space 0 None.

(** ** src/scrape-roadrun.mjs: text normalizers *)

(** [clean(text)]: [text.replace(/\s+/g, " ").trim()] *)
Definition clean (text : jsstr) : jsstr :=
  trim (replace_ws_runs [ch_space] text).

(** The object returned by the external [dayjs] library, identified by the
    string it was constructed from. *)
Inductive Dayjs := dayjs (arg : jsstr).

(** [/(\d{4})\s*년\s*(\d{1,2})\s*월\s*(\d{1,2})\s*일/] *)
Definition re_korean_date : regex :=
  Seq (Group 1 (digits 4 (Some 4%nat)))
 (Seq spaces (Seq (Chr (is_char ch_nyeon))
 (Seq spaces (Seq (Group 2 (digits 1 (Some 2%nat)))
 (Seq spaces (Seq (Chr (is_char ch_wol))
 (Seq spaces (Seq (Group 3 (digits 1 (Some 2%nat)))
 (Seq spaces (Chr (is_char ch_il))))))))))).

Definition ch_dash : jschar := 45.

(** [parseKoreanDate(str)]. The three groups take part in every match, so
    the branch for an undefined group is never taken. *)
Definition parseKoreanDate (str : jsstr) : option Dayjs :=
  match rexec re_korean_date str with
  | None => None
  | Some m =>
    match group 1 m, group 2 m, group 3 m with
    | Some y, Some mo, Some d =>
      Some (dayjs (y ++ [ch_dash] ++ mo ++ [ch_dash] ++ d))
    | _, _, _ => None
    end
  end.

(** [/(\d{1,2}):(\d{2})/] *)
Definition re_clock : regex :=
  Seq (Group 1 (digits 1 (Some 2%nat)))
 (Seq (Chr (is_char ch_colon)) (Group 2 (digits 2 (Some 2%nat)))).

(** [/(오전|오후)(\d{1,2})시(?:(\d{1,2})분)?/] *)
Definition re_ampm : regex :=
  Seq (Group 1 (Alt (Lit s_ojeon) (Lit s_ohu)))
 (Seq (Group 2 (digits 1 (Some 2%nat)))
 (Seq (Chr (is_char ch_si))
      (Opt (Seq (Group 3 (digits 1 (Some 2%nat))) (Chr (is_char ch_bun)))))).

(** [/(\d{1,2})시/] *)
Definition re_hour : regex :=
  Seq (Group 1 (digits 1 (Some 2%nat))) (Chr (is_char ch_si)).

(** The hour adjustment of the AM/PM branch. *)
Definition adjust_hour (ampm : jsstr) (hour : N) : N :=
  let hour1 := if jsstr_eqb ampm s_ohu && (hour <? 12) then hour + 12
               else hour in
  if jsstr_eqb ampm s_ojeon && (hour1 =? 12) then 0 else hour1.

(** [parseTime(str)]. Only the minutes group of the second pattern can be
    undefined in a match; the branches for other undefined groups are never
    taken. *)
Definition parseTime (str : jsstr) : option jsstr :=
  let s := replace_ws_runs [] str in
  match rexec re_clock s with
  | Some m =>
    match group 1 m, group 2 m with
    | Some h, Some mi => Some (padStart2 h ++ [ch_colon] ++ mi)
    | _, _ => None
    end
  | None =>
    match rexec re_ampm s with
    | Some m =>
      match group 1 m, group 2 m with
      | Some ampm, Some hourStr =>
        let hour := parseInt hourStr in
        let minute := match group 3 m with
                      | Some minuteStr =>
                        if truthy minuteStr then parseInt minuteStr else 0
                      | None => 0
                      end in
        let hour' := adjust_hour ampm hour in
        Some (padStart2 (String_of hour') ++ [ch_colon]
              ++ padStart2 (String_of minute))
      | _, _ => None
      end
    | None =>
      match rexec re_hour s with
      | Some m =>
        match group 1 m with
        | Some h1 =>
          Some (padStart2 (String_of (parseInt h1)) ++ [ch_colon]
                ++ [ch_zero; ch_zero])
        | None => None
        end
      | None => None
      end
    end
  end.

(** [/(\d+)\s*k/i] *)
Definition re_km : regex :=
  Seq (Group 1 (digits 1 None))
 (Seq spaces (Chr (is_char_ci 107 75))).

Definition s_pul : jsstr := [0xD480].            (* 풀 *)
Definition s_hapeu : jsstr := [0xD558; 0xD504].  (* 하프 *)

(** The callback of the last [map] in [normalizeCourse]. *)
Definition normalize_segment (s : jsstr) : jsstr :=
  if includes s s_pul then js "full"
  else if includes s s_hapeu then js "half"
  else match rexec re_km s with
       | Some m =>
         match group 1 m with
         | Some d => d ++ js "k"
         | None => s
         end
       | None => s
       end.

(** [normalizeCourse(text)]: split, trim, [filter(Boolean)], map. *)
Definition normalizeCourse (text : jsstr) : list jsstr :=
  map normalize_segment (filter truthy (map trim (split_on ch_comma text))).

(** ** src/scrape-roadrun.mjs: detail extractor *)

(** What the extractor reads from a [td] element: its text and, if it has an
    [a] descendant, the [href] attribute of the first one (absent when the
    anchor has no such attribute). *)
Record cell := {
  cell_text : jsstr;
  cell_first_anchor : option (option jsstr)
}.

(** A [tr] as the list of its [td] descendants; the document as the list of
    rows selected by ["table tbody tr"]. *)
Definition row := list cell.
Definition document := list row.

Record EventRecord := {
  source : jsstr;
  source_id : jsstr;
  source_url : jsstr;
  race_name : jsstr;
  race_datetime : option jsstr;
  course : list jsstr;
  location_full : jsstr;
  entry_period_raw : jsstr;
  entry_start : option jsstr;
  entry_end : option jsstr;
  homepage : option jsstr
}.

(** The local variables of [fetchRaceDetail] that the row loop assigns. *)
Record scan := {
  raceName : jsstr;
  dateRaw : jsstr;
  courseRaw : jsstr;
  region : jsstr;
  venue : jsstr;
  entryRaw : jsstr;
  homepage_var : option jsstr
}.

Definition scan_init : scan :=
  {| raceName := []; dateRaw := []; courseRaw := []; region := [];
     venue := []; entryRaw := []; homepage_var := None |}.

Definition lbl_name : jsstr := [0xB300; 0xD68C; 0xBA85].          (* 대회명 *)
Definition lbl_date : jsstr := [0xB300; 0xD68C; 0xC77C; 0xC2DC].  (* 대회일시 *)
Definition lbl_course : jsstr := [0xB300; 0xD68C; 0xC885; 0xBAA9]. (* 대회종목 *)
Definition lbl_region : jsstr := [0xB300; 0xD68C; 0xC9C0; 0xC5ED]. (* 대회지역 *)
Definition lbl_venue : jsstr := [0xB300; 0xD68C; 0xC7A5; 0xC18C].  (* 대회장소 *)
Definition lbl_entry : jsstr := [0xC811; 0xC218; 0xAE30; 0xAC04].  (* 접수기간 *)
Definition lbl_homepage : jsstr := [0xD648; 0xD398; 0xC774; 0xC9C0]. (* 홈페이지 *)

(** [/https?:\/\/\S+/] *)
Definition re_url : regex :=
  Seq (Lit (js "http"))
 (Seq (Opt (Chr (is_char 115)))
 (Seq (Lit (js "://")) (Rep is_nonspace 1 None))).

(** The homepage branch of the row loop: the new value of [homepage]. *)
Definition homepage_of (valueTd : cell) (valueText : jsstr)
           (old : option jsstr) : option jsstr :=
  match cell_first_anchor valueTd with
  | Some (Some href) =>
    if truthy href then Some href
    else match rexec re_url valueText with
         | Some m => Some (m_text m)
         | None => old
         end
  | _ =>
    match rexec re_url valueText with
    | Some m => Some (m_text m)
    | None => old
    end
  end.

Definition last_cell (tds : row) : cell :=
  last tds {| cell_text := []; cell_first_anchor := None |}.

(** One iteration of [for (const tr of trs)]. *)
Definition scan_row (st : scan) (tds : row) : scan :=
  if (List.length tds <? 2)%nat then st
  else
    match tds with
    | [] => st
    | td0 :: _ =>
      let label := clean (cell_text td0) in
      let valueTd := last_cell tds in
      let valueText := clean (cell_text valueTd) in
      if negb (truthy label) then st
      else if includes label lbl_name then
        {| raceName := valueText; dateRaw := dateRaw st;
           courseRaw := courseRaw st; region := region st; venue := venue st;
           entryRaw := entryRaw st; homepage_var := homepage_var st |}
      else if includes label lbl_date then
        {| raceName := raceName st; dateRaw := valueText;
           courseRaw := courseRaw st; region := region st; venue := venue st;
           entryRaw := entryRaw st; homepage_var := homepage_var st |}
      else if includes label lbl_course then
        {| raceName := raceName st; dateRaw := dateRaw st;
           courseRaw := valueText; region := region st; venue := venue st;
           entryRaw := entryRaw st; homepage_var := homepage_var st |}
      else if includes label lbl_region then
        {| raceName := raceName st; dateRaw := dateRaw st;
           courseRaw := courseRaw st; region := valueText; venue := venue st;
           entryRaw := entryRaw st; homepage_var := homepage_var st |}
      else if includes label lbl_venue then
        {| raceName := raceName st; dateRaw := dateRaw st;
           courseRaw := courseRaw st; region := region st; venue := valueText;
           entryRaw := entryRaw st; homepage_var := homepage_var st |}
      else if includes label lbl_entry then
        {| raceName := raceName st; dateRaw := dateRaw st;
           courseRaw := courseRaw st; region := region st; venue := venue st;
           entryRaw := valueText; homepage_var := homepage_var st |}
      else if includes label lbl_homepage then
        {| raceName := raceName st; dateRaw := dateRaw st;
           courseRaw := courseRaw st; region := region st; venue := venue st;
           entryRaw := entryRaw st;
           homepage_var := homepage_of valueTd valueText (homepage_var st) |}
      else st
    end.

Definition scan_rows (trs : document) : scan := fold_left scan_row trs scan_init.

Inductive result (A : Type) :=
| Ok (a : A)
| Err (message : jsstr).
Arguments Ok {A} a.
Arguments Err {A} message.

Definition BASE_URL : jsstr := js "http://www.roadrun.co.kr/schedule".

Section Extractor.
(** [d.format("YYYY-MM-DD")] of the external [dayjs] library. *)
Variable format_YYYY_MM_DD : Dayjs -> jsstr.

(** Step 1 after the loop: [raceDatetime]. *)
Definition raceDatetime_of (dateRaw0 : jsstr) : option jsstr :=
  if truthy dateRaw0 then
    let dateObj := parseKoreanDate dateRaw0 in
    let timeStr := match parseTime dateRaw0 with
                   | Some t => or_default t (js "00:00")
                   | None => js "00:00"
                   end in
    match dateObj with
    | Some d => Some (format_YYYY_MM_DD d ++ [ch_space] ++ timeStr)
    | None => None
    end
  else None.

(** Step 4 after the loop: [entryStart] and [entryEnd]. *)
Definition entry_dates (entryRaw0 : jsstr) : option jsstr * option jsstr :=
  if truthy entryRaw0 && includes entryRaw0 [ch_tilde] then
    match map clean (split_on ch_tilde entryRaw0) with
    | sRaw :: eRaw :: _ =>
      (option_map format_YYYY_MM_DD (parseKoreanDate sRaw),
       option_map format_YYYY_MM_DD (parseKoreanDate eRaw))
    | _ => (None, None)
    end
  else (None, None).

(** [fetchRaceDetail(no)] on the document the transport layer returned. *)
Definition fetchRaceDetail (no : jsstr) (trs : document)
  : result EventRecord :=
  match trs with
  | [] => Err (js "No TR rows found in detail page")
  | _ =>
    let st := scan_rows trs in
    Ok
    {| source := js "roadrun";
       source_id := no;
       source_url := BASE_URL ++ js "/view.php?no=" ++ no;
       race_name := raceName st;
       race_datetime := raceDatetime_of (dateRaw st);
       course := normalizeCourse (courseRaw st);
       location_full :=
         join [ch_space] (filter truthy [region st; venue st]);
       entry_period_raw := entryRaw st;
       entry_start := fst (entry_dates (entryRaw st));
       entry_end := snd (entry_dates (entryRaw st));
       homepage := homepage_var st |}
  end.
End Extractor.

(** ** src/notion.mjs: property mapping *)

Record properties := {
  p_Name : jsstr;                     (* Name.title[0].text.content *)
  p_Location : jsstr;                 (* Location.rich_text[0].text.content *)
  p_Course : list jsstr;              (* Course.multi_select[i].name *)
  p_Race_DateTime : option jsstr;     (* "Race DateTime".date.start *)
  p_Entry_Start : option jsstr;       (* "Entry Start".date.start *)
  p_Entry_End : option jsstr;         (* "Entry End".date.start *)
  p_URL : option jsstr                (* URL.url *)
}.

Definition placeholder_title : jsstr := js "(제목 없음)".

(** An optional property is set only when the field is truthy. *)
Definition when_truthy (o : option jsstr) : option jsstr :=
  if truthy_opt o then o else None.

(** [buildProperties(race)]. The records built by [fetchRaceDetail] have no
    [Course] or [categories] field and their [course] is an array, which is
    truthy even when empty, so [courseList] is [race.course]. *)
Definition buildProperties (race : EventRecord) : properties :=
  let courseList := course race in
  let raceStart :=
      if truthy_opt (race_datetime race) then
        option_map (fun dt => replace_first ch_space (js "T") dt ++ js "+09:00")
                   (race_datetime race)
      else None in
  {| p_Name := or_default (race_name race) placeholder_title;
     p_Location := or_default (location_full race) [];
     p_Course := map (fun name => name) courseList;
     p_Race_DateTime := when_truthy raceStart;
     p_Entry_Start := when_truthy (entry_start race);
     p_Entry_End := when_truthy (entry_end race);
     p_URL := when_truthy (homepage race) |}.

(** ** src/notion.mjs: the store boundary *)

(** A page object of the store, as far as the program looks at it. *)
Record page := {
  page_id : jsstr;
  page_props : properties
}.

(** The response of [fetch]. [res_json] is the outcome of [res.json()]:
    [None] when the body is not JSON (the call rejects), otherwise the
    [results] member of the parsed body ([None] when it is [undefined] or
    [null]). *)
Record response := {
  res_ok : bool;
  res_status : N;
  res_statusText : jsstr;
  res_text : jsstr;
  res_json : option (option (list page))
}.

Inductive fetch_outcome :=
| FetchRejected (reason : jsstr)      (* network failure: the promise rejects *)
| FetchResolved (res : response).

Inductive sdk_outcome :=
| SdkRejected (reason : jsstr)
| SdkResolved.

(** The requests the program sends to the store. *)
Inductive request :=
| ReqQuery (database_id token name : jsstr)
| ReqUpdate (pid : jsstr) (props : properties)
| ReqCreate (database_id : jsstr) (props : properties).

(** The store as seen from the program: a state [W] and its reaction to each
    of the three requests. *)
Record StoreApi (W : Type) := {
  api_query : jsstr -> jsstr -> jsstr -> W -> fetch_outcome * W;
  api_update : jsstr -> properties -> W -> sdk_outcome * W;
  api_create : jsstr -> properties -> W -> sdk_outcome * W
}.
Arguments api_query {W}.
Arguments api_update {W}.
Arguments api_create {W}.

Inductive level := LWarn | LError | LLog.

(** The state threaded through the asynchronous code: the store, the requests
    sent so far (oldest first) and the console output. *)
Record env (W : Type) := {
  world : W;
  calls : list request;
  console : list (level * jsstr)
}.
Arguments world {W}.
Arguments calls {W}.
Arguments console {W}.

Inductive outcome (A : Type) :=
| Returned (a : A)
| Thrown (reason : jsstr).
Arguments Returned {A} a.
Arguments Thrown {A} reason.

Definition M (W A : Type) : Type := env W -> outcome A * env W.

Definition ret {W A} (a : A) : M W A := fun e => (Returned a, e).

Definition throw {W A} (reason : jsstr) : M W A := fun e => (Thrown reason, e).

Definition bind {W A B} (m : M W A) (f : A -> M W B) : M W B :=
  fun e => match m e with
           | (Returned a, e') => f a e'
           | (Thrown r, e') => (Thrown r, e')
           end.

Notation "x <- m ;; f" := (bind m (fun x => f))
  (at level 61, m at next level, right associativity).
Notation "m ;;; f" := (bind m (fun _ => f))
  (at level 61, right associativity).

Definition console_out {W} (l : level) (msg : jsstr) : M W unit :=
  fun e => (Returned tt,
            {| world := world e; calls := calls e;
               console := console e ++ [(l, msg)] |}).

(** The process environment: [process.env.NOTION_TOKEN] and
    [process.env.NOTION_DB_ID], each [undefined] or a string. *)
Record config := {
  NOTION_TOKEN : option jsstr;
  DB_ID : option jsstr
}.

Section Notion.
Context {W : Type}.
Variable api : StoreApi W.
Variable cfg : config.

(** [await fetch(".../v1/databases/${DB_ID}/query", ...)] *)
Definition fetch_query (db token name : jsstr) : M W response :=
  fun e =>
    let '(o, w') := api_query api db token name (world e) in
    let e' := {| world := w'; calls := calls e ++ [ReqQuery db token name];
                 console := console e |} in
    match o with
    | FetchRejected r => (Thrown r, e')
    | FetchResolved res => (Returned res, e')
    end.

(** [await notion.pages.update({ page_id, properties })] *)
Definition pages_update (pid : jsstr) (props : properties) : M W unit :=
  fun e =>
    let '(o, w') := api_update api pid props (world e) in
    let e' := {| world := w'; calls := calls e ++ [ReqUpdate pid props];
                 console := console e |} in
    match o with
    | SdkRejected r => (Thrown r, e')
    | SdkResolved => (Returned tt, e')
    end.

(** [await notion.pages.create({ parent: { database_id }, properties })] *)
Definition pages_create (db : jsstr) (props : properties) : M W unit :=
  fun e =>
    let '(o, w') := api_create api db props (world e) in
    let e' := {| world := w'; calls := calls e ++ [ReqCreate db props];
                 console := console e |} in
    match o with
    | SdkRejected r => (Thrown r, e')
    | SdkResolved => (Returned tt, e')
    end.

(** [await res.json()] *)
Definition res_json_call (res : response) : M W (option (list page)) :=
  match res_json res with
  | Some data_results => ret data_results
  | None => throw (js "SyntaxError")
  end.

Definition queryByRaceName (name : jsstr) : M W (list page) :=
  match DB_ID cfg with
  | Some db =>
    if truthy db then
      match NOTION_TOKEN cfg with
      | Some token =>
        if truthy token then
          res <- fetch_query db token name ;;
          if negb (res_ok res) then
            console_out LError
              (js "[NOTION] query failed (" ++ String_of (res_status res)
               ++ js " " ++ res_statusText res ++ js "): " ++ res_text res) ;;;
            ret []
          else
            data_results <- res_json_call res ;;
            ret (match data_results with Some l => l | None => [] end)
        else
          console_out LWarn (js "NOTION_TOKEN not set, skip query") ;;; ret []
      | None =>
        console_out LWarn (js "NOTION_TOKEN not set, skip query") ;;; ret []
      end
    else console_out LWarn (js "NOTION_DB_ID not set, skip query") ;;; ret []
  | None => console_out LWarn (js "NOTION_DB_ID not set, skip query") ;;; ret []
  end.

Definition upsertRaceToNotion (race : EventRecord) : M W unit :=
  match DB_ID cfg with
  | Some db =>
    if truthy db then
      existing <- queryByRaceName (race_name race) ;;
      let props := buildProperties race in
      match existing with
      | p0 :: _ =>
        let pageId := page_id p0 in
        pages_update pageId props ;;;
        console_out LLog (js "[NOTION] updated page for " ++ race_name race)
      | [] =>
        pages_create db props ;;;
        console_out LLog (js "[NOTION] created page for " ++ race_name race)
      end
    else console_out LWarn (js "NOTION_DB_ID not set, skip Notion sync")
  | None => console_out LWarn (js "NOTION_DB_ID not set, skip Notion sync")
  end.
End Notion.

(** The state at the start of a run: nothing sent, nothing printed. *)
Definition env0 {W} (w : W) : env W :=
  {| world := w; calls := []; console := [] |}.

(** Modelled from the spec: the destination store is an external
    collaborator whose code is not part of the sources.  Following sections
    4.4 and 6 of the specification, a query returns the entries whose title
    equals the name exactly, in store order; a create adds an entry with the
    given properties under a new identifier; an update replaces the property
    set of the entry with the given identifier.  The title of an entry is
    its [Name] property. *)
Definition store := list page.

(** Modelled from the spec: the title field of an entry. *)
Definition page_title (p : page) : jsstr := p_Name (page_props p).

(** Modelled from the spec: the identifier of a created entry is new; here
    it is longer than every identifier in the store. *)
Definition fresh_id (st : store) : jsstr :=
  repeat ch_zero (S (list_max (map (fun p => List.length (page_id p)) st))).

(** Modelled from the spec: [query(collectionId, filter)] with the filter
    "title equals [name]". *)
Definition store_query (db token name : jsstr) (st : store)
  : fetch_outcome * store :=
  (FetchResolved
     {| res_ok := true; res_status := 200; res_statusText := js "OK";
        res_text := [];
        res_json :=
          Some (Some (filter (fun p => jsstr_eqb (page_title p) name) st)) |},
   st).

(** Modelled from the spec: [update(recordId, properties)]. *)
Definition store_update (pid : jsstr) (props : properties) (st : store)
  : sdk_outcome * store :=
  (SdkResolved,
   map (fun p => if jsstr_eqb (page_id p) pid
                 then {| page_id := pid; page_props := props |} else p) st).

(** Modelled from the spec: [create(collectionId, properties)]. *)
Definition store_create (db : jsstr) (props : properties) (st : store)
  : sdk_outcome * store :=
  (SdkResolved, st ++ [{| page_id := fresh_id st; page_props := props |}]).

Definition store_api : StoreApi store :=
  {| api_query := store_query;
     api_update := store_update;
     api_create := store_create |}.

(** ** src/scrape-roadrun.mjs: listing crawler and driver *)

(** A fetched and parsed page, as far as the program looks at it: the [href]
    attribute of every [a] element in document order (absent when the
    element has none) and the rows selected by ["table tbody tr"]. *)
Record html := {
  html_anchors : list (option jsstr);
  html_rows : document
}.

Definition YEARS : list N := [2026].

(** [/view\.php\?no=(\d+)/] *)
Definition re_view_no : regex :=
  Seq (Lit (js "view.php?no=")) (Group 1 (digits 1 None)).

(** [nos.add(x)] on a [Set], kept in insertion order. *)
Definition set_add (x : jsstr) (nos : list jsstr) : list jsstr :=
  if existsb (jsstr_eqb x) nos then nos else nos ++ [x].

(** The callback of [$("a[href*='view.php?no=']").each] on one [a] element:
    the selector keeps the elements whose [href] contains the text. *)
Definition collect_no (nos : list jsstr) (a : option jsstr) : list jsstr :=
  match a with
  | Some href =>
    if includes href (js "view.php?no=") then
      match rexec re_view_no (or_default href []) with
      | Some m =>
        match group 1 m with
        | Some n => set_add n nos
        | None => nos
        end
      | None => nos
      end
    else nos
  | None => nos
  end.

Definition collect_nos (page : html) (nos : list jsstr) : list jsstr :=
  fold_left collect_no (html_anchors page) nos.

(** The outcome of [main]: the run completed and wrote these records, or
    the process exited with status 1. *)
Inductive run_end :=
| Completed (results : list EventRecord)
| Exit1.

Section Pipeline.
Context {W : Type}.
(** The transport layer: [axios.get] with the decoding of [fetchHtml] and
    the [cheerio.load] that follows each call, which answer with a page or
    fail. Every address is requested once in a run, so the answers are given
    as a function of the address. *)
Variable transport : jsstr -> result html.
Variable format_YYYY_MM_DD : Dayjs -> jsstr.
Variable api : StoreApi W.
Variable cfg : config.
(** The directory check and [fs.writeFileSync] of the results, and the path
    they are written to. *)
Variable writeResults : list EventRecord -> result unit.
Variable outPath : jsstr.
(** How [console.error] prints a caught error object. *)
Variable inspect : jsstr -> jsstr.

Definition fetchHtml (url : jsstr) : M W html :=
  fun e => match transport url with
           | Ok page => (Returned page, e)
           | Err reason => (Thrown reason, e)
           end.

(** [try { m } catch (err) { h(err.message) }] *)
Definition try_catch {A} (m : M W A) (h : jsstr -> M W A) : M W A :=
  fun e => match m e with
           | (Returned a, e') => (Returned a, e')
           | (Thrown r, e') => h r e'
           end.

Definition list_url (year : N) : jsstr :=
  BASE_URL ++ js "/list.php?syear_key=" ++ String_of year.

Definition detail_url (no : jsstr) : jsstr :=
  BASE_URL ++ js "/view.php?no=" ++ no.

(** The [for (const year of years)] loop of [fetchListNos]. *)
Fixpoint list_loop (years : list N) (nos : list jsstr) : M W (list jsstr) :=
  match years with
  | [] => ret nos
  | year :: rest =>
    console_out LLog (js "[LIST] " ++ list_url year) ;;;
    page <- fetchHtml (list_url year) ;;
    list_loop rest (collect_nos page nos)
  end.

Definition fetchListNos (years : list N) : M W (list jsstr) :=
  nos <- list_loop years [] ;;
  console_out LLog (js "[LIST] Found "
                    ++ String_of (N.of_nat (List.length nos))
                    ++ js " events") ;;;
  ret nos.

(** [fetchRaceDetail(no)] with its fetch: the address, the log line, the
    transport and then the extraction from the rows. *)
Definition fetchRaceDetail_page (no : jsstr) : M W EventRecord :=
  console_out LLog (js "[DETAIL] " ++ detail_url no) ;;;
  page <- fetchHtml (detail_url no) ;;
  match fetchRaceDetail format_YYYY_MM_DD no (html_rows page) with
  | Ok race => ret race
  | Err message => throw message
  end.

Definition log_detail_error (no reason : jsstr) : M W unit :=
  console_out LError (js "[ERROR] detail no=" ++ no ++ js " " ++ reason).

(** The [for (const no of nos)] loop of [main]. The record is pushed to
    [results] before the upsert, so it stays there when the upsert throws;
    both failures end in the same [catch]. *)
Fixpoint detail_loop (nos : list jsstr) (results : list EventRecord)
  : M W (list EventRecord) :=
  match nos with
  | [] => ret results
  | no :: rest =>
    results' <-
      try_catch
        (race <- fetchRaceDetail_page no ;;
         try_catch
           (upsertRaceToNotion api cfg race ;;; ret (results ++ [race]))
           (fun reason =>
              log_detail_error no reason ;;; ret (results ++ [race])))
        (fun reason => log_detail_error no reason ;;; ret results) ;;
    detail_loop rest results'
  end.

Definition save (results : list EventRecord) : M W unit :=
  fun e => match writeResults results with
           | Ok _ => (Returned tt, e)
           | Err reason => (Thrown reason, e)
           end.

Definition main : M W run_end :=
  try_catch
    (nos <- fetchListNos YEARS ;;
     results <- detail_loop nos [] ;;
     save results ;;;
     console_out LLog (js "[DONE] Saved "
                       ++ String_of (N.of_nat (List.length results))
                       ++ js " records to " ++ outPath) ;;;
     ret (Completed results))
    (fun reason =>
       console_out LError (js "[FATAL] " ++ inspect reason) ;;; ret Exit1).
End Pipeline.

(** * Vocabulary of the properties *)

(** ** Patterns read declaratively *)

(** Every character of [w] is in the class [p]. *)
Definition all (p : jschar -> bool) (w : jsstr) : Prop := forallb p w = true.

Definition within (n : nat) (hi : option nat) : Prop :=
  match hi with Some h => (n <= h)%nat | None => True end.

(** [Matches r s c s' c']: [r] can consume a prefix of [s] leaving [s'],
    turning captures [c] into [c']. *)
Fixpoint Matches (r : regex) (s : jsstr) (c : caps) (s' : jsstr) (c' : caps)
  : Prop :=
  match r with
  | Eps => s' = s /\ c' = c
  | Chr p => exists ch, s = ch :: s' /\ p ch = true /\ c' = c
  | Seq r1 r2 =>
    exists s1 c1, Matches r1 s c s1 c1 /\ Matches r2 s1 c1 s' c'
  | Alt r1 r2 => Matches r1 s c s' c' \/ Matches r2 s c s' c'
  | Opt r1 => Matches r1 s c s' c' \/ (s' = s /\ c' = c)
  | Rep p lo hi =>
    exists w, s = w ++ s' /\ all p w /\ (lo <= List.length w)%nat
              /\ within (List.length w) hi /\ c' = c
  | Group n r1 =>
    exists c1, Matches r1 s c s' c1
               /\ c' = (n, firstn (List.length s - List.length s') s) :: c1
  end.

(** [s] is empty or starts with a character outside [p]. *)
Definition not_headed_by (p : jschar -> bool) (s : jsstr) : Prop :=
  match s with [] => True | ch :: _ => p ch = false end.

(** [p] occurs in [s] as a substring. *)
Definition Contains (p s : jsstr) : Prop := exists pre suf, s = pre ++ p ++ suf.

(** A pattern occurrence read as a predicate on the text that starts at it. *)
Definition Occurs (P : jsstr -> Prop) (s : jsstr) : Prop :=
  exists pre t, s = pre ++ t /\ P t.

(** No occurrence starts inside [pre], that is to the left of [t]. *)
Definition Leftmost (P : jsstr -> Prop) (pre t : jsstr) : Prop :=
  forall p1 p2, pre = p1 ++ p2 -> p2 <> [] -> ~ P (p2 ++ t).

(** A pattern whose occurrences are exactly the successful matches. *)
Definition Recognizes (r : regex) (P : jsstr -> Prop) : Prop :=
  forall t, P t <-> match_here r t <> None.

(** The continuation of a whole pattern: accept whatever is left. *)
Definition top : jsstr -> caps -> option (jsstr * caps) :=
  fun s' c' => Some (s', c').

(** ** Dates *)








(** ** Times of day *)

(** [t] starts with [h:mi], one or two digits, a colon and two digits. *)
Definition ClockAt (h mi rest t : jsstr) : Prop :=
  t = h ++ [ch_colon] ++ mi ++ rest
  /\ all is_digit h /\ (1 <= List.length h <= 2)%nat
  /\ all is_digit mi /\ List.length mi = 2%nat.

(** [t] starts with 오전 or 오후, an hour of one or two digits and 시. *)
Definition AmPmAt (ampm h rest t : jsstr) : Prop :=
  t = ampm ++ h ++ [ch_si] ++ rest
  /\ (ampm = s_ojeon \/ ampm = s_ohu)
  /\ all is_digit h /\ (1 <= List.length h <= 2)%nat.

(** [rest] starts with minutes of one or two digits and 분. *)
Definition MinutesAt (mi rest' rest : jsstr) : Prop :=
  rest = mi ++ [ch_bun] ++ rest'
  /\ all is_digit mi /\ (1 <= List.length mi <= 2)%nat.

(** [t] starts with an hour of one or two digits and 시. *)
Definition HourAt (h rest t : jsstr) : Prop :=
  t = h ++ [ch_si] ++ rest
  /\ all is_digit h /\ (1 <= List.length h <= 2)%nat.

Definition IsClock (t : jsstr) : Prop := exists h mi rest, ClockAt h mi rest t.
Definition IsAmPm (t : jsstr) : Prop := exists ampm h rest, AmPmAt ampm h rest t.
Definition IsHour (t : jsstr) : Prop := exists h rest, HourAt h rest t.

(** The parts of [re_ampm]: [re_ampm = Seq re_marker re_hour_tail]. *)
Definition re_minutes : regex :=
  Seq (Group 3 (digits 1 (Some 2%nat))) (Chr (is_char ch_bun)).

Definition re_marker : regex := Group 1 (Alt (Lit s_ojeon) (Lit s_ohu)).
Definition re_hour_tail : regex :=
  Seq (Group 2 (digits 1 (Some 2%nat)))
      (Seq (Chr (is_char ch_si)) (Opt re_minutes)).

(** The text without its white space. *)
Definition strip (str : jsstr) : jsstr := filter is_nonspace str.

(** [`${h}:${mi}`] *)
Definition hhmm (h mi : jsstr) : jsstr := h ++ [ch_colon] ++ mi.

(** ** Categories *)

Definition is_k : jschar -> bool := is_char_ci 107 75.

(** [t] starts with digits, optional white space and [k] or [K]. *)
Definition KmAt (d rest t : jsstr) : Prop :=
  exists w c,
    t = d ++ w ++ [c] ++ rest
    /\ all is_digit d /\ (1 <= List.length d)%nat
    /\ all is_space w /\ is_k c = true.

Definition IsKm (t : jsstr) : Prop := exists d rest, KmAt d rest t.

(** The third rule as the specification words it: digits immediately
    followed by [k], case-insensitively, that is [/(\d+)k/i]. *)
Definition re_km_as_stated : regex :=
  Seq (Group 1 (digits 1 None)) (Chr (is_char_ci 107 75)).

Definition normalize_segment_as_stated (s : jsstr) : jsstr :=
  if includes s s_pul then js "full"
  else if includes s s_hapeu then js "half"
  else match rexec re_km_as_stated s with
       | Some m =>
         match group 1 m with
         | Some d => d ++ js "k"
         | None => s
         end
       | None => s
       end.

Definition normalizeCategories_as_stated (text : jsstr) : list jsstr :=
  map normalize_segment_as_stated
      (filter truthy (map trim (split_on ch_comma text))).

(** ** Rows of the detail table *)

(** The fields the row loop assigns. *)
Inductive field :=
| FName | FDate | FCourse | FRegion | FVenue | FEntry | FHomepage.

Definition field_eqb (a b : field) : bool :=
  match a, b with
  | FName, FName | FDate, FDate | FCourse, FCourse | FRegion, FRegion
  | FVenue, FVenue | FEntry, FEntry | FHomepage, FHomepage => true
  | _, _ => false
  end.

(** The first recognized label, in the order of the [if] chain, that the
    collapsed label text contains. *)
Definition classify (label : jsstr) : option field :=
  if includes label lbl_name then Some FName
  else if includes label lbl_date then Some FDate
  else if includes label lbl_course then Some FCourse
  else if includes label lbl_region then Some FRegion
  else if includes label lbl_venue then Some FVenue
  else if includes label lbl_entry then Some FEntry
  else if includes label lbl_homepage then Some FHomepage
  else None.

(** The label and the value of a row, as the loop computes them. *)
Definition row_label (tds : row) : jsstr :=
  match tds with
  | td0 :: _ => clean (cell_text td0)
  | [] => []
  end.

Definition row_value (tds : row) : jsstr := clean (cell_text (last_cell tds)).

(** The field a row assigns, if any: rows with fewer than two cells and rows
    whose label is not recognized assign none. *)
Definition row_field (tds : row) : option field :=
  if (List.length tds <? 2)%nat then None else classify (row_label tds).

(** The row assigns field [f]. *)
Definition assigns (f : field) (tds : row) : bool :=
  match row_field tds with
  | Some g => field_eqb g f
  | None => false
  end.

(** The loop variable behind each of the six text fields. *)
Definition text_var (f : field) (st : scan) : jsstr :=
  match f with
  | FName => raceName st
  | FDate => dateRaw st
  | FCourse => courseRaw st
  | FRegion => region st
  | FVenue => venue st
  | FEntry => entryRaw st
  | FHomepage => []
  end.

(** The link a homepage row yields on its own: the first anchor's target,
    else the first URL in the value text. *)
Definition row_link (tds : row) : option jsstr :=
  homepage_of (last_cell tds) (row_value tds) None.

(** The row is a homepage row that yields a link. *)
Definition assigns_link (tds : row) : bool :=
  assigns FHomepage tds
  && match row_link tds with Some _ => true | None => false end.

(** The label text that stands for a field. *)
Definition label_text (f : field) : jsstr :=
  match f with
  | FName => lbl_name
  | FDate => lbl_date
  | FCourse => lbl_course
  | FRegion => lbl_region
  | FVenue => lbl_venue
  | FEntry => lbl_entry
  | FHomepage => lbl_homepage
  end.

(** A cell without an anchor. *)
Definition td (text : jsstr) : cell :=
  {| cell_text := text; cell_first_anchor := None |}.

(** A cell whose first anchor has the given link target. *)
Definition td_link (text href : jsstr) : cell :=
  {| cell_text := text; cell_first_anchor := Some (Some href) |}.

(** The reading of "matches the label by substring": a row matches a label
    when its collapsed first cell contains it, and the last matching row
    gives the value. *)
Definition mentions (L : jsstr) (tds : row) : bool :=
  includes (row_label tds) L.

Definition last_row_wins_as_stated (doc : document) : Prop :=
  forall f, f <> FHomepage ->
    (2 <= List.length (filter (mentions (label_text f)) doc))%nat ->
    exists tds, find (mentions (label_text f)) (rev doc) = Some tds
                /\ text_var f (scan_rows doc) = row_value tds.

(** Sample documents. *)
Definition doc_overlap : document :=
  [ [td (js "대회일시"); td (js "2026년1월1일")];
    [td (js "대회명(대회일시)"); td (js "서울마라톤")] ].

Definition doc_two_names : document :=
  [ [td (js "대회명"); td (js "첫째")];
    [td (js "비고"); td (js "없음")];
    [td (js " 대회명 "); td (js "x"); td (js "둘째  마라톤")] ].

(** A formatter for examples: it prints the constructor argument. *)
Definition fmt_arg (d : Dayjs) : jsstr := match d with dayjs arg => arg end.

Definition doc_time_only : document :=
  [ [td (js "대회일시"); td (js "오전 9시 30분 출발")] ].

Definition doc_date_only : document :=
  [ [td (js "대회일시"); td (js "2026년 1월 11일 (일)")] ].

(** ** Store configuration and store calls *)

(** Both environment variables are set to non-empty strings. *)
Definition configured (cfg : config) (db token : jsstr) : Prop :=
  DB_ID cfg = Some db /\ truthy db = true
  /\ NOTION_TOKEN cfg = Some token /\ truthy token = true.

(** A variable is absent when it is undefined or empty. *)
Definition db_absent (cfg : config) : Prop := truthy_opt (DB_ID cfg) = false.
Definition token_absent (cfg : config) : Prop :=
  truthy_opt (NOTION_TOKEN cfg) = false.

(** Sample configurations, records and pages. *)
Definition cfg_none : config := {| NOTION_TOKEN := None; DB_ID := None |}.

Definition cfg_ok : config :=
  {| NOTION_TOKEN := Some (js "secret_token"); DB_ID := Some (js "db1") |}.

Definition race_of (name : jsstr) : EventRecord :=
  {| source := js "roadrun"; source_id := js "7";
     source_url := BASE_URL ++ js "/view.php?no=7";
     race_name := name; race_datetime := None; course := [];
     location_full := []; entry_period_raw := [];
     entry_start := None; entry_end := None; homepage := None |}.

Definition page_of (pid name : jsstr) : page :=
  {| page_id := pid; page_props := buildProperties (race_of name) |}.

(** A store that cannot be reached: the query request itself fails. *)
Definition unreachable_api : StoreApi unit :=
  {| api_query := fun _ _ _ w => (FetchRejected (js "fetch failed"), w);
     api_update := fun _ _ w => (SdkRejected (js "fetch failed"), w);
     api_create := fun _ _ w => (SdkRejected (js "fetch failed"), w) |}.

(** A store that answers the query with a server error and accepts writes. *)
Definition failing_query_api : StoreApi unit :=
  {| api_query := fun _ _ _ w =>
       (FetchResolved {| res_ok := false; res_status := 500;
                         res_statusText := js "Internal Server Error";
                         res_text := js "{}"; res_json := Some None |}, w);
     api_update := fun _ _ w => (SdkResolved, w);
     api_create := fun _ _ w => (SdkResolved, w) |}.

(** A request as an upsert of an empty-named record sends it. *)
Definition empty_name_request (c : request) : Prop :=
  match c with
  | ReqQuery _ _ name => name = []
  | ReqUpdate _ props => p_Name props = placeholder_title
  | ReqCreate _ props => p_Name props = placeholder_title
  end.

(** The identifiers and the titles of the pages of the store model. *)
Definition ids (st : store) : list jsstr := map page_id st.
Definition titles (st : store) : list jsstr := map page_title st.

(** The store after an upsert that started from [st]. *)
Definition store_after (cfg : config) (race : EventRecord) (st : store)
  : store :=
  world (snd (upsertRaceToNotion store_api cfg race (env0 st))).

(** The requests of an upsert that started from [st]. *)
Definition calls_of (cfg : config) (race : EventRecord) (st : store)
  : list request :=
  calls (snd (upsertRaceToNotion store_api cfg race (env0 st))).

(** The answer of the store model to a query for [name]. *)
Definition matching (name : jsstr) (st : store) : list page :=
  filter (fun p => jsstr_eqb (page_title p) name) st.

Section StoreCalls.
Context {W : Type}.
Variable api : StoreApi W.

(** The state after the query was sent and the store moved to [w1]. *)
Definition after_query (e : env W) (db token name : jsstr) (w1 : W) : env W :=
  {| world := w1; calls := calls e ++ [ReqQuery db token name];
     console := console e |}.

(** The branch of [upsertRaceToNotion] after the query. *)
Definition write_back (db : jsstr) (race : EventRecord)
           (existing : list page) : M W unit :=
  let props := buildProperties race in
  match existing with
  | p0 :: _ =>
    pages_update api (page_id p0) props ;;;
    console_out LLog (js "[NOTION] updated page for " ++ race_name race)
  | [] =>
    pages_create api db props ;;;
    console_out LLog (js "[NOTION] created page for " ++ race_name race)
  end.

(** The request written back after a query that returned [existing]. *)
Definition write_request (db : jsstr) (race : EventRecord)
           (existing : list page) : request :=
  match existing with
  | p0 :: _ => ReqUpdate (page_id p0) (buildProperties race)
  | [] => ReqCreate db (buildProperties race)
  end.

(** The store's reaction to that request. *)
Definition write_result (db : jsstr) (race : EventRecord)
           (existing : list page) (w : W) : sdk_outcome * W :=
  match existing with
  | p0 :: _ => api_update api (page_id p0) (buildProperties race) w
  | [] => api_create api db (buildProperties race) w
  end.

(** A rejected SDK call throws. *)
Definition sdk_to_outcome (o : sdk_outcome) : outcome unit :=
  match o with SdkRejected r => Thrown r | SdkResolved => Returned tt end.

(** Every request of an upsert is the query for the record's name or a
    write of the record's mapped properties. *)
Definition request_of (race : EventRecord) (c : request) : Prop :=
  match c with
  | ReqQuery _ _ name => name = race_name race
  | ReqUpdate _ props => props = buildProperties race
  | ReqCreate _ props => props = buildProperties race
  end.
End StoreCalls.

(** ** clean *)

(** Every white-space character is a single U+0020 that is not followed by
    another white-space character. *)
Fixpoint collapsed (s : jsstr) : bool :=
  match s with
  | [] => true
  | c :: s' =>
    (if is_space c
     then (c =? ch_space)
          && match s' with [] => true | c' :: _ => negb (is_space c') end
     else true)
    && collapsed s'
  end.

(** Collapsed, and white space neither at the start nor at the end. *)
Definition normalized (s : jsstr) : Prop :=
  collapsed s = true /\ not_headed_by is_space s
  /\ not_headed_by is_space (rev s).

(** ** The shape of parseTime results *)

(** Two digits, a colon, two digits. *)
Definition TimeShape (t : jsstr) : Prop :=
  exists a b c d,
    t = [a; b; ch_colon; c; d]
    /\ is_digit a = true /\ is_digit b = true
    /\ is_digit c = true /\ is_digit d = true.

Definition two_digits (s : jsstr) : Prop :=
  exists a b, s = [a; b] /\ is_digit a = true /\ is_digit b = true.

Definition small_ok (n : N) : bool :=
  forallb is_digit (String_of n)
  && (1 <=? List.length (String_of n))%nat
  && (List.length (String_of n) <=? 2)%nat.

(** ** The tags of normalizeCourse *)

(** A tag is not empty, has no comma and no white space at either end. *)
Definition tag_ok (tag : jsstr) : Prop :=
  tag <> [] /\ ~ In ch_comma tag
  /\ not_headed_by is_space tag /\ not_headed_by is_space (rev tag).

(** ** The homepage link *)

(** [http] or [https]. *)
Definition is_scheme (sch : jsstr) : Prop := sch = js "http" \/ sch = js "https".

(** [t] starts with a URL-looking token: scheme, [://] and a maximal run of
    characters that are not white space. *)
Definition UrlAt (sch w rest t : jsstr) : Prop :=
  t = sch ++ js "://" ++ w ++ rest
  /\ is_scheme sch /\ all is_nonspace w /\ (1 <= List.length w)%nat
  /\ not_headed_by is_nonspace rest.

Definition IsUrl (t : jsstr) : Prop := exists sch w rest, UrlAt sch w rest t.

(** The cell has no usable anchor: none, or one without a link target. *)
Definition no_link (valueTd : cell) : Prop :=
  forall href, cell_first_anchor valueTd = Some (Some href) -> href = [].

(** ** Rows in another order *)

(** The assignment a row of field [f] makes. *)
Definition assign (f : field) (valueTd : cell) (v : jsstr) (st : scan) : scan :=
  match f with
  | FName =>
    {| raceName := v; dateRaw := dateRaw st; courseRaw := courseRaw st;
       region := region st; venue := venue st; entryRaw := entryRaw st;
       homepage_var := homepage_var st |}
  | FDate =>
    {| raceName := raceName st; dateRaw := v; courseRaw := courseRaw st;
       region := region st; venue := venue st; entryRaw := entryRaw st;
       homepage_var := homepage_var st |}
  | FCourse =>
    {| raceName := raceName st; dateRaw := dateRaw st; courseRaw := v;
       region := region st; venue := venue st; entryRaw := entryRaw st;
       homepage_var := homepage_var st |}
  | FRegion =>
    {| raceName := raceName st; dateRaw := dateRaw st;
       courseRaw := courseRaw st; region := v; venue := venue st;
       entryRaw := entryRaw st; homepage_var := homepage_var st |}
  | FVenue =>
    {| raceName := raceName st; dateRaw := dateRaw st;
       courseRaw := courseRaw st; region := region st; venue := v;
       entryRaw := entryRaw st; homepage_var := homepage_var st |}
  | FEntry =>
    {| raceName := raceName st; dateRaw := dateRaw st;
       courseRaw := courseRaw st; region := region st; venue := venue st;
       entryRaw := v; homepage_var := homepage_var st |}
  | FHomepage =>
    {| raceName := raceName st; dateRaw := dateRaw st;
       courseRaw := courseRaw st; region := region st; venue := venue st;
       entryRaw := entryRaw st;
       homepage_var := homepage_of valueTd v (homepage_var st) |}
  end.

(** The fields the rows of a document assign, in document order. *)
Definition fields_of (doc : document) : list field :=
  flat_map (fun tds => match row_field tds with
                       | Some f => [f]
                       | None => []
                       end) doc.

Definition doc_name_date : document :=
  [ [td (js "대회명"); td (js "서울마라톤")];
    [td (js "대회일시"); td (js "2026년1월11일 09:00")] ].

(** ** What the record carries *)

Definition doc_region_venue : document :=
  [ [td (js " 대회지역 "); td (js "  서울 ")];
    [td (js "대회장소"); td (js "상암   월드컵공원")] ].

(** ** From the record to the property set *)

(** A string property that is present is not empty. *)
Definition present_nonempty (o : option jsstr) : Prop :=
  forall u, o = Some u -> u <> [].

(** ** The requests of one upsert *)

(** The possible request sequences of one upsert of [race]: nothing; the
    query alone; the query and then one write; or, without a token, a create
    alone. *)
Definition upsert_trace (cfg : config) (race : EventRecord)
           (l : list request) : Prop :=
  l = []
  \/ exists db,
       DB_ID cfg = Some db /\ truthy db = true
       /\ ((exists token,
              NOTION_TOKEN cfg = Some token /\ truthy token = true
              /\ (l = [ReqQuery db token (race_name race)]
                  \/ (exists pid,
                         l = [ReqQuery db token (race_name race);
                              ReqUpdate pid (buildProperties race)])
                  \/ l = [ReqQuery db token (race_name race);
                          ReqCreate db (buildProperties race)]))
           \/ (token_absent cfg
               /\ l = [ReqCreate db (buildProperties race)])).

Definition cfg_no_token : config :=
  {| NOTION_TOKEN := None; DB_ID := Some (js "db1") |}.

(** ** Upserting twice into the store model *)

Definition put (pid : jsstr) (props : properties) (p : page) : page :=
  if jsstr_eqb (page_id p) pid
  then {| page_id := pid; page_props := props |} else p.

(** ** Listing identifiers *)

Definition s_view : jsstr := js "view.php?no=".

(** [t] starts with [view.php?no=] and a maximal run of digits. *)
Definition ViewAt (d rest t : jsstr) : Prop :=
  t = s_view ++ d ++ rest
  /\ all is_digit d /\ (1 <= List.length d)%nat
  /\ not_headed_by is_digit rest.

Definition IsView (t : jsstr) : Prop := exists d rest, ViewAt d rest t.

(** A listing identifier: a non-empty string of digits. *)
Definition is_no (n : jsstr) : Prop := all is_digit n /\ n <> [].

(** An identifier taken from the anchors [anchors]. *)
Definition listed (anchors : list (option jsstr)) (n : jsstr) : Prop :=
  exists href pre rest,
    In (Some href) anchors /\ href = pre ++ s_view ++ n ++ rest
    /\ ViewAt n rest (s_view ++ n ++ rest)
    /\ Leftmost IsView pre (s_view ++ n ++ rest).

(** ** The listing and the run *)

Section PipelineResults.
Variable transport : jsstr -> result html.
Variable format_YYYY_MM_DD : Dayjs -> jsstr.
Variable writeResults : list EventRecord -> result unit.

(** [n] is linked from the listing page of one of the [years]. *)
Definition listed_in (years : list N) (n : jsstr) : Prop :=
  exists y page,
    In y years /\ transport (list_url y) = Ok page
    /\ listed (html_anchors page) n.

(** The records a run extracts for one identifier: one when its detail page
    is fetched and has rows, none otherwise. *)
Definition extract (no : jsstr) : list EventRecord :=
  match transport (detail_url no) with
  | Ok page =>
    match fetchRaceDetail format_YYYY_MM_DD no (html_rows page) with
    | Ok race => [race]
    | Err _ => []
    end
  | Err _ => []
  end.

(** The records of a run: those of the identifiers of the listing page of
    2026, the one year of [YEARS], whose detail page is fetched and has rows,
    in listing order. *)
Definition run_records : list EventRecord :=
  match transport (list_url 2026) with
  | Ok page => flat_map extract (collect_nos page [])
  | Err _ => []
  end.

Definition run_result : run_end :=
  match transport (list_url 2026) with
  | Ok _ =>
    match writeResults run_records with
    | Ok _ => Completed run_records
    | Err _ => Exit1
    end
  | Err _ => Exit1
  end.

End PipelineResults.

(** A listing page with a repeated link, a link without digits and an
    element without address. *)
Definition page_listing : html :=
  {| html_anchors := [Some (js "view.php?no=41"); None;
                      Some (js "/schedule/view.php?no=7&x=1");
                      Some (js "list.php"); Some (js "view.php?no=");
                      Some (js "http://h/view.php?no=41#top")];
     html_rows := [] |}.

(** A site with the listing page of 2026 and the detail page of event 41. *)
Definition site (url : jsstr) : result html :=
  if jsstr_eqb url (list_url 2026) then Ok page_listing
  else if jsstr_eqb url (detail_url (js "41"))
       then Ok {| html_anchors := []; html_rows := doc_name_date |}
       else Err (js "Request failed with status code 404").

Definition site_down (url : jsstr) : result html :=
  Err (js "connect ECONNREFUSED").

(** * Properties *)

Lemma jsstr_eqb_eq a : forall b, jsstr_eqb a b = true <-> a = b.
Proof.
  induction a as [|x a IH]; intros [|y b]; simpl; split; intros H;
    try reflexivity; try discriminate.
  - apply andb_true_iff in H. destruct H as [H1 H2].
    apply N.eqb_eq in H1. apply IH in H2. congruence.
  - inversion H; subst. rewrite N.eqb_refl. simpl. apply IH. reflexivity.
Qed.

Lemma jsstr_eqb_refl a : jsstr_eqb a a = true.
Proof. apply jsstr_eqb_eq. reflexivity. Qed.

(** ** The matcher against a declarative reading of patterns *)

Lemma firstn_app_len (w r : jsstr) :
  firstn (List.length (w ++ r) - List.length r) (w ++ r) = w.
Proof.
  rewrite length_app.
  replace (List.length w + List.length r - List.length r)%nat
    with (List.length w + 0)%nat by lia.
  rewrite firstn_app_2. simpl. apply app_nil_r.
Qed.

Lemma Matches_suffix r : forall s c s' c',
  Matches r s c s' c' -> exists w, s = w ++ s'.
Proof.
  induction r; simpl; intros s c s' c' H.
  - destruct H as [-> _]. exists []. reflexivity.
  - destruct H as (ch & -> & _). exists [ch]. reflexivity.
  - destruct H as (s1 & c1 & H1 & H2).
    apply IHr1 in H1. apply IHr2 in H2.
    destruct H1 as [w1 ->]. destruct H2 as [w2 ->].
    exists (w1 ++ w2). now rewrite app_assoc.
  - destruct H as [H | H]; eauto.
  - destruct H as [H | [-> _]]; eauto. exists []. reflexivity.
  - destruct H as (w & -> & _). eauto.
  - destruct H as (c1 & H & _). eauto.
Qed.

Lemma rep_sound {A} p (k : jsstr -> option A) x : forall s lo hi,
  rep p lo hi s k = Some x ->
  exists w s', s = w ++ s' /\ all p w /\ (lo <= List.length w)%nat
               /\ within (List.length w) hi /\ k s' = Some x.
Proof.
  induction s as [|ch s IH]; intros lo hi H; simpl in H.
  - destruct lo; simpl in H; [|discriminate].
    exists [], []. repeat split; auto. destruct hi; simpl; lia.
  - assert (Hstop : (if Nat.eqb lo 0 then k (ch :: s) else None) = Some x ->
                    exists w s', ch :: s = w ++ s' /\ all p w
                      /\ (lo <= List.length w)%nat
                      /\ within (List.length w) hi /\ k s' = Some x).
    { intros Hk. destruct lo; simpl in Hk; [|discriminate].
      exists [], (ch :: s). repeat split; auto. destruct hi; simpl; lia. }
    destruct (p ch) eqn:Hp; simpl in H; [|auto].
    destruct (hi_pos hi) eqn:Hh; simpl in H; [|auto].
    destruct (rep p (Nat.pred lo) (hi_pred hi) s k) eqn:Hr; [|auto].
    inversion H; subst a.
    apply IH in Hr. destruct Hr as (w & s' & -> & Hw & Hlo & Hhi & Hk).
    exists (ch :: w), s'. repeat split; auto.
    + unfold all. simpl. rewrite Hp. exact Hw.
    + simpl. lia.
    + destruct hi as [[|h]|]; simpl in *; try discriminate; lia.
Qed.

(** Soundness: a result of the matcher comes from a match of the pattern
    that the continuation accepted. *)
Lemma rmatch_sound {A} r : forall s c (k : jsstr -> caps -> option A) x,
  rmatch r s c k = Some x ->
  exists s' c', Matches r s c s' c' /\ k s' c' = Some x.
Proof.
  induction r; simpl; intros s c k x H.
  - eauto.
  - destruct s as [|ch s]; [discriminate|].
    destruct (p ch) eqn:Hp; [|discriminate]. eauto 7.
  - apply IHr1 in H. destruct H as (s1 & c1 & H1 & H).
    apply IHr2 in H. destruct H as (s2 & c2 & H2 & H). eauto 8.
  - destruct (rmatch r1 s c k) eqn:H1.
    + inversion H; subst a. apply IHr1 in H1.
      destruct H1 as (s' & c' & ? & ?). eauto.
    + apply IHr2 in H. destruct H as (s' & c' & ? & ?). eauto.
  - destruct (rmatch r s c k) eqn:H1.
    + inversion H; subst a. apply IHr in H1.
      destruct H1 as (s' & c' & ? & ?). eauto.
    + eauto 6.
  - apply rep_sound in H.
    destruct H as (w & s' & -> & Hw & Hlo & Hhi & Hk).
    exists s', c. split; [|exact Hk]. exists w. auto.
  - apply IHr in H. destruct H as (s' & c' & HM & Hk). eauto 6.
Qed.

(** Greedy repetition takes a whole run when the continuation accepts what
    follows it: either the run has the maximal length or the next character
    is outside the class. *)
Lemma rep_span {A} p (k : jsstr -> option A) x r : forall w lo hi,
  all p w -> (lo <= List.length w)%nat ->
  hi = Some (List.length w)
  \/ (within (S (List.length w)) hi /\ not_headed_by p r) ->
  k r = Some x ->
  rep p lo hi (w ++ r) k = Some x.
Proof.
  induction w as [|a w IH]; intros lo hi Hw Hlo Hhi Hk; simpl in *.
  - assert (lo = 0%nat) by lia. subst lo.
    destruct r as [|ch r]; simpl; [exact Hk|].
    destruct Hhi as [-> | [_ Hnp]]; simpl.
    + rewrite andb_false_r. exact Hk.
    + simpl in Hnp. rewrite Hnp. exact Hk.
  - unfold all in Hw. simpl in Hw. apply andb_true_iff in Hw.
    destruct Hw as [Ha Hw]. rewrite Ha.
    assert (Hpos : hi_pos hi = true).
    { destruct Hhi as [-> | [Hin _]]; [reflexivity|].
      destruct hi as [[|h]|]; simpl in *; auto; lia. }
    rewrite Hpos. simpl.
    rewrite (IH (Nat.pred lo) (hi_pred hi)); auto; try lia.
    destruct Hhi as [-> | [Hin Hnp]]; [left; reflexivity|].
    right. split; [|exact Hnp].
    destruct hi as [h|]; simpl in *; auto; lia.
Qed.

(** ** Leftmost search *)

Lemma rexec_from_none r : forall s b,
  rexec_from r b s = None <->
  (forall p t, s = p ++ t -> match_here r t = None).
Proof.
  induction s as [|ch s IH]; intros b; simpl.
  - destruct (match_here r []) as [[s' c']|] eqn:H; split; intros H0.
    + discriminate.
    + specialize (H0 [] [] eq_refl). congruence.
    + intros p t Hpt. symmetry in Hpt. apply app_eq_nil in Hpt.
      destruct Hpt as [-> ->]. exact H.
    + reflexivity.
  - destruct (match_here r (ch :: s)) as [[s' c']|] eqn:H; split; intros H0.
    + discriminate.
    + specialize (H0 [] (ch :: s) eq_refl). congruence.
    + intros p t Hpt. destruct p as [|a p]; simpl in Hpt.
      * subst t. exact H.
      * inversion Hpt; subst. eapply IH; eauto.
    + apply IH. intros p t Hpt. apply (H0 (ch :: p) t). simpl. now rewrite Hpt.
Qed.

(** The search returns the match at the first position where one exists. *)
Lemma rexec_from_found r : forall p b t s' c',
  match_here r t = Some (s', c') ->
  (forall p1 p2, p = p1 ++ p2 -> p2 <> [] -> match_here r (p2 ++ t) = None) ->
  rexec_from r b (p ++ t) =
  Some {| m_before := rev b ++ p;
          m_text := firstn (List.length t - List.length s') t;
          m_caps := c'; m_after := s' |}.
Proof.
  induction p as [|a p IH]; intros b t s' c' Ht Hno.
  - simpl. destruct t; simpl; rewrite Ht; rewrite app_nil_r; reflexivity.
  - pose proof (Hno [] (a :: p) eq_refl ltac:(discriminate)) as H0.
    simpl in H0. simpl. rewrite H0.
    rewrite (IH (a :: b) t s' c' Ht).
    + simpl. rewrite <- app_assoc. reflexivity.
    + intros p1 p2 Hp Hne. apply (Hno (a :: p1) p2); auto.
      simpl. now rewrite Hp.
Qed.

Lemma rexec_found r p t s' c' :
  match_here r t = Some (s', c') ->
  (forall p1 p2, p = p1 ++ p2 -> p2 <> [] -> match_here r (p2 ++ t) = None) ->
  rexec r (p ++ t) =
  Some {| m_before := p;
          m_text := firstn (List.length t - List.length s') t;
          m_caps := c'; m_after := s' |}.
Proof.
  intros. unfold rexec. erewrite rexec_from_found; eauto.
Qed.

Lemma rexec_from_some r : forall s b m,
  rexec_from r b s = Some m ->
  exists p t, s = p ++ t /\ match_here r t = Some (m_after m, m_caps m)
              /\ m_before m = rev b ++ p
              /\ m_text m = firstn (List.length t - List.length (m_after m)) t
              /\ (forall p1 p2, p = p1 ++ p2 -> p2 <> [] ->
                                match_here r (p2 ++ t) = None).
Proof.
  induction s as [|ch s IH]; intros b m H; simpl in H.
  - destruct (match_here r []) as [[s' c']|] eqn:H0; [|discriminate].
    inversion H; subst m; simpl. exists [], []. repeat split; auto.
    + now rewrite app_nil_r.
    + intros p1 p2 Hp Hne. symmetry in Hp. apply app_eq_nil in Hp. tauto.
  - destruct (match_here r (ch :: s)) as [[s' c']|] eqn:H0.
    + inversion H; subst m; simpl. exists [], (ch :: s). repeat split; auto.
      * now rewrite app_nil_r.
      * intros p1 p2 Hp Hne. symmetry in Hp. apply app_eq_nil in Hp. tauto.
    + apply IH in H. destruct H as (p & t & -> & Hm & Hb & Ht & Hno).
      exists (ch :: p), t. repeat split; auto.
      * rewrite Hb. simpl. now rewrite <- app_assoc.
      * intros p1 p2 Hp Hne. destruct p1 as [|a p1]; simpl in Hp.
        -- subst p2. simpl. exact H0.
        -- inversion Hp; subst. eapply Hno; eauto.
Qed.

(** ** Facts about the character classes *)

Lemma digit_not_space c : is_digit c = true -> is_space c = false.
Proof.
  unfold is_digit, is_space. intros H. apply andb_true_iff in H.
  destruct H as [H1 H2]. apply N.leb_le in H1, H2.
  repeat (apply orb_false_iff; split);
    try (apply andb_false_iff;
         (left; apply N.leb_gt; lia) || (right; apply N.leb_gt; lia));
    try (apply N.eqb_neq; lia).
Qed.

Lemma space_not_digit c : is_space c = true -> is_digit c = false.
Proof.
  intros H. destruct (is_digit c) eqn:E; auto.
  apply digit_not_space in E. congruence.
Qed.

Lemma not_headed_app p q w c r :
  (forall x, p x = true -> q x = false) ->
  all p w -> q c = false -> not_headed_by q (w ++ c :: r).
Proof.
  intros Hpq Hw Hc. destruct w as [|a w]; simpl; auto.
  unfold all in Hw. simpl in Hw. apply andb_true_iff in Hw. apply Hpq, Hw.
Qed.

Lemma not_headed_run p q w r :
  (forall x, p x = true -> q x = false) ->
  all p w -> w <> [] -> not_headed_by q (w ++ r).
Proof.
  intros Hpq Hw Hne. destruct w as [|a w]; [congruence|]. simpl.
  unfold all in Hw. simpl in Hw. apply andb_true_iff in Hw. apply Hpq, Hw.
Qed.

(** ** Walking a concrete pattern *)

Lemma is_char_refl c : is_char c c = true.
Proof. apply N.eqb_refl. Qed.

Lemma is_char_eq c x : is_char c x = true -> x = c.
Proof. apply N.eqb_eq. Qed.

(** Tactics that walk a concrete pattern: [span_digits] and [span_spaces]
    let a repetition take a whole run, [eat_char] passes a literal, and
    [break_matches] opens a [Matches] hypothesis. *)
Ltac head_after_digits :=
  first [ apply not_headed_app with (p := is_space);
          [ exact space_not_digit | assumption | reflexivity ]
        | cbn [not_headed_by app]; reflexivity
        | exact I ].

Ltac span_digits :=
  apply rep_span;
  [ assumption | lia
  | match goal with
    | |- Some ?h = Some (List.length ?w) \/ _ =>
      let E := fresh "E" in
      destruct (Nat.eq_dec (List.length w) h) as [E|E];
      [ left; now rewrite E
      | first [ exfalso; lia
              | right; split; [ simpl; lia | head_after_digits ] ] ]
    | |- _ => right; split; [ exact I | head_after_digits ]
    end
  | rewrite ?firstn_app_len ].

Ltac span_spaces :=
  apply rep_span;
  [ assumption | simpl; lia
  | right; split;
    [ exact I
    | first [ cbn [not_headed_by app]; reflexivity
            | apply not_headed_run with (p := is_digit);
              [ exact digit_not_space | assumption
              | intros ->; simpl in *; lia ] ] ]
  | ].

Ltac eat_char := cbn [app]; rewrite ?is_char_refl.

Ltac break_matches :=
  repeat match goal with
         | H : exists _, _ |- _ => destruct H
         | H : _ /\ _ |- _ => destruct H
         | H : _ \/ _ |- _ => destruct H
         | H : is_char _ _ = true |- _ => apply is_char_eq in H
         end;
  subst; rewrite ?firstn_app_len in *.

Ltac open_match H :=
  unfold match_here in H; apply rmatch_sound in H;
  let s' := fresh "s" in let c' := fresh "c" in
  let HM := fresh "HM" in let Heq := fresh "Heq" in
  destruct H as (s' & c' & HM & Heq); inversion Heq; subst s' c'; clear Heq.

Lemma rexec_leftmost r P pre t s' c' :
  Recognizes r P ->
  match_here r t = Some (s', c') ->
  Leftmost P pre t ->
  rexec r (pre ++ t) =
  Some {| m_before := pre;
          m_text := firstn (List.length t - List.length s') t;
          m_caps := c'; m_after := s' |}.
Proof.
  intros HR Ht HL. apply rexec_found; auto.
  intros p1 p2 Hp Hne.
  destruct (match_here r (p2 ++ t)) eqn:E; auto.
  exfalso. apply (HL p1 p2 Hp Hne). apply HR. congruence.
Qed.

Lemma rexec_absent r P s :
  Recognizes r P -> ~ Occurs P s -> rexec r s = None.
Proof.
  intros HR HN. apply rexec_from_none. intros p t Hs.
  destruct (match_here r t) eqn:E; auto.
  exfalso. apply HN. exists p, t. split; auto. apply HR. congruence.
Qed.


(** ** parseKoreanDate *)









(** ** parseTime *)

Lemma clock_here_complete h mi rest t :
  ClockAt h mi rest t ->
  match_here re_clock t = Some (rest, [(2%nat, mi); (1%nat, h)]).
Proof.
  intros (-> & Hh & Hlh & Hm & Hlm).
  unfold match_here, re_clock, digits. cbn [rmatch].
  span_digits. eat_char. span_digits. reflexivity.
Qed.

Lemma clock_here_sound t rest c :
  match_here re_clock t = Some (rest, c) ->
  exists h mi, ClockAt h mi rest t /\ c = [(2%nat, mi); (1%nat, h)].
Proof.
  intros H. open_match H.
  unfold re_clock, digits in HM. cbn [Matches] in HM.
  break_matches.
  do 2 eexists. split; [|reflexivity].
  unfold ClockAt. simpl in *. repeat split; auto; lia.
Qed.

Lemma hour_here_complete h rest t :
  HourAt h rest t ->
  match_here re_hour t = Some (rest, [(1%nat, h)]).
Proof.
  intros (-> & Hh & Hlh).
  unfold match_here, re_hour, digits. cbn [rmatch].
  span_digits. eat_char. reflexivity.
Qed.

Lemma hour_here_sound t rest c :
  match_here re_hour t = Some (rest, c) ->
  exists h, HourAt h rest t /\ c = [(1%nat, h)].
Proof.
  intros H. open_match H.
  unfold re_hour, digits in HM. cbn [Matches] in HM.
  break_matches.
  eexists. split; [|reflexivity].
  unfold HourAt. simpl in *. repeat split; auto; lia.
Qed.

Lemma minutes_complete {A} mi rest' rest c (k : jsstr -> caps -> option A) x :
  MinutesAt mi rest' rest ->
  k rest' ((3%nat, mi) :: c) = Some x ->
  rmatch re_minutes rest c k = Some x.
Proof.
  intros (-> & Hm & Hl) Hk.
  unfold re_minutes, digits. cbn [rmatch].
  span_digits. eat_char. exact Hk.
Qed.

Lemma minutes_sound {A} rest c (k : jsstr -> caps -> option A) x :
  rmatch re_minutes rest c k = Some x ->
  exists mi rest', MinutesAt mi rest' rest /\ k rest' ((3%nat, mi) :: c) = Some x.
Proof.
  intros H. apply rmatch_sound in H. destruct H as (s' & c' & HM & Hk).
  unfold re_minutes, digits in HM. cbn [Matches] in HM.
  break_matches.
  do 2 eexists. split; [|exact Hk].
  unfold MinutesAt. simpl in *. repeat split; auto; lia.
Qed.

Lemma re_ampm_split : re_ampm = Seq re_marker re_hour_tail.
Proof. reflexivity. Qed.

Lemma Lit_match {A} w : forall s c (k : jsstr -> caps -> option A),
  rmatch (Lit w) s c k
  = if starts_with w s then k (skipn (List.length w) s) c else None.
Proof.
  induction w as [|a w IH]; intros s c k.
  - reflexivity.
  - destruct w as [|b w].
    + simpl. destruct s as [|ch s]; [reflexivity|].
      unfold is_char. rewrite N.eqb_sym.
      destruct (a =? ch); simpl; [|reflexivity].
      destruct s; reflexivity.
    + change (Lit (a :: b :: w)) with (Seq (Chr (is_char a)) (Lit (b :: w))).
      cbn [rmatch]. destruct s as [|ch s]; [reflexivity|].
      unfold is_char. rewrite N.eqb_sym.
      cbn [starts_with]. destruct (a =? ch); [|reflexivity].
      rewrite IH. reflexivity.
Qed.

Lemma starts_with_app w t : starts_with w (w ++ t) = true.
Proof.
  induction w as [|a w IH]; simpl; [destruct t; reflexivity|].
  now rewrite N.eqb_refl.
Qed.

Lemma skipn_app_len (w t : jsstr) : skipn (List.length w) (w ++ t) = t.
Proof. induction w; simpl; auto. Qed.

Lemma marker_here {A} ampm t c (k : jsstr -> caps -> option A) :
  ampm = s_ojeon \/ ampm = s_ohu ->
  rmatch re_marker (ampm ++ t) c k = k t ((1%nat, ampm) :: c).
Proof.
  intros Hap. unfold re_marker. cbn [rmatch]. rewrite !Lit_match.
  destruct Hap as [-> | ->].
  - rewrite starts_with_app, skipn_app_len, firstn_app_len.
    replace (starts_with s_ohu (s_ojeon ++ t)) with false by reflexivity.
    destruct (k t _); reflexivity.
  - replace (starts_with s_ojeon (s_ohu ++ t)) with false by reflexivity.
    rewrite starts_with_app, skipn_app_len, firstn_app_len. reflexivity.
Qed.

Lemma starts_with_split w : forall s,
  starts_with w s = true -> s = w ++ skipn (List.length w) s.
Proof.
  induction w as [|a w IH]; intros s H; [reflexivity|].
  destruct s as [|b s]; [discriminate|]. simpl in H.
  apply andb_true_iff in H. destruct H as [H1 H2].
  apply N.eqb_eq in H1. subst b. simpl. f_equal. auto.
Qed.

Lemma marker_sound {A} s c (k : jsstr -> caps -> option A) x :
  rmatch re_marker s c k = Some x ->
  exists ampm t, s = ampm ++ t /\ (ampm = s_ojeon \/ ampm = s_ohu)
                 /\ k t ((1%nat, ampm) :: c) = Some x.
Proof.
  unfold re_marker. cbn [rmatch]. rewrite !Lit_match. intros H.
  destruct (starts_with s_ojeon s) eqn:E1.
  - apply starts_with_split in E1.
    remember (skipn (List.length s_ojeon) s) as t eqn:Ht. clear Ht. subst s.
    rewrite firstn_app_len in H.
    destruct (k t _) eqn:Hk.
    + inversion H; subst a. exists s_ojeon, t. auto.
    + replace (starts_with s_ohu (s_ojeon ++ t)) with false in H by reflexivity.
      discriminate.
  - destruct (starts_with s_ohu s) eqn:E2; [|discriminate].
    apply starts_with_split in E2.
    remember (skipn (List.length s_ohu) s) as t eqn:Ht. clear Ht. subst s.
    rewrite firstn_app_len in H.
    exists s_ohu, t. auto.
Qed.

Lemma hour_tail_here h rest c :
  all is_digit h -> (1 <= List.length h <= 2)%nat ->
  rmatch re_hour_tail (h ++ [ch_si] ++ rest) c top =
  match rmatch re_minutes rest ((2%nat, h) :: c) top with
  | Some x => Some x
  | None => Some (rest, (2%nat, h) :: c)
  end.
Proof.
  intros Hh Hl. unfold re_hour_tail, digits.
  cbn [rmatch].
  set (r := rmatch re_minutes rest ((2%nat, h) :: c) top).
  assert (Hr : exists x, match r with Some x => Some x
                         | None => Some (rest, (2%nat, h) :: c) end = Some x).
  { destruct r; eauto. }
  destruct Hr as [x Hr]. rewrite Hr.
  span_digits. eat_char. exact Hr.
Qed.

Lemma ampm_here_complete ampm h rest t :
  AmPmAt ampm h rest t ->
  match_here re_ampm t =
  match rmatch re_minutes rest [(2%nat, h); (1%nat, ampm)] top with
  | Some x => Some x
  | None => Some (rest, [(2%nat, h); (1%nat, ampm)])
  end.
Proof.
  intros (-> & Hap & Hh & Hl).
  unfold match_here. rewrite re_ampm_split.
  change (rmatch (Seq re_marker re_hour_tail) ?s ?c ?k)
    with (rmatch re_marker s c (fun s1 c1 => rmatch re_hour_tail s1 c1 k)).
  rewrite marker_here by assumption.
  apply hour_tail_here; assumption.
Qed.

Lemma ampm_here_sound t s' c :
  match_here re_ampm t = Some (s', c) ->
  exists ampm h rest,
    AmPmAt ampm h rest t
    /\ ((exists mi, MinutesAt mi s' rest
                    /\ c = [(3%nat, mi); (2%nat, h); (1%nat, ampm)])
        \/ (s' = rest /\ c = [(2%nat, h); (1%nat, ampm)])).
Proof.
  unfold match_here. rewrite re_ampm_split.
  change (rmatch (Seq re_marker re_hour_tail) ?s ?c ?k)
    with (rmatch re_marker s c (fun s1 c1 => rmatch re_hour_tail s1 c1 k)).
  intros H. apply marker_sound in H.
  destruct H as (ampm & t2 & -> & Hap & H).
  apply rmatch_sound in H. destruct H as (s2 & c2 & HM & Heq).
  inversion Heq; subst s2 c2; clear Heq.
  unfold re_hour_tail, re_minutes, digits in HM. cbn [Matches] in HM.
  destruct HM as (s1 & c1 & (c2 & (h & -> & Hh & Hl1 & Hl2 & ->) & ->) & HM).
  rewrite firstn_app_len in HM.
  destruct HM as (s2 & c2 & (ch & -> & Hch & ->) & HM).
  apply is_char_eq in Hch. subst ch.
  exists ampm, h, s2. split.
  { unfold AmPmAt. simpl in *. repeat split; auto; lia. }
  destruct HM as [HM | [-> ->]]; [left | right; auto].
  break_matches; (eexists; split; [|reflexivity]);
    unfold MinutesAt; simpl in *; repeat split; auto; lia.
Qed.

Lemma re_clock_recognizes : Recognizes re_clock IsClock.
Proof.
  intros t. split.
  - intros (h & mi & rest & H). rewrite (clock_here_complete _ _ _ _ H).
    discriminate.
  - destruct (match_here re_clock t) as [[rest c]|] eqn:E; [|congruence].
    intros _. apply clock_here_sound in E. destruct E as (h & mi & H & _).
    exists h, mi, rest. exact H.
Qed.

Lemma re_ampm_recognizes : Recognizes re_ampm IsAmPm.
Proof.
  intros t. split.
  - intros (ap & h & rest & H). rewrite (ampm_here_complete _ _ _ _ H).
    destruct (rmatch re_minutes rest _ top); discriminate.
  - destruct (match_here re_ampm t) as [[rest c]|] eqn:E; [|congruence].
    intros _. apply ampm_here_sound in E.
    destruct E as (ap & h & rest' & H & _).
    exists ap, h, rest'. exact H.
Qed.

Lemma re_hour_recognizes : Recognizes re_hour IsHour.
Proof.
  intros t. split.
  - intros (h & rest & H). rewrite (hour_here_complete _ _ _ H).
    discriminate.
  - destruct (match_here re_hour t) as [[rest c]|] eqn:E; [|congruence].
    intros _. apply hour_here_sound in E. destruct E as (h & H & _).
    exists h, rest. exact H.
Qed.

(** Stripping white space, [str.replace(/\s+/g, '')], keeps exactly the
    characters outside [\s]. *)
Lemma strip_filter str :
  replace_ws_runs [] str = filter is_nonspace str.
Proof.
  induction str as [|c s IH]; [reflexivity|].
  cbn [replace_ws_runs filter]. unfold is_nonspace at 1.
  destruct (is_space c) eqn:Hc; simpl.
  - destruct s as [|c' s]; [reflexivity|].
    destruct (is_space c'); exact IH.
  - now rewrite IH.
Qed.

Lemma parseTime_clock str pre t h mi rest :
  strip str = pre ++ t -> ClockAt h mi rest t -> Leftmost IsClock pre t ->
  parseTime str = Some (hhmm (padStart2 h) mi).
Proof.
  intros Hs HC HL. unfold parseTime. rewrite strip_filter.
  fold (strip str). rewrite Hs.
  rewrite (rexec_leftmost _ _ _ _ _ _ re_clock_recognizes
                          (clock_here_complete _ _ _ _ HC) HL).
  reflexivity.
Qed.

Lemma parseTime_ampm_minutes str pre t ampm h rest mi rest' :
  ~ Occurs IsClock (strip str) ->
  strip str = pre ++ t -> AmPmAt ampm h rest t -> Leftmost IsAmPm pre t ->
  MinutesAt mi rest' rest ->
  parseTime str
  = Some (hhmm (padStart2 (String_of (adjust_hour ampm (parseInt h))))
               (padStart2 (String_of (parseInt mi)))).
Proof.
  intros HN Hs HA HL HMi. unfold parseTime. rewrite strip_filter.
  fold (strip str).
  rewrite (rexec_absent _ _ _ re_clock_recognizes HN). rewrite Hs.
  pose proof (ampm_here_complete _ _ _ _ HA) as Hc.
  rewrite (minutes_complete _ _ _ _ top _ HMi eq_refl) in Hc.
  rewrite (rexec_leftmost _ _ _ _ _ _ re_ampm_recognizes Hc HL).
  cbn. destruct HMi as (_ & _ & Hl). destruct mi; [simpl in Hl; lia|].
  reflexivity.
Qed.

Lemma parseTime_ampm_bare str pre t ampm h rest :
  ~ Occurs IsClock (strip str) ->
  strip str = pre ++ t -> AmPmAt ampm h rest t -> Leftmost IsAmPm pre t ->
  (forall mi rest', ~ MinutesAt mi rest' rest) ->
  parseTime str
  = Some (hhmm (padStart2 (String_of (adjust_hour ampm (parseInt h))))
               (js "00")).
Proof.
  intros HN Hs HA HL HMi. unfold parseTime. rewrite strip_filter.
  fold (strip str).
  rewrite (rexec_absent _ _ _ re_clock_recognizes HN). rewrite Hs.
  pose proof (ampm_here_complete _ _ _ _ HA) as Hc.
  destruct (rmatch re_minutes rest [(2%nat, h); (1%nat, ampm)] top) eqn:E.
  { apply minutes_sound in E. destruct E as (mi & rest' & H & _).
    exfalso. eapply HMi; eauto. }
  rewrite (rexec_leftmost _ _ _ _ _ _ re_ampm_recognizes Hc HL).
  reflexivity.
Qed.

Lemma parseTime_hour str pre t h rest :
  ~ Occurs IsClock (strip str) -> ~ Occurs IsAmPm (strip str) ->
  strip str = pre ++ t -> HourAt h rest t -> Leftmost IsHour pre t ->
  parseTime str = Some (hhmm (padStart2 (String_of (parseInt h))) (js "00")).
Proof.
  intros HN1 HN2 Hs HH HL. unfold parseTime. rewrite strip_filter.
  fold (strip str).
  rewrite (rexec_absent _ _ _ re_clock_recognizes HN1).
  rewrite (rexec_absent _ _ _ re_ampm_recognizes HN2). rewrite Hs.
  rewrite (rexec_leftmost _ _ _ _ _ _ re_hour_recognizes
                          (hour_here_complete _ _ _ HH) HL).
  reflexivity.
Qed.

Lemma parseTime_none str :
  ~ Occurs IsClock (strip str) -> ~ Occurs IsAmPm (strip str) ->
  ~ Occurs IsHour (strip str) ->
  parseTime str = None.
Proof.
  intros HN1 HN2 HN3. unfold parseTime. rewrite strip_filter.
  fold (strip str).
  rewrite (rexec_absent _ _ _ re_clock_recognizes HN1).
  rewrite (rexec_absent _ _ _ re_ampm_recognizes HN2).
  rewrite (rexec_absent _ _ _ re_hour_recognizes HN3).
  reflexivity.
Qed.

Lemma not_occurs_by_exec r P s :
  Recognizes r P -> rexec r s = None -> ~ Occurs P s.
Proof.
  intros HR HE (p & t & Hs & HP). apply HR in HP. apply HP.
  unfold rexec in HE. eapply rexec_from_none; eauto.
Qed.

Lemma leftmost_by_exec r P pre t m :
  Recognizes r P -> rexec r (pre ++ t) = Some m -> m_before m = pre ->
  Leftmost P pre t.
Proof.
  intros HR HE Hb. unfold rexec in HE.
  apply rexec_from_some in HE.
  destruct HE as (p & t' & Hs & _ & Hb' & _ & Hno).
  simpl in Hb'. rewrite Hb in Hb'. subst p.
  apply app_inv_head in Hs. subst t'.
  intros p1 p2 Hp Hne HP. apply HR in HP. apply HP. eapply Hno; eauto.
Qed.

Lemma adjust_hour_afternoon h :
  1 <= h <= 11 -> adjust_hour s_ohu h = h + 12.
Proof.
  intros Hh. unfold adjust_hour.
  replace (jsstr_eqb s_ohu s_ohu) with true by reflexivity.
  replace (jsstr_eqb s_ohu s_ojeon) with false by reflexivity.
  assert (E : (h <? 12) = true) by (apply N.ltb_lt; lia).
  rewrite E. reflexivity.
Qed.

Lemma adjust_hour_morning h :
  adjust_hour s_ojeon h = if h =? 12 then 0 else h.
Proof. reflexivity. Qed.

(** C4. [parseTime] strips white space and then tries three patterns in
    order, the first that occurs winning: an explicit [H:MM] or [HH:MM],
    whose hour is zero-padded; an AM/PM marker with an hour and optional
    minutes, where afternoon hours 1 to 11 get 12 added, morning 12 becomes
    0 and morning 1 to 11 and afternoon 12 are unchanged; a bare hour, with
    minutes 00. It returns null when none occurs. The four examples of the
    specification evaluate as stated. *)
Theorem parseTime_spec (str : jsstr) :
  (forall pre t h mi rest,
      strip str = pre ++ t -> ClockAt h mi rest t -> Leftmost IsClock pre t ->
      parseTime str = Some (hhmm (padStart2 h) mi))
  /\ (~ Occurs IsClock (strip str) ->
      forall pre t ampm h rest,
        strip str = pre ++ t -> AmPmAt ampm h rest t ->
        Leftmost IsAmPm pre t ->
        (forall mi rest',
            MinutesAt mi rest' rest ->
            parseTime str
            = Some (hhmm (padStart2 (String_of (adjust_hour ampm (parseInt h))))
                         (padStart2 (String_of (parseInt mi)))))
        /\ ((forall mi rest', ~ MinutesAt mi rest' rest) ->
            parseTime str
            = Some (hhmm (padStart2 (String_of (adjust_hour ampm (parseInt h))))
                         (js "00"))))
  /\ (~ Occurs IsClock (strip str) -> ~ Occurs IsAmPm (strip str) ->
      forall pre t h rest,
        strip str = pre ++ t -> HourAt h rest t -> Leftmost IsHour pre t ->
        parseTime str
        = Some (hhmm (padStart2 (String_of (parseInt h))) (js "00")))
  /\ (~ Occurs IsClock (strip str) -> ~ Occurs IsAmPm (strip str) ->
      ~ Occurs IsHour (strip str) -> parseTime str = None)
  /\ (forall c, padStart2 [c] = [ch_zero; c])
  /\ (forall c1 c2, padStart2 [c1; c2] = [c1; c2])
  /\ (forall h, 1 <= h <= 11 -> adjust_hour s_ohu h = h + 12)
  /\ adjust_hour s_ojeon 12 = 0
  /\ (forall h, 1 <= h <= 11 -> adjust_hour s_ojeon h = h)
  /\ adjust_hour s_ohu 12 = 12
  /\ parseTime (js "오후3시30분") = Some (js "15:30")
  /\ parseTime (js "오전12시") = Some (js "00:00")
  /\ parseTime (js "9시") = Some (js "09:00")
  /\ parseTime (js "09:05 출발") = Some (js "09:05").
Proof.
  split; [|split; [|split; [|split]]].
  - intros. eapply parseTime_clock; eauto.
  - intros HN pre t ampm h rest Hs HA HL. split.
    + intros. eapply parseTime_ampm_minutes; eauto.
    + intros. eapply parseTime_ampm_bare; eauto.
  - intros. eapply parseTime_hour; eauto.
  - apply parseTime_none.
  - repeat split; try reflexivity.
    + apply adjust_hour_afternoon.
    + intros h Hh. rewrite adjust_hour_morning.
      assert (E : (h =? 12) = false) by (apply N.eqb_neq; lia).
      now rewrite E.
Qed.

(** An afternoon time with minutes after a label that ends in a colon. *)
Lemma parseTime_spec_witness :
  ~ Occurs IsClock (strip (js "출발: 오후 3시 5분 예정"))
  /\ AmPmAt s_ohu (js "3") (js "5분예정") (js "오후3시5분예정")
  /\ Leftmost IsAmPm (js "출발:") (js "오후3시5분예정")
  /\ MinutesAt (js "5") (js "예정") (js "5분예정")
  /\ parseTime (js "출발: 오후 3시 5분 예정") = Some (js "15:05").
Proof.
  assert (H1 : ~ Occurs IsClock (strip (js "출발: 오후 3시 5분 예정"))).
  { apply (not_occurs_by_exec _ _ _ re_clock_recognizes). reflexivity. }
  assert (H2 : AmPmAt s_ohu (js "3") (js "5분예정") (js "오후3시5분예정")).
  { repeat split; auto; simpl; lia. }
  assert (H3 : Leftmost IsAmPm (js "출발:") (js "오후3시5분예정")).
  { eapply (leftmost_by_exec _ _ _ _ _ re_ampm_recognizes); reflexivity. }
  assert (H4 : MinutesAt (js "5") (js "예정") (js "5분예정")).
  { repeat split; simpl; lia. }
  split; [exact H1|]. split; [exact H2|]. split; [exact H3|].
  split; [exact H4|].
  exact (proj1 (proj1 (proj2 (parseTime_spec (js "출발: 오후 3시 5분 예정")))
                      H1 (js "출발:") (js "오후3시5분예정") s_ohu (js "3")
                      (js "5분예정") eq_refl H2 H3)
               (js "5") (js "예정") H4).
Defined.

(** ** normalizeCourse *)

Lemma is_k_cases c : is_k c = true -> c = 107 \/ c = 75.
Proof.
  unfold is_k, is_char_ci. intros H. apply orb_true_iff in H.
  destruct H as [H | H]; apply N.eqb_eq in H; auto.
Qed.

Lemma km_here_complete d rest t :
  KmAt d rest t -> match_here re_km t = Some (rest, [(1%nat, d)]).
Proof.
  intros (w & c & -> & Hd & Hl & Hw & Hc).
  unfold match_here, re_km, digits, spaces. cbn [rmatch].
  apply is_k_cases in Hc.
  destruct Hc as [-> | ->]; span_digits; span_spaces; cbn [app]; reflexivity.
Qed.

Lemma km_here_sound t rest c :
  match_here re_km t = Some (rest, c) ->
  exists d, KmAt d rest t /\ c = [(1%nat, d)].
Proof.
  intros H. open_match H.
  unfold re_km, digits, spaces in HM. cbn [Matches] in HM.
  break_matches.
  eexists. split; [|reflexivity].
  unfold KmAt. do 2 eexists. split; [reflexivity|]. repeat split; auto.
Qed.

Lemma re_km_recognizes : Recognizes re_km IsKm.
Proof.
  intros t. split.
  - intros (d & rest & H). rewrite (km_here_complete _ _ _ H). discriminate.
  - destruct (match_here re_km t) as [[rest c]|] eqn:E; [|congruence].
    intros _. apply km_here_sound in E. destruct E as (d & H & _).
    exists d, rest. exact H.
Qed.

Lemma starts_with_iff p : forall s,
  starts_with p s = true <-> exists suf, s = p ++ suf.
Proof.
  intros s. split.
  - intros H. eexists. apply starts_with_split. exact H.
  - intros [suf ->]. apply starts_with_app.
Qed.

Lemma includes_spec p : forall s, includes s p = true <-> Contains p s.
Proof.
  induction s as [|c s IH].
  - simpl. rewrite orb_false_r. rewrite starts_with_iff. split.
    + intros [suf H]. exists [], suf. exact H.
    + intros (pre & suf & H). symmetry in H. apply app_eq_nil in H.
      destruct H as [-> H]. exists suf. now rewrite H.
  - cbn [includes]. rewrite orb_true_iff, starts_with_iff, IH. split.
    + intros [[suf H] | (pre & suf & H)].
      * exists [], suf. exact H.
      * exists (c :: pre), suf. simpl. now rewrite H.
    + intros (pre & suf & H). destruct pre as [|a pre].
      * left. exists suf. exact H.
      * right. simpl in H. inversion H. exists pre, suf. reflexivity.
Qed.

Lemma includes_false p s : includes s p = false <-> ~ Contains p s.
Proof.
  rewrite <- includes_spec. destruct (includes s p); split; congruence.
Qed.

Lemma split_on_nonempty sep s : split_on sep s <> [].
Proof.
  destruct s as [|c s]; simpl; [discriminate|].
  destruct (c =? sep); [discriminate|].
  destruct (split_on sep s); discriminate.
Qed.

Lemma split_join sep : forall s, join [sep] (split_on sep s) = s.
Proof.
  induction s as [|c s IH]; [reflexivity|].
  cbn [split_on]. destruct (c =? sep) eqn:E.
  - apply N.eqb_eq in E. subst c.
    pose proof (split_on_nonempty sep s) as Hne.
    destruct (split_on sep s) as [|seg rest]; [congruence|].
    change (join [sep] ([] :: seg :: rest))
      with (sep :: join [sep] (seg :: rest)).
    now rewrite IH.
  - pose proof (split_on_nonempty sep s) as Hne.
    destruct (split_on sep s) as [|seg rest]; [congruence|].
    destruct rest as [|seg2 rest].
    + simpl in *. now rewrite IH.
    + change (join [sep] ((c :: seg) :: seg2 :: rest))
        with (c :: join [sep] (seg :: seg2 :: rest)).
      now rewrite IH.
Qed.

Lemma split_no_sep sep : forall s,
  Forall (fun seg => ~ In sep seg) (split_on sep s).
Proof.
  induction s as [|c s IH]; simpl.
  - constructor; auto.
  - destruct (c =? sep) eqn:E.
    + constructor; auto.
    + destruct (split_on sep s) as [|seg rest].
      * constructor; auto. intros [H | []]. subst. rewrite N.eqb_refl in E.
        discriminate.
      * inversion IH; subst. constructor; auto.
        intros [H | H]; auto. subst. rewrite N.eqb_refl in E. discriminate.
Qed.

Lemma drop_while_spec p : forall s,
  exists l, s = l ++ drop_while p s /\ all p l
            /\ not_headed_by p (drop_while p s).
Proof.
  induction s as [|c s IH]; simpl.
  - exists []. repeat split.
  - destruct (p c) eqn:E.
    + destruct IH as (l & H1 & H2 & H3). exists (c :: l). repeat split; auto.
      * simpl. now rewrite <- H1.
      * unfold all. simpl. now rewrite E.
    + exists []. repeat split. exact E.
Qed.

(** [trim] removes a run of white space at each end and leaves a string
    that neither starts nor ends with white space. *)
Lemma trim_spec s :
  exists l r, s = l ++ trim s ++ r /\ all is_space l /\ all is_space r
              /\ not_headed_by is_space (trim s)
              /\ not_headed_by is_space (rev (trim s)).
Proof.
  unfold trim.
  destruct (drop_while_spec is_space s) as (l & H1 & H2 & H3).
  set (m := drop_while is_space s) in *.
  destruct (drop_while_spec is_space (rev m)) as (r & H4 & H5 & H6).
  set (n := drop_while is_space (rev m)) in *.
  exists l, (rev r). rewrite rev_involutive.
  assert (Hm : m = rev n ++ rev r).
  { rewrite <- rev_app_distr, <- H4, rev_involutive. reflexivity. }
  repeat split; auto.
  - rewrite H1 at 1. now rewrite Hm.
  - unfold all in *. rewrite forallb_forall in *. intros x Hx.
    apply H5. now apply in_rev.
  - destruct (rev n) as [|a q] eqn:Eq; simpl; auto.
    rewrite Hm in H3. simpl in H3. exact H3.
Qed.

(** C6, as stated, fails: the source pattern allows white space between the
    digits and [k], so ["10 k"] becomes ["10k"] although no digit in it is
    followed by [k]; under the stated rule it would pass through unchanged. *)
Lemma normalizeCourse_counterexample :
  normalizeCourse (js "10 k") = [js "10k"]
  /\ normalizeCategories_as_stated (js "10 k") = [js "10 k"]
  /\ normalizeCourse (js "10 k") <> normalizeCategories_as_stated (js "10 k").
Proof.
  assert (H1 : normalizeCourse (js "10 k") = [js "10k"]) by reflexivity.
  assert (H2 : normalizeCategories_as_stated (js "10 k") = [js "10 k"])
    by reflexivity.
  repeat split; auto. rewrite H1, H2. discriminate.
Qed.

Lemma normalize_segment_km seg pre t d rest :
  ~ Contains s_pul seg -> ~ Contains s_hapeu seg ->
  seg = pre ++ t -> KmAt d rest t -> Leftmost IsKm pre t ->
  normalize_segment seg = d ++ js "k".
Proof.
  intros H1 H2 -> HK HL. unfold normalize_segment.
  apply includes_false in H1. apply includes_false in H2. rewrite H1, H2.
  rewrite (rexec_leftmost _ _ _ _ _ _ re_km_recognizes
                          (km_here_complete _ _ _ HK) HL).
  reflexivity.
Qed.

Lemma normalize_segment_other seg :
  ~ Contains s_pul seg -> ~ Contains s_hapeu seg -> ~ Occurs IsKm seg ->
  normalize_segment seg = seg.
Proof.
  intros H1 H2 H3. unfold normalize_segment.
  apply includes_false in H1. apply includes_false in H2. rewrite H1, H2.
  now rewrite (rexec_absent _ _ _ re_km_recognizes H3).
Qed.

(** C6 (amended). [normalizeCourse] splits on commas, trims every segment,
    drops the empty ones and maps the others in order, duplicates kept, by
    the first rule that applies: a segment containing 풀 becomes "full"; one
    containing 하프 becomes "half"; one in which digits are followed by
    optional white space and then k or K becomes those digits (of the
    leftmost such place) followed by "k"; any other segment is unchanged. *)
Theorem normalizeCourse_spec (text : jsstr) :
  normalizeCourse text
  = map normalize_segment (filter truthy (map trim (split_on ch_comma text)))
  /\ join [ch_comma] (split_on ch_comma text) = text
  /\ Forall (fun seg => ~ In ch_comma seg) (split_on ch_comma text)
  /\ (forall s, exists l r,
         s = l ++ trim s ++ r /\ all is_space l /\ all is_space r
         /\ not_headed_by is_space (trim s)
         /\ not_headed_by is_space (rev (trim s)))
  /\ (forall l x, In x (filter truthy l) <-> In x l /\ x <> [])
  /\ (forall seg,
         (Contains s_pul seg -> normalize_segment seg = js "full")
         /\ (~ Contains s_pul seg -> Contains s_hapeu seg ->
             normalize_segment seg = js "half")
         /\ (~ Contains s_pul seg -> ~ Contains s_hapeu seg ->
             forall pre t d rest,
               seg = pre ++ t -> KmAt d rest t -> Leftmost IsKm pre t ->
               normalize_segment seg = d ++ js "k")
         /\ (~ Contains s_pul seg -> ~ Contains s_hapeu seg ->
             ~ Occurs IsKm seg -> normalize_segment seg = seg))
  /\ normalizeCourse (js "풀코스, 하프, 10k, 5K")
     = [js "full"; js "half"; js "10k"; js "5k"].
Proof.
  split; [reflexivity|]. split; [apply split_join|].
  split; [apply split_no_sep|]. split; [apply trim_spec|].
  split.
  { intros l x. rewrite filter_In. split; intros [H1 H2]; split; auto.
    - destruct x; [discriminate|discriminate].
    - destruct x; [congruence|reflexivity]. }
  split; [|reflexivity].
  intros seg. repeat split.
  - intros H. apply includes_spec in H. unfold normalize_segment.
    now rewrite H.
  - intros H1 H2. apply includes_false in H1. apply includes_spec in H2.
    unfold normalize_segment. now rewrite H1, H2.
  - intros. eapply normalize_segment_km; eauto.
  - apply normalize_segment_other.
Qed.

(** A distance written with a space and a capital K inside other text. *)
Lemma normalizeCourse_spec_witness :
  ~ Contains s_pul (js "약 10 Km 코스")
  /\ ~ Contains s_hapeu (js "약 10 Km 코스")
  /\ KmAt (js "10") (js "m 코스") (js "10 Km 코스")
  /\ Leftmost IsKm (js "약 ") (js "10 Km 코스")
  /\ normalize_segment (js "약 10 Km 코스") = js "10k".
Proof.
  assert (H1 : ~ Contains s_pul (js "약 10 Km 코스")).
  { apply includes_false. reflexivity. }
  assert (H2 : ~ Contains s_hapeu (js "약 10 Km 코스")).
  { apply includes_false. reflexivity. }
  assert (H3 : KmAt (js "10") (js "m 코스") (js "10 Km 코스")).
  { exists [ch_space], 75. repeat split; simpl; lia. }
  assert (H4 : Leftmost IsKm (js "약 ") (js "10 Km 코스")).
  { eapply (leftmost_by_exec _ _ _ _ _ re_km_recognizes); reflexivity. }
  split; [exact H1|]. split; [exact H2|]. split; [exact H3|].
  split; [exact H4|].
  exact (proj1 (proj2 (proj2
           (proj1 (proj2 (proj2 (proj2 (proj2 (proj2
              (normalizeCourse_spec (js "약 10 Km 코스")))))))
                  (js "약 10 Km 코스"))))
           H1 H2 (js "약 ") (js "10 Km 코스") (js "10") (js "m 코스")
           eq_refl H3 H4).
Defined.

(** ** fetchRaceDetail: the row loop *)

Lemma classify_nil : classify [] = None.
Proof. reflexivity. Qed.

Lemma scan_row_short st tds : (List.length tds < 2)%nat -> scan_row st tds = st.
Proof.
  intros H. unfold scan_row.
  apply Nat.ltb_lt in H. now rewrite H.
Qed.

Lemma scan_row_unrecognized st tds : row_field tds = None -> scan_row st tds = st.
Proof.
  unfold row_field, scan_row.
  destruct (List.length tds <? 2)%nat eqn:E; [reflexivity|].
  destruct tds as [|td0 tds]; [reflexivity|]. cbn [row_label].
  destruct (clean (cell_text td0)) as [|a l] eqn:El; [reflexivity|].
  cbn [truthy negb]. unfold classify.
  repeat match goal with
         | |- context [includes ?a ?b] => destruct (includes a b)
         end; try discriminate; reflexivity.
Qed.

Lemma homepage_of_old td v old :
  homepage_of td v old
  = match homepage_of td v None with Some x => Some x | None => old end.
Proof.
  unfold homepage_of.
  destruct (cell_first_anchor td) as [[href|]|];
    try destruct (truthy href); destruct (rexec re_url v); reflexivity.
Qed.

Lemma text_var_scan_row f st tds :
  f <> FHomepage ->
  text_var f (scan_row st tds)
  = if assigns f tds then row_value tds else text_var f st.
Proof.
  intros Hf. unfold assigns, row_field, scan_row, row_value.
  destruct (List.length tds <? 2)%nat eqn:E; [reflexivity|].
  destruct tds as [|td0 tds]; [discriminate|]. cbn [row_label].
  destruct (clean (cell_text td0)) as [|a l] eqn:El; [reflexivity|].
  cbn [truthy negb]. unfold classify.
  repeat match goal with
         | |- context [includes ?a ?b] => destruct (includes a b)
         end; destruct f; try congruence; reflexivity.
Qed.

Lemma homepage_scan_row st tds :
  homepage_var (scan_row st tds)
  = if assigns_link tds then row_link tds else homepage_var st.
Proof.
  unfold assigns_link, assigns, row_field, scan_row, row_link, row_value.
  destruct (List.length tds <? 2)%nat eqn:E; [reflexivity|].
  destruct tds as [|td0 tds]; [discriminate|]. cbn [row_label].
  destruct (clean (cell_text td0)) as [|a l] eqn:El; [reflexivity|].
  cbn [truthy negb]. unfold classify.
  repeat match goal with
         | |- context [includes ?a ?b] => destruct (includes a b)
         end; cbn [field_eqb andb homepage_var]; try reflexivity.
  rewrite homepage_of_old.
  destruct (homepage_of _ _ None); reflexivity.
Qed.

Lemma scan_rows_snoc doc tds :
  scan_rows (doc ++ [tds]) = scan_row (scan_rows doc) tds.
Proof. unfold scan_rows. now rewrite fold_left_app. Qed.

(** Last assignment wins, for each text field. *)
Lemma text_var_last f : f <> FHomepage -> forall doc,
  text_var f (scan_rows doc)
  = match find (assigns f) (rev doc) with
    | Some tds => row_value tds
    | None => []
    end.
Proof.
  intros Hf doc. induction doc as [|tds doc IH] using rev_ind.
  - destruct f; reflexivity.
  - rewrite scan_rows_snoc, rev_app_distr. cbn [rev app find].
    rewrite text_var_scan_row by assumption.
    destruct (assigns f tds); [reflexivity | exact IH].
Qed.

Lemma homepage_last doc :
  homepage_var (scan_rows doc)
  = match find assigns_link (rev doc) with
    | Some tds => row_link tds
    | None => None
    end.
Proof.
  induction doc as [|tds doc IH] using rev_ind; [reflexivity|].
  rewrite scan_rows_snoc, rev_app_distr. cbn [rev app find].
  rewrite homepage_scan_row.
  destruct (assigns_link tds); [reflexivity | exact IH].
Qed.

Lemma scan_rows_skip d1 tds d2 :
  row_field tds = None -> scan_rows (d1 ++ tds :: d2) = scan_rows (d1 ++ d2).
Proof.
  intros H. unfold scan_rows. rewrite !fold_left_app. cbn [fold_left].
  now rewrite scan_row_unrecognized.
Qed.

Lemma row_field_short tds : (List.length tds < 2)%nat -> row_field tds = None.
Proof.
  intros H. unfold row_field. apply Nat.ltb_lt in H. now rewrite H.
Qed.

Lemma classify_contains label f :
  classify label = Some f -> Contains (label_text f) label.
Proof.
  unfold classify.
  repeat match goal with
         | |- context [includes ?a ?b] =>
           let E := fresh "E" in destruct (includes a b) eqn:E
         end; intros H; inversion H; subst; apply includes_spec; assumption.
Qed.

Lemma classify_none label :
  classify label = None <-> forall f, ~ Contains (label_text f) label.
Proof.
  unfold classify. split.
  - repeat match goal with
           | |- context [includes ?a ?b] =>
             let E := fresh "E" in destruct (includes a b) eqn:E
           end; intros H; try discriminate.
    intros f. apply includes_false. destruct f; assumption.
  - intros H.
    pose proof (proj2 (includes_false _ _) (H FName)) as H1.
    pose proof (proj2 (includes_false _ _) (H FDate)) as H2.
    pose proof (proj2 (includes_false _ _) (H FCourse)) as H3.
    pose proof (proj2 (includes_false _ _) (H FRegion)) as H4.
    pose proof (proj2 (includes_false _ _) (H FVenue)) as H5.
    pose proof (proj2 (includes_false _ _) (H FEntry)) as H6.
    pose proof (proj2 (includes_false _ _) (H FHomepage)) as H7.
    cbn [label_text] in *. rewrite H1, H2, H3, H4, H5, H6, H7.
    reflexivity.
Qed.

(** C9, as stated, fails: both rows contain the date label, the last one
    also contains the name label, which comes first in the chain, so the
    date keeps the value of the first row. *)
Lemma last_row_wins_counterexample :
  ~ last_row_wins_as_stated doc_overlap.
Proof.
  intros H. destruct (H FDate) as (tds & Hf & Hv).
  - discriminate.
  - vm_compute. lia.
  - vm_compute in Hf. inversion Hf; subst tds. vm_compute in Hv. discriminate.
Qed.

(** A later homepage row without a link leaves an earlier link in place. *)
Example homepage_keeps_link :
  homepage_var
    (scan_rows [ [td (js "홈페이지"); td_link (js "바로가기") (js "http://a.example")];
                 [td (js "홈페이지"); td (js "추후 공지")] ])
  = Some (js "http://a.example").
Proof. reflexivity. Qed.

(** C9 (amended). A row assigns a field when it has at least two cells and
    that field's label is the first, in the fixed order name, date/time,
    category, region, venue, entry period, homepage, that its collapsed
    first cell contains. Each of the six text values is the value of the last
    row assigning it (empty when there is none); the homepage is the link of
    the last homepage row that yields one; a row that assigns no field has
    no effect on the scan, and the record is built from the scan. *)
Theorem scan_rows_last_wins (doc : document) :
  (forall f, f <> FHomepage ->
     text_var f (scan_rows doc)
     = match find (assigns f) (rev doc) with
       | Some tds => row_value tds
       | None => []
       end)
  /\ homepage_var (scan_rows doc)
     = match find assigns_link (rev doc) with
       | Some tds => row_link tds
       | None => None
       end
  /\ (forall f tds,
        assigns f tds = true <->
        (2 <= List.length tds)%nat /\ classify (row_label tds) = Some f)
  /\ (forall label f,
        classify label = Some f -> Contains (label_text f) label)
  /\ (forall label,
        classify label = None <-> forall f, ~ Contains (label_text f) label)
  /\ (forall st tds, row_field tds = None -> scan_row st tds = st)
  /\ (forall d1 tds d2,
        doc = d1 ++ tds :: d2 -> row_field tds = None ->
        scan_rows doc = scan_rows (d1 ++ d2))
  /\ (forall fmt no rec,
        fetchRaceDetail fmt no doc = Ok rec ->
        race_name rec = text_var FName (scan_rows doc)
        /\ race_datetime rec = raceDatetime_of fmt (text_var FDate (scan_rows doc))
        /\ course rec = normalizeCourse (text_var FCourse (scan_rows doc))
        /\ location_full rec
           = join [ch_space]
                  (filter truthy [text_var FRegion (scan_rows doc);
                                  text_var FVenue (scan_rows doc)])
        /\ entry_period_raw rec = text_var FEntry (scan_rows doc)
        /\ homepage rec = homepage_var (scan_rows doc)).
Proof.
  split; [intros; now apply text_var_last|].
  split; [apply homepage_last|].
  split.
  { intros f tds. unfold assigns, row_field.
    destruct (List.length tds <? 2)%nat eqn:E.
    - apply Nat.ltb_lt in E. split; [discriminate | lia].
    - apply Nat.ltb_ge in E. destruct (classify (row_label tds)) as [g|].
      + split.
        * intros H. split; auto. destruct g, f; try discriminate; reflexivity.
        * intros [_ H]. inversion H; subst. destruct f; reflexivity.
      + split; [discriminate | intros [_ H]; discriminate]. }
  split; [apply classify_contains|].
  split; [apply classify_none|].
  split; [apply scan_row_unrecognized|].
  split; [intros d1 tds d2 -> H; now apply scan_rows_skip|].
  intros fmt no rec H. unfold fetchRaceDetail in H.
  destruct doc as [|r0 doc]; [discriminate|].
  inversion H; subst rec; clear H. cbn. repeat split.
Qed.

(** Two name rows with an unrecognized row between them: the last one wins. *)
Lemma scan_rows_last_wins_witness :
  FName <> FHomepage
  /\ text_var FName (scan_rows doc_two_names) = js "둘째 마라톤".
Proof.
  split; [discriminate|].
  exact (proj1 (scan_rows_last_wins doc_two_names) FName
               ltac:(discriminate)).
Defined.

(** ** fetchRaceDetail: errors *)

(** C8. The extractor fails exactly on a document without rows; a row with
    fewer than two cells is skipped: it leaves the scan unchanged and the
    record is the one of the document without that row. *)
Theorem fetchRaceDetail_rows fmt no (doc : document) :
  ((exists msg, fetchRaceDetail fmt no doc = Err msg) <-> doc = [])
  /\ (doc <> [] -> exists rec, fetchRaceDetail fmt no doc = Ok rec)
  /\ (forall st tds, (List.length tds < 2)%nat -> scan_row st tds = st)
  /\ (forall d1 tds d2,
        doc = d1 ++ tds :: d2 -> (List.length tds < 2)%nat ->
        d1 ++ d2 <> [] ->
        fetchRaceDetail fmt no doc = fetchRaceDetail fmt no (d1 ++ d2)).
Proof.
  split; [|split; [|split]].
  - split.
    + intros [msg H]. destruct doc; [reflexivity|discriminate].
    + intros ->. eexists. reflexivity.
  - intros H. destruct doc; [congruence|]. eexists. reflexivity.
  - apply scan_row_short.
  - intros d1 tds d2 -> Hl Hne.
    assert (Hs : scan_rows (d1 ++ tds :: d2) = scan_rows (d1 ++ d2)).
    { apply scan_rows_skip. now apply row_field_short. }
    unfold fetchRaceDetail. rewrite Hs.
    destruct (d1 ++ d2) eqn:E2; [congruence|].
    destruct (d1 ++ tds :: d2) eqn:E1; [|reflexivity].
    apply app_eq_nil in E1. destruct E1 as [_ E1]. discriminate.
Qed.

(** A one-cell row after a name row changes nothing. *)
Lemma fetchRaceDetail_rows_witness :
  (List.length [td (js "대회명")] < 2)%nat
  /\ [[td (js "대회명"); td (js "첫째")]] ++ [] <> []
  /\ fetchRaceDetail fmt_arg (js "7")
       ([[td (js "대회명"); td (js "첫째")]] ++ [td (js "대회명")] :: [])
     = fetchRaceDetail fmt_arg (js "7") ([[td (js "대회명"); td (js "첫째")]] ++ []).
Proof.
  assert (H1 : (List.length [td (js "대회명")] < 2)%nat) by (simpl; lia).
  assert (H2 : [[td (js "대회명"); td (js "첫째")]] ++ [] <> [])
    by discriminate.
  split; [exact H1|]. split; [exact H2|].
  exact (proj2 (proj2 (proj2 (fetchRaceDetail_rows fmt_arg (js "7") _)))
               [[td (js "대회명"); td (js "첫째")]] [td (js "대회명")] []
               eq_refl H1 H2).
Defined.

(** ** fetchRaceDetail: the combined date and time *)

Lemma padStart2_truthy x rest : truthy (padStart2 x ++ rest) = true.
Proof. destruct x as [|a [|b x]]; reflexivity. Qed.

Lemma parseTime_truthy str t : parseTime str = Some t -> truthy t = true.
Proof.
  unfold parseTime. intros H.
  repeat match type of H with
         | match ?x with _ => _ end = _ => destruct x; try discriminate
         end;
    inversion H; subst; apply padStart2_truthy.
Qed.

Lemma raceDatetime_of_eq fmt raw :
  raceDatetime_of fmt raw
  = match parseKoreanDate raw with
    | Some d =>
      Some (fmt d ++ [ch_space]
            ++ match parseTime raw with Some t => t | None => js "00:00" end)
    | None => None
    end.
Proof.
  unfold raceDatetime_of. destruct raw as [|c raw]; [reflexivity|].
  cbn [truthy]. destruct (parseKoreanDate (c :: raw)); [|reflexivity].
  destruct (parseTime (c :: raw)) as [t|] eqn:E; [|reflexivity].
  apply parseTime_truthy in E. unfold or_default. now rewrite E.
Qed.

(** C5. The combined date and time comes from the date parser and the time
    parser run on the same raw date/time text: with a date and a time it is
    the formatted date, a space and the time; with a date and no time the
    time part is "00:00"; without a date (in particular without a date/time
    row, when the raw text is empty) it is null, also when a time was
    parsed. *)
Theorem race_datetime_spec fmt no (doc : document) (rec : EventRecord) :
  fetchRaceDetail fmt no doc = Ok rec ->
  (forall d t,
      parseKoreanDate (dateRaw (scan_rows doc)) = Some d ->
      parseTime (dateRaw (scan_rows doc)) = Some t ->
      race_datetime rec = Some (fmt d ++ [ch_space] ++ t))
  /\ (forall d,
      parseKoreanDate (dateRaw (scan_rows doc)) = Some d ->
      parseTime (dateRaw (scan_rows doc)) = None ->
      race_datetime rec = Some (fmt d ++ [ch_space] ++ js "00:00"))
  /\ (parseKoreanDate (dateRaw (scan_rows doc)) = None ->
      race_datetime rec = None)
  /\ (dateRaw (scan_rows doc) = [] -> race_datetime rec = None)
  /\ (find (assigns FDate) (rev doc) = None -> race_datetime rec = None)
  /\ parseTime (dateRaw (scan_rows doc_time_only)) = Some (js "09:30")
  /\ (forall rec', fetchRaceDetail fmt no doc_time_only = Ok rec' ->
                   race_datetime rec' = None).
Proof.
  intros H.
  assert (Hdt : forall doc' rec', fetchRaceDetail fmt no doc' = Ok rec' ->
            race_datetime rec' = raceDatetime_of fmt (dateRaw (scan_rows doc'))).
  { intros doc' rec' H'. unfold fetchRaceDetail in H'.
    destruct doc'; [discriminate|]. inversion H'. reflexivity. }
  rewrite (Hdt _ _ H), raceDatetime_of_eq.
  repeat split.
  - intros d t Hd Ht. now rewrite Hd, Ht.
  - intros d Hd Ht. now rewrite Hd, Ht.
  - intros Hd. now rewrite Hd.
  - intros Hr. now rewrite Hr.
  - intros Hf.
    pose proof (text_var_last FDate ltac:(discriminate) doc) as Hv.
    rewrite Hf in Hv. cbn [text_var] in Hv. now rewrite Hv.
  - intros rec' H'. rewrite (Hdt _ _ H'). reflexivity.
Qed.

(** A date without a time gets the time 00:00. *)
Lemma race_datetime_spec_witness :
  parseKoreanDate (dateRaw (scan_rows doc_date_only))
  = Some (dayjs (js "2026-1-11"))
  /\ parseTime (dateRaw (scan_rows doc_date_only)) = None
  /\ match fetchRaceDetail fmt_arg (js "7") doc_date_only with
     | Ok rec => race_datetime rec = Some (js "2026-1-11 00:00")
     | Err _ => False
     end.
Proof.
  assert (H1 : parseKoreanDate (dateRaw (scan_rows doc_date_only))
               = Some (dayjs (js "2026-1-11"))) by reflexivity.
  assert (H2 : parseTime (dateRaw (scan_rows doc_date_only)) = None)
    by reflexivity.
  split; [exact H1|]. split; [exact H2|].
  destruct (fetchRaceDetail fmt_arg (js "7") doc_date_only) as [rec|msg] eqn:H.
  - exact (proj1 (proj2 (race_datetime_spec fmt_arg (js "7") doc_date_only
                                            rec H))
                 (dayjs (js "2026-1-11")) H1 H2).
  - discriminate H.
Defined.

(** ** notion.mjs *)

Section NotionFacts.
Context {W : Type}.
Variable api : StoreApi W.
Variable cfg : config.

Lemma query_db_absent name e :
  db_absent cfg ->
  fst (queryByRaceName api cfg name e) = Returned []
  /\ calls (snd (queryByRaceName api cfg name e)) = calls e
  /\ world (snd (queryByRaceName api cfg name e)) = world e.
Proof.
  unfold db_absent, queryByRaceName. intros H.
  destruct (DB_ID cfg) as [db|]; simpl in H; [rewrite H|]; repeat split.
Qed.

Lemma query_token_absent name e :
  token_absent cfg ->
  fst (queryByRaceName api cfg name e) = Returned []
  /\ calls (snd (queryByRaceName api cfg name e)) = calls e
  /\ world (snd (queryByRaceName api cfg name e)) = world e.
Proof.
  unfold token_absent, queryByRaceName. intros H.
  destruct (DB_ID cfg) as [db|]; [|repeat split].
  destruct (truthy db); [|repeat split].
  destruct (NOTION_TOKEN cfg) as [tk|]; simpl in H; [rewrite H|];
    repeat split.
Qed.

Lemma query_rejected db token name e reason w1 :
  configured cfg db token ->
  api_query api db token name (world e) = (FetchRejected reason, w1) ->
  queryByRaceName api cfg name e
  = (Thrown reason, after_query e db token name w1).
Proof.
  intros (H1 & H2 & H3 & H4) Hq. unfold queryByRaceName.
  rewrite H1, H2, H3, H4. unfold bind, fetch_query. rewrite Hq. reflexivity.
Qed.

Lemma query_not_ok db token name e res w1 :
  configured cfg db token ->
  api_query api db token name (world e) = (FetchResolved res, w1) ->
  res_ok res = false ->
  fst (queryByRaceName api cfg name e) = Returned []
  /\ calls (snd (queryByRaceName api cfg name e))
     = calls e ++ [ReqQuery db token name]
  /\ world (snd (queryByRaceName api cfg name e)) = w1.
Proof.
  intros (H1 & H2 & H3 & H4) Hq Hok. unfold queryByRaceName.
  rewrite H1, H2, H3, H4. unfold bind, fetch_query. rewrite Hq.
  rewrite Hok. repeat split.
Qed.

Lemma query_ok db token name e res w1 results :
  configured cfg db token ->
  api_query api db token name (world e) = (FetchResolved res, w1) ->
  res_ok res = true -> res_json res = Some results ->
  queryByRaceName api cfg name e
  = (Returned (match results with Some l => l | None => [] end),
     after_query e db token name w1).
Proof.
  intros (H1 & H2 & H3 & H4) Hq Hok Hj. unfold queryByRaceName.
  rewrite H1, H2, H3, H4. unfold bind, fetch_query. rewrite Hq.
  rewrite Hok. unfold res_json_call. rewrite Hj. reflexivity.
Qed.

Lemma query_bad_json db token name e res w1 :
  configured cfg db token ->
  api_query api db token name (world e) = (FetchResolved res, w1) ->
  res_ok res = true -> res_json res = None ->
  exists reason,
    queryByRaceName api cfg name e
    = (Thrown reason, after_query e db token name w1).
Proof.
  intros (H1 & H2 & H3 & H4) Hq Hok Hj. unfold queryByRaceName.
  rewrite H1, H2, H3, H4. unfold bind, fetch_query. rewrite Hq.
  rewrite Hok. unfold res_json_call. rewrite Hj. eexists. reflexivity.
Qed.

Lemma upsert_unfold db race e :
  DB_ID cfg = Some db -> truthy db = true ->
  upsertRaceToNotion api cfg race e
  = match queryByRaceName api cfg (race_name race) e with
    | (Returned existing, e') => write_back api db race existing e'
    | (Thrown r, e') => (Thrown r, e')
    end.
Proof.
  intros H1 H2. unfold upsertRaceToNotion. rewrite H1, H2.
  unfold bind at 1.
  destruct (queryByRaceName api cfg (race_name race) e) as [[ex|r] e'];
    [|reflexivity].
  unfold write_back. destruct ex; reflexivity.
Qed.

Lemma upsert_db_absent race e :
  db_absent cfg ->
  fst (upsertRaceToNotion api cfg race e) = Returned tt
  /\ calls (snd (upsertRaceToNotion api cfg race e)) = calls e
  /\ world (snd (upsertRaceToNotion api cfg race e)) = world e.
Proof.
  unfold db_absent, upsertRaceToNotion. intros H.
  destruct (DB_ID cfg) as [db|]; simpl in H; [rewrite H|]; repeat split.
Qed.

Lemma write_back_calls db race existing e :
  calls (snd (write_back api db race existing e))
  = calls e ++ [match existing with
                | p0 :: _ => ReqUpdate (page_id p0) (buildProperties race)
                | [] => ReqCreate db (buildProperties race)
                end].
Proof.
  unfold write_back, bind, pages_update, pages_create.
  destruct existing as [|p0 rest].
  - destruct (api_create api db (buildProperties race) (world e)) as [[r|] w1];
      reflexivity.
  - destruct (api_update api (page_id p0) (buildProperties race) (world e))
      as [[r|] w1]; reflexivity.
Qed.

Lemma write_back_outcome db race existing e :
  fst (write_back api db race existing e)
  = match existing with
    | p0 :: _ =>
      match fst (api_update api (page_id p0) (buildProperties race) (world e))
      with SdkRejected r => Thrown r | SdkResolved => Returned tt end
    | [] =>
      match fst (api_create api db (buildProperties race) (world e))
      with SdkRejected r => Thrown r | SdkResolved => Returned tt end
    end.
Proof.
  unfold write_back, bind, pages_update, pages_create.
  destruct existing as [|p0 rest].
  - destruct (api_create api db (buildProperties race) (world e)) as [[r|] w1];
      reflexivity.
  - destruct (api_update api (page_id p0) (buildProperties race) (world e))
      as [[r|] w1]; reflexivity.
Qed.

Lemma write_back_world db race existing e :
  world (snd (write_back api db race existing e))
  = match existing with
    | p0 :: _ =>
      snd (api_update api (page_id p0) (buildProperties race) (world e))
    | [] => snd (api_create api db (buildProperties race) (world e))
    end.
Proof.
  unfold write_back, bind, pages_update, pages_create.
  destruct existing as [|p0 rest].
  - destruct (api_create api db (buildProperties race) (world e)) as [[r|] w1];
      reflexivity.
  - destruct (api_update api (page_id p0) (buildProperties race) (world e))
      as [[r|] w1]; reflexivity.
Qed.

Lemma upsert_after_query db race e existing e1 :
  DB_ID cfg = Some db -> truthy db = true ->
  queryByRaceName api cfg (race_name race) e = (Returned existing, e1) ->
  fst (upsertRaceToNotion api cfg race e)
  = sdk_to_outcome (fst (write_result api db race existing (world e1)))
  /\ calls (snd (upsertRaceToNotion api cfg race e))
     = calls e1 ++ [write_request db race existing]
  /\ world (snd (upsertRaceToNotion api cfg race e))
     = snd (write_result api db race existing (world e1)).
Proof.
  intros H1 H2 Hq. rewrite (upsert_unfold db race e H1 H2), Hq.
  rewrite write_back_outcome, write_back_calls, write_back_world.
  destruct existing; repeat split.
Qed.

Lemma upsert_resolved_ok db token race e res w1 results :
  configured cfg db token ->
  api_query api db token (race_name race) (world e) = (FetchResolved res, w1) ->
  res_ok res = true -> res_json res = Some results ->
  let existing := match results with Some l => l | None => [] end in
  fst (upsertRaceToNotion api cfg race e)
  = sdk_to_outcome (fst (write_result api db race existing w1))
  /\ calls (snd (upsertRaceToNotion api cfg race e))
     = calls e ++ [ReqQuery db token (race_name race);
                   write_request db race existing]
  /\ world (snd (upsertRaceToNotion api cfg race e))
     = snd (write_result api db race existing w1).
Proof.
  intros Hc Hq Hok Hj existing.
  pose proof (query_ok _ _ _ _ _ _ _ Hc Hq Hok Hj) as HQ.
  destruct Hc as (H1 & H2 & _).
  destruct (upsert_after_query db race e _ _ H1 H2 HQ) as (Ho & Hcalls & Hw).
  rewrite Ho, Hcalls, Hw. cbn [after_query calls world].
  rewrite <- app_assoc. repeat split.
Qed.

Lemma upsert_resolved_not_ok db token race e res w1 :
  configured cfg db token ->
  api_query api db token (race_name race) (world e) = (FetchResolved res, w1) ->
  res_ok res = false ->
  fst (upsertRaceToNotion api cfg race e)
  = sdk_to_outcome (fst (write_result api db race [] w1))
  /\ calls (snd (upsertRaceToNotion api cfg race e))
     = calls e ++ [ReqQuery db token (race_name race);
                   ReqCreate db (buildProperties race)]
  /\ world (snd (upsertRaceToNotion api cfg race e))
     = snd (write_result api db race [] w1).
Proof.
  intros Hc Hq Hok.
  destruct (query_not_ok _ _ _ _ _ _ Hc Hq Hok) as (Q1 & Q2 & Q3).
  destruct Hc as (H1 & H2 & _).
  destruct (queryByRaceName api cfg (race_name race) e) as [o e1] eqn:HQ.
  simpl in Q1, Q2, Q3. subst o.
  destruct (upsert_after_query db race e _ _ H1 H2 HQ) as (Ho & Hcalls & Hw).
  rewrite Ho, Hcalls, Hw, Q2, Q3. rewrite <- app_assoc. repeat split.
Qed.

Lemma upsert_rejected db token race e reason w1 :
  configured cfg db token ->
  api_query api db token (race_name race) (world e) = (FetchRejected reason, w1) ->
  upsertRaceToNotion api cfg race e
  = (Thrown reason, after_query e db token (race_name race) w1).
Proof.
  intros Hc Hq. pose proof (query_rejected _ _ _ _ _ _ Hc Hq) as HQ.
  destruct Hc as (H1 & H2 & _).
  now rewrite (upsert_unfold db race e H1 H2), HQ.
Qed.

Lemma upsert_requests race e :
  exists l, calls (snd (upsertRaceToNotion api cfg race e)) = calls e ++ l
            /\ Forall (request_of race) l.
Proof.
  unfold upsertRaceToNotion, queryByRaceName, bind, fetch_query,
    res_json_call, pages_update, pages_create, console_out, ret, throw.
  repeat match goal with
         | |- context [match ?x with _ => _ end] =>
           match x with
           | context [match _ with _ => _ end] => fail 1
           | _ => destruct x eqn:?
           end
         | |- context [if ?x then _ else _] => destruct x eqn:?
         end;
    cbn [snd calls];
    try (exists []; rewrite app_nil_r; split; [reflexivity | constructor]);
    rewrite <- ?app_assoc; eexists; (split; [reflexivity|]);
    repeat constructor.
Qed.
End NotionFacts.

Lemma cfg_ok_configured : configured cfg_ok (js "db1") (js "secret_token").
Proof. repeat split. Qed.

(** C1, as stated for every record, fails when the collection identifier is
    not configured: the guard at the top of [upsertRaceToNotion] returns
    before anything is sent, so there is no query. *)
Lemma upsert_counterexample :
  calls (snd (upsertRaceToNotion store_api cfg_none (race_of (js "서울마라톤"))
                                 (env0 [])))
  = []
  /\ ~ (exists db token rest,
          calls (snd (upsertRaceToNotion store_api cfg_none
                                         (race_of (js "서울마라톤")) (env0 [])))
          = ReqQuery db token (js "서울마라톤") :: rest).
Proof.
  split; [reflexivity|]. intros (db & token & rest & H). discriminate H.
Qed.

(** C1 (amended). With the collection identifier and the token configured,
    an upsert first sends the query for the record's name; when the query
    answers with matches it then sends exactly one update, of the first
    match's identifier with the mapped properties, and no create; when it
    answers with no match it sends exactly one create, under the configured
    collection with the mapped properties, and no update. Without a
    collection identifier it sends nothing. *)
Theorem upsert_spec {W} (api : StoreApi W) (cfg : config)
        (race : EventRecord) (e : env W) :
  (forall db token res w1 results,
      configured cfg db token ->
      api_query api db token (race_name race) (world e)
      = (FetchResolved res, w1) ->
      res_ok res = true -> res_json res = Some results ->
      calls (snd (upsertRaceToNotion api cfg race e))
      = calls e ++ [ReqQuery db token (race_name race);
                    match results with
                    | Some (p0 :: _) =>
                      ReqUpdate (page_id p0) (buildProperties race)
                    | _ => ReqCreate db (buildProperties race)
                    end])
  /\ (db_absent cfg ->
      fst (upsertRaceToNotion api cfg race e) = Returned tt
      /\ calls (snd (upsertRaceToNotion api cfg race e)) = calls e).
Proof.
  split.
  - intros db token res w1 results Hc Hq Hok Hj.
    destruct (upsert_resolved_ok api cfg db token race e res w1 results
                                 Hc Hq Hok Hj) as (_ & H & _).
    rewrite H. destruct results as [[|p0 l]|]; reflexivity.
  - intros H. destruct (upsert_db_absent api cfg race e H) as (H1 & H2 & _).
    split; assumption.
Qed.

(** Against the store model with a page of that title: a query, then an
    update of that page. *)
Lemma upsert_spec_witness :
  configured cfg_ok (js "db1") (js "secret_token")
  /\ calls (snd (upsertRaceToNotion store_api cfg_ok (race_of (js "서울마라톤"))
                   (env0 [page_of (js "p1") (js "부산마라톤");
                          page_of (js "p2") (js "서울마라톤")])))
     = [ReqQuery (js "db1") (js "secret_token") (js "서울마라톤");
        ReqUpdate (js "p2") (buildProperties (race_of (js "서울마라톤")))].
Proof.
  split; [exact cfg_ok_configured|].
  exact (proj1 (upsert_spec store_api cfg_ok (race_of (js "서울마라톤"))
                 (env0 [page_of (js "p1") (js "부산마라톤");
                        page_of (js "p2") (js "서울마라톤")]))
               (js "db1") (js "secret_token") _ _ _
               cfg_ok_configured eq_refl eq_refl eq_refl).
Defined.

(** C3, as stated, fails for an unreachable store: [fetch] rejects and
    nothing in [queryByRaceName] catches it, so the call raises instead of
    returning the empty list. *)
Lemma query_unreachable_counterexample :
  fst (queryByRaceName unreachable_api cfg_ok (js "서울마라톤") (env0 tt))
  = Thrown (js "fetch failed")
  /\ fst (queryByRaceName unreachable_api cfg_ok (js "서울마라톤") (env0 tt))
     <> Returned [].
Proof. split; [reflexivity | discriminate]. Qed.

(** C3 (amended). [queryByRaceName] returns the empty list, sending
    nothing, when the token or the collection identifier is absent; a
    non-2xx answer to the query also gives the empty list, and the upsert
    then sends a create; a failure of the query request itself (store
    unreachable) is raised by [queryByRaceName] and by the upsert, which
    sends nothing further; a failure of the create or update is raised by
    the upsert. *)
Theorem query_errors {W} (api : StoreApi W) (cfg : config)
        (race : EventRecord) (e : env W) :
  (db_absent cfg \/ token_absent cfg ->
   fst (queryByRaceName api cfg (race_name race) e) = Returned []
   /\ calls (snd (queryByRaceName api cfg (race_name race) e)) = calls e)
  /\ (forall db token res w1,
         configured cfg db token ->
         api_query api db token (race_name race) (world e)
         = (FetchResolved res, w1) ->
         res_ok res = false ->
         fst (queryByRaceName api cfg (race_name race) e) = Returned []
         /\ calls (snd (upsertRaceToNotion api cfg race e))
            = calls e ++ [ReqQuery db token (race_name race);
                          ReqCreate db (buildProperties race)])
  /\ (forall db token reason w1,
         configured cfg db token ->
         api_query api db token (race_name race) (world e)
         = (FetchRejected reason, w1) ->
         fst (queryByRaceName api cfg (race_name race) e) = Thrown reason
         /\ fst (upsertRaceToNotion api cfg race e) = Thrown reason
         /\ calls (snd (upsertRaceToNotion api cfg race e))
            = calls e ++ [ReqQuery db token (race_name race)])
  /\ (forall db token res w1 results reason w2,
         configured cfg db token ->
         api_query api db token (race_name race) (world e)
         = (FetchResolved res, w1) ->
         res_ok res = true -> res_json res = Some results ->
         match results with
         | Some (p0 :: _) =>
           api_update api (page_id p0) (buildProperties race) w1
         | _ => api_create api db (buildProperties race) w1
         end = (SdkRejected reason, w2) ->
         fst (upsertRaceToNotion api cfg race e) = Thrown reason)
  /\ (forall db token res w1 reason w2,
         configured cfg db token ->
         api_query api db token (race_name race) (world e)
         = (FetchResolved res, w1) ->
         res_ok res = false ->
         api_create api db (buildProperties race) w1 = (SdkRejected reason, w2) ->
         fst (upsertRaceToNotion api cfg race e) = Thrown reason).
Proof.
  split; [|split; [|split; [|split]]].
  - intros [H | H].
    + destruct (query_db_absent api cfg (race_name race) e H) as (? & ? & _).
      auto.
    + destruct (query_token_absent api cfg (race_name race) e H) as (? & ? & _).
      auto.
  - intros db token res w1 Hc Hq Hok. split.
    + apply (query_not_ok api cfg db token _ e res w1 Hc Hq Hok).
    + apply (upsert_resolved_not_ok api cfg db token race e res w1 Hc Hq Hok).
  - intros db token reason w1 Hc Hq.
    rewrite (query_rejected api cfg db token _ e reason w1 Hc Hq).
    rewrite (upsert_rejected api cfg db token race e reason w1 Hc Hq).
    repeat split.
  - intros db token res w1 results reason w2 Hc Hq Hok Hj Hw.
    destruct (upsert_resolved_ok api cfg db token race e res w1 results
                                 Hc Hq Hok Hj) as (H & _ & _).
    rewrite H. unfold write_result.
    destruct results as [[|p0 l]|]; rewrite Hw; reflexivity.
  - intros db token res w1 reason w2 Hc Hq Hok Hw.
    destruct (upsert_resolved_not_ok api cfg db token race e res w1
                                     Hc Hq Hok) as (H & _ & _).
    rewrite H. unfold write_result. rewrite Hw. reflexivity.
Qed.

(** A server error on the query is taken as no match: a create follows. *)
Lemma query_errors_witness :
  configured cfg_ok (js "db1") (js "secret_token")
  /\ fst (queryByRaceName failing_query_api cfg_ok (js "서울마라톤") (env0 tt))
     = Returned []
  /\ calls (snd (upsertRaceToNotion failing_query_api cfg_ok
                                    (race_of (js "서울마라톤")) (env0 tt)))
     = [ReqQuery (js "db1") (js "secret_token") (js "서울마라톤");
        ReqCreate (js "db1") (buildProperties (race_of (js "서울마라톤")))].
Proof.
  split; [exact cfg_ok_configured|].
  exact (proj1 (proj2 (query_errors failing_query_api cfg_ok
                                    (race_of (js "서울마라톤")) (env0 tt)))
               (js "db1") (js "secret_token") _ tt
               cfg_ok_configured eq_refl eq_refl).
Defined.

(** ** The empty name *)

(** C10. For a record with the empty name the mapped [Name] title is the
    placeholder, not the empty name, while the query filters on the empty
    name: every request of the upsert is such a query or a write carrying
    the placeholder title, and with the store configured and answering, the
    requests are that query followed by one such write. In the store
    model the page created this way is titled with the placeholder. *)
Theorem empty_name_placeholder {W} (api : StoreApi W) (cfg : config)
        (race : EventRecord) (e : env W) :
  race_name race = [] ->
  p_Name (buildProperties race) = placeholder_title
  /\ placeholder_title <> race_name race
  /\ (exists l,
         calls (snd (upsertRaceToNotion api cfg race e)) = calls e ++ l
         /\ Forall empty_name_request l)
  /\ (forall db token res w1 results,
         configured cfg db token ->
         api_query api db token [] (world e) = (FetchResolved res, w1) ->
         res_ok res = true -> res_json res = Some results ->
         exists write,
           calls (snd (upsertRaceToNotion api cfg race e))
           = calls e ++ [ReqQuery db token []; write]
           /\ empty_name_request write)
  /\ map page_title
         (world (snd (upsertRaceToNotion store_api cfg_ok (race_of [])
                                         (env0 []))))
     = [placeholder_title].
Proof.
  intros Hn.
  assert (Hp : p_Name (buildProperties race) = placeholder_title).
  { unfold buildProperties. cbn [p_Name]. now rewrite Hn. }
  split; [exact Hp|]. split; [rewrite Hn; discriminate|].
  split; [|split; [|reflexivity]].
  - destruct (upsert_requests api cfg race e) as (l & Hl & HF).
    exists l. split; [exact Hl|].
    eapply Forall_impl; [|exact HF].
    intros c Hc. destruct c; simpl in *; subst; auto.
  - intros db token res w1 results Hc Hq Hok Hj.
    rewrite <- Hn in Hq.
    destruct (upsert_resolved_ok api cfg db token race e res w1 results
                                 Hc Hq Hok Hj) as (_ & H & _).
    eexists. rewrite <- Hn. split; [exact H|].
    unfold write_request. destruct results as [[|p0 l]|]; exact Hp.
Qed.

(** The empty name against the store model: the query asks for the empty
    title and the write carries the placeholder. *)
Lemma empty_name_placeholder_witness :
  race_name (race_of []) = []
  /\ configured cfg_ok (js "db1") (js "secret_token")
  /\ exists write,
       calls (snd (upsertRaceToNotion store_api cfg_ok (race_of [])
                     (env0 [page_of (js "p1") (js "부산마라톤")])))
       = [ReqQuery (js "db1") (js "secret_token") []; write]
       /\ empty_name_request write.
Proof.
  split; [reflexivity|]. split; [exact cfg_ok_configured|].
  exact (proj1 (proj2 (proj2 (proj2
           (empty_name_placeholder store_api cfg_ok (race_of [])
              (env0 [page_of (js "p1") (js "부산마라톤")]) eq_refl))))
           (js "db1") (js "secret_token") _ _ _
           cfg_ok_configured eq_refl eq_refl eq_refl).
Defined.

(** ** Two successive upserts against the store model *)

(** C2, as stated for every name, fails for the empty name: the page is
    created under the placeholder title, the second query still asks for the
    empty title, finds nothing and a second page is created. *)
Lemma upsert_twice_counterexample :
  calls_of cfg_ok (race_of []) (store_after cfg_ok (race_of []) [])
  = [ReqQuery (js "db1") (js "secret_token") [];
     ReqCreate (js "db1") (buildProperties (race_of []))]
  /\ (forall pid props,
        ~ In (ReqUpdate pid props)
             (calls_of cfg_ok (race_of [])
                       (store_after cfg_ok (race_of []) [])))
  /\ titles (store_after cfg_ok (race_of [])
                         (store_after cfg_ok (race_of []) []))
     = [placeholder_title; placeholder_title]
  /\ ~ NoDup (titles (store_after cfg_ok (race_of [])
                                  (store_after cfg_ok (race_of []) []))).
Proof.
  assert (H1 : calls_of cfg_ok (race_of []) (store_after cfg_ok (race_of []) [])
               = [ReqQuery (js "db1") (js "secret_token") [];
                  ReqCreate (js "db1") (buildProperties (race_of []))])
    by reflexivity.
  assert (H2 : titles (store_after cfg_ok (race_of [])
                                   (store_after cfg_ok (race_of []) []))
               = [placeholder_title; placeholder_title]) by reflexivity.
  split; [exact H1|]. split; [|split; [exact H2|]].
  - intros pid props Hin. rewrite H1 in Hin.
    destruct Hin as [H | [H | []]]; discriminate H.
  - rewrite H2. intros Hnd. inversion Hnd as [|x l Hx _]; subst.
    apply Hx. now left.
Qed.

Lemma fresh_id_fresh st : ~ In (fresh_id st) (ids st).
Proof.
  unfold fresh_id, ids. intros H. apply in_map_iff in H.
  destruct H as (p & Hp & Hin).
  assert (Hl : (List.length (page_id p)
                <= list_max (map (fun p => List.length (page_id p)) st))%nat).
  { pose proof (list_max_le (map (fun p => List.length (page_id p)) st)
                            (list_max (map (fun p => List.length (page_id p)) st)))
      as [Hle _].
    specialize (Hle (Nat.le_refl _)). rewrite Forall_forall in Hle.
    apply Hle. apply in_map_iff. exists p. auto. }
  rewrite Hp, repeat_length in Hl. lia.
Qed.

Lemma name_title race :
  race_name race <> [] -> p_Name (buildProperties race) = race_name race.
Proof.
  intros H. unfold buildProperties. cbn [p_Name].
  destruct (race_name race); [congruence | reflexivity].
Qed.

Lemma store_upsert cfg db token race st :
  configured cfg db token ->
  calls_of cfg race st
  = [ReqQuery db token (race_name race);
     write_request db race (matching (race_name race) st)]
  /\ store_after cfg race st
     = snd (write_result store_api db race (matching (race_name race) st) st).
Proof.
  intros Hc. unfold calls_of, store_after.
  destruct (upsert_resolved_ok store_api cfg db token race (env0 st) _ st
              (Some (matching (race_name race) st)) Hc eq_refl eq_refl eq_refl)
    as (_ & H1 & H2).
  split; assumption.
Qed.

Lemma matching_nil name st : matching name st = [] -> ~ In name (titles st).
Proof.
  unfold matching, titles. intros H Hin. apply in_map_iff in Hin.
  destruct Hin as (p & Hp & Hin).
  assert (In p (filter (fun p => jsstr_eqb (page_title p) name) st)).
  { apply filter_In. split; auto. now apply jsstr_eqb_eq. }
  rewrite H in H0. contradiction.
Qed.

Lemma not_in_matching name st : ~ In name (titles st) -> matching name st = [].
Proof.
  unfold matching, titles. intros H.
  destruct (filter _ st) as [|p l] eqn:E; [reflexivity|].
  assert (Hin : In p (filter (fun p => jsstr_eqb (page_title p) name) st)).
  { rewrite E. now left. }
  apply filter_In in Hin. destruct Hin as [Hin Ht].
  apply jsstr_eqb_eq in Ht. exfalso. apply H. apply in_map_iff. eauto.
Qed.

Lemma matching_head name st p0 l :
  matching name st = p0 :: l -> In p0 st /\ page_title p0 = name.
Proof.
  unfold matching. intros E.
  assert (Hin : In p0 (filter (fun p => jsstr_eqb (page_title p) name) st)).
  { rewrite E. now left. }
  apply filter_In in Hin. destruct Hin as [Hin Ht].
  apply jsstr_eqb_eq in Ht. auto.
Qed.

Lemma NoDup_map_eq {A B} (f : A -> B) l x y :
  NoDup (map f l) -> In x l -> In y l -> f x = f y -> x = y.
Proof.
  induction l as [|a l IH]; simpl; intros Hnd Hx Hy Hf; [contradiction|].
  inversion Hnd; subst.
  destruct Hx as [-> | Hx], Hy as [-> | Hy]; auto.
  - exfalso. apply H1. rewrite Hf. now apply in_map.
  - exfalso. apply H1. rewrite <- Hf. now apply in_map.
Qed.

Lemma update_keeps st p0 props :
  NoDup (ids st) -> In p0 st -> p_Name props = page_title p0 ->
  let st' := snd (store_update (page_id p0) props st) in
  ids st' = ids st /\ titles st' = titles st.
Proof.
  intros Hnd Hin Ht. cbn [store_update snd]. unfold ids, titles.
  rewrite !map_map. split; apply map_ext_in; intros p Hp.
  - destruct (jsstr_eqb (page_id p) (page_id p0)) eqn:E; [|reflexivity].
    apply jsstr_eqb_eq in E. simpl. now symmetry.
  - destruct (jsstr_eqb (page_id p) (page_id p0)) eqn:E; [|reflexivity].
    apply jsstr_eqb_eq in E.
    assert (p = p0) by (eapply NoDup_map_eq; eauto). subst p.
    unfold page_title at 1. simpl. exact Ht.
Qed.

Lemma NoDup_snoc {A} (l : list A) x : NoDup l -> ~ In x l -> NoDup (l ++ [x]).
Proof.
  intros Hl Hx. apply NoDup_app; auto.
  - repeat constructor. simpl. tauto.
  - intros y Hy [-> | []]. contradiction.
Qed.

(** Each upsert of a record with a non-empty name keeps identifiers and
    titles free of duplicates. *)
Lemma upsert_invariant cfg db token race st :
  configured cfg db token -> race_name race <> [] ->
  NoDup (ids st) -> NoDup (titles st) ->
  NoDup (ids (store_after cfg race st))
  /\ NoDup (titles (store_after cfg race st)).
Proof.
  intros Hc Hn Hi Ht.
  destruct (store_upsert cfg db token race st Hc) as [_ Hs]. rewrite Hs.
  unfold write_result.
  destruct (matching (race_name race) st) as [|p0 l] eqn:E.
  - cbn [store_api api_create store_create snd]. unfold ids, titles.
    rewrite !map_app. cbn [map page_id]. split; apply NoDup_snoc; auto.
    + apply fresh_id_fresh.
    + unfold page_title. cbn [page_props]. rewrite name_title by assumption.
      now apply matching_nil.
  - apply matching_head in E. destruct E as [Hin Hti].
    cbn [store_api api_update].
    destruct (update_keeps st p0 (buildProperties race) Hi Hin) as [H1 H2].
    { rewrite name_title by assumption. now symmetry. }
    rewrite H1, H2. split; assumption.
Qed.

Lemma update_other st pid props :
  ~ In pid (ids st) -> snd (store_update pid props st) = st.
Proof.
  intros H. cbn [store_update snd]. rewrite <- (map_id st) at 2.
  apply map_ext_in. intros p Hp.
  destruct (jsstr_eqb (page_id p) pid) eqn:E; [|reflexivity].
  apply jsstr_eqb_eq in E. exfalso. apply H. subst pid.
  unfold ids. now apply in_map.
Qed.

(** C2 (amended). For every non-empty name, with the store configured and
    behaving as the store model: if the first upsert of a record with that
    name finds no page of that title it creates one, and a second upsert of
    a record with the same name updates that very page and creates
    nothing, leaving the other pages as they were; and every upsert of a
    record with a non-empty name keeps page titles (and identifiers) free of
    duplicates. *)
Theorem upsert_twice_updates (cfg : config) (db token : jsstr)
        (r1 r2 : EventRecord) (st : store) :
  configured cfg db token ->
  race_name r1 <> [] -> race_name r2 = race_name r1 ->
  ~ In (race_name r1) (titles st) ->
  calls_of cfg r1 st
  = [ReqQuery db token (race_name r1); ReqCreate db (buildProperties r1)]
  /\ store_after cfg r1 st
     = st ++ [{| page_id := fresh_id st; page_props := buildProperties r1 |}]
  /\ calls_of cfg r2 (store_after cfg r1 st)
     = [ReqQuery db token (race_name r1);
        ReqUpdate (fresh_id st) (buildProperties r2)]
  /\ store_after cfg r2 (store_after cfg r1 st)
     = st ++ [{| page_id := fresh_id st; page_props := buildProperties r2 |}]
  /\ (forall race st0,
         race_name race <> [] -> NoDup (ids st0) -> NoDup (titles st0) ->
         NoDup (ids (store_after cfg race st0))
         /\ NoDup (titles (store_after cfg race st0))).
Proof.
  intros Hc Hn H12 Hnew.
  destruct (store_upsert cfg db token r1 st Hc) as [C1 S1].
  rewrite (not_in_matching _ _ Hnew) in C1, S1.
  cbn [write_request write_result store_api api_create store_create snd]
    in C1, S1.
  set (p1 := {| page_id := fresh_id st; page_props := buildProperties r1 |})
    in *.
  assert (Hm : matching (race_name r2) (st ++ [p1]) = [p1]).
  { unfold matching. rewrite filter_app. fold (matching (race_name r2) st).
    rewrite H12, (not_in_matching _ _ Hnew). cbn [filter app].
    unfold page_title at 1. cbn [p1 page_props].
    rewrite (name_title r1 Hn), jsstr_eqb_refl. reflexivity. }
  destruct (store_upsert cfg db token r2 (st ++ [p1]) Hc) as [C2 S2].
  rewrite Hm in C2, S2.
  cbn [write_request write_result store_api api_update] in C2, S2.
  split; [exact C1|]. split; [exact S1|]. rewrite S1.
  split; [rewrite C2, H12; reflexivity|].
  split.
  - rewrite S2. cbn [store_update snd p1 page_id]. rewrite map_app.
    pose proof (update_other st (fresh_id st) (buildProperties r2)
                             (fresh_id_fresh st)) as Hst.
    cbn [store_update snd] in Hst. rewrite Hst.
    cbn [map page_id]. rewrite jsstr_eqb_refl. reflexivity.
  - intros race st0 Hr Hi Ht. eapply upsert_invariant; eauto.
Qed.

(** Two upserts of the same name into a store holding another page: the
    second one updates the page the first one created. *)
Lemma upsert_twice_updates_witness :
  configured cfg_ok (js "db1") (js "secret_token")
  /\ race_name (race_of (js "서울마라톤")) <> []
  /\ ~ In (js "서울마라톤") (titles [page_of (js "p1") (js "부산마라톤")])
  /\ calls_of cfg_ok (race_of (js "서울마라톤"))
       (store_after cfg_ok (race_of (js "서울마라톤"))
                    [page_of (js "p1") (js "부산마라톤")])
     = [ReqQuery (js "db1") (js "secret_token") (js "서울마라톤");
        ReqUpdate (js "000") (buildProperties (race_of (js "서울마라톤")))].
Proof.
  assert (H1 : race_name (race_of (js "서울마라톤")) <> []) by discriminate.
  assert (H2 : ~ In (js "서울마라톤")
                    (titles [page_of (js "p1") (js "부산마라톤")])).
  { intros [H | []]. discriminate H. }
  split; [exact cfg_ok_configured|]. split; [exact H1|]. split; [exact H2|].
  exact (proj1 (proj2 (proj2
           (upsert_twice_updates cfg_ok (js "db1") (js "secret_token")
              (race_of (js "서울마라톤")) (race_of (js "서울마라톤"))
              [page_of (js "p1") (js "부산마라톤")]
              cfg_ok_configured H1 eq_refl H2)))).
Defined.

(** ** clean *)

Lemma replace_ws_step r c c' s :
  replace_ws_runs r (c :: c' :: s)
  = if is_space c
    then (if is_space c' then replace_ws_runs r (c' :: s)
          else r ++ replace_ws_runs r (c' :: s))
    else c :: replace_ws_runs r (c' :: s).
Proof. reflexivity. Qed.

Lemma replace_ws_keep r c s :
  is_space c = false -> replace_ws_runs r (c :: s) = c :: replace_ws_runs r s.
Proof. intros H. cbn [replace_ws_runs]. now rewrite H. Qed.

Lemma replace_ws_collapsed : forall s,
  collapsed (replace_ws_runs [ch_space] s) = true.
Proof.
  induction s as [|c s IH]; [reflexivity|].
  destruct s as [|c' s].
  - cbn [replace_ws_runs]. destruct (is_space c) eqn:Hc; [reflexivity|].
    cbn [collapsed]. now rewrite Hc.
  - rewrite replace_ws_step.
    destruct (is_space c) eqn:Hc.
    + destruct (is_space c') eqn:Hc'; [exact IH|].
      rewrite (replace_ws_keep _ _ _ Hc') in *.
      cbn [app collapsed] in *. rewrite Hc' in *.
      change (is_space ch_space) with true. cbn [negb andb].
      rewrite N.eqb_refl. exact IH.
    + cbn [collapsed]. rewrite Hc. exact IH.
Qed.

Lemma collapsed_app_l : forall l r, collapsed (l ++ r) = true -> collapsed l = true.
Proof.
  induction l as [|c l IH]; intros r H; [reflexivity|].
  cbn [app collapsed] in *. apply andb_true_iff in H. destruct H as [H1 H2].
  apply andb_true_iff. split; [|eauto].
  destruct (is_space c); [|reflexivity].
  apply andb_true_iff in H1. destruct H1 as [H1 H3]. rewrite H1. simpl.
  destruct l; [reflexivity|exact H3].
Qed.

Lemma collapsed_app_r : forall l r, collapsed (l ++ r) = true -> collapsed r = true.
Proof.
  induction l as [|c l IH]; intros r H; [exact H|].
  cbn [app collapsed] in H. apply andb_true_iff in H. destruct H as [_ H2]. eauto.
Qed.

Lemma clean_normalized s : normalized (clean s).
Proof.
  unfold clean.
  destruct (trim_spec (replace_ws_runs [ch_space] s))
    as (l & r & He & _ & _ & H1 & H2).
  pose proof (replace_ws_collapsed s) as Hc. rewrite He in Hc.
  apply collapsed_app_r in Hc. apply collapsed_app_l in Hc.
  repeat split; assumption.
Qed.

Lemma collapsed_replace : forall s,
  collapsed s = true -> replace_ws_runs [ch_space] s = s.
Proof.
  induction s as [|c s IH]; intros H; [reflexivity|].
  cbn [collapsed] in H. apply andb_true_iff in H. destruct H as [H1 H2].
  cbn [replace_ws_runs]. destruct (is_space c) eqn:Hc.
  - apply andb_true_iff in H1. destruct H1 as [H1 H3].
    apply N.eqb_eq in H1. subst c.
    destruct s as [|c' s]; [reflexivity|].
    apply negb_true_iff in H3. rewrite H3. rewrite (IH H2). reflexivity.
  - now rewrite (IH H2).
Qed.

Lemma drop_while_not_headed p s : not_headed_by p s -> drop_while p s = s.
Proof. destruct s as [|c s]; simpl; [reflexivity|]. intros ->. reflexivity. Qed.

Lemma trim_fixed s :
  not_headed_by is_space s -> not_headed_by is_space (rev s) -> trim s = s.
Proof.
  intros H1 H2. unfold trim.
  rewrite (drop_while_not_headed _ _ H1), (drop_while_not_headed _ _ H2).
  apply rev_involutive.
Qed.

Lemma normalized_clean s : normalized s -> clean s = s.
Proof.
  intros (H1 & H2 & H3). unfold clean.
  rewrite (collapsed_replace _ H1). now apply trim_fixed.
Qed.

Lemma filter_all_space w : all is_space w -> filter is_nonspace w = [].
Proof.
  induction w as [|c w IH]; intros H; [reflexivity|].
  unfold all in H. simpl in H. apply andb_true_iff in H. destruct H as [H1 H2].
  simpl. unfold is_nonspace at 1. rewrite H1. simpl. now apply IH.
Qed.

Lemma filter_nonspace_cons c s :
  filter is_nonspace (c :: s)
  = if is_space c then filter is_nonspace s else c :: filter is_nonspace s.
Proof. cbn [filter]. unfold is_nonspace at 1. now destruct (is_space c). Qed.

Lemma replace_ws_nonspace : forall s,
  filter is_nonspace (replace_ws_runs [ch_space] s) = filter is_nonspace s.
Proof.
  induction s as [|c s IH]; [reflexivity|].
  destruct s as [|c' s].
  - cbn [replace_ws_runs]. rewrite filter_nonspace_cons.
    destruct (is_space c) eqn:Hc; [reflexivity|].
    rewrite filter_nonspace_cons, Hc. reflexivity.
  - rewrite replace_ws_step. rewrite (filter_nonspace_cons c).
    destruct (is_space c) eqn:Hc.
    + destruct (is_space c') eqn:Hc'; [exact IH|].
      rewrite filter_app. exact IH.
    + rewrite filter_nonspace_cons, Hc. now rewrite IH.
Qed.

Lemma clean_nonspace s : filter is_nonspace (clean s) = filter is_nonspace s.
Proof.
  unfold clean.
  destruct (trim_spec (replace_ws_runs [ch_space] s))
    as (l & r & He & Hl & Hr & _).
  rewrite <- (replace_ws_nonspace s).
  set (u := replace_ws_runs [ch_space] s) in *.
  set (m := trim u) in *. clearbody m. rewrite He.
  rewrite !filter_app, (filter_all_space _ Hl), (filter_all_space _ Hr).
  now rewrite app_nil_r.
Qed.

Lemma filter_nonspace_nil : forall s, filter is_nonspace s = [] -> all is_space s.
Proof.
  induction s as [|c s IH]; intros H; [reflexivity|].
  simpl in H. unfold is_nonspace at 1 in H.
  destruct (is_space c) eqn:Hc; simpl in H; [|discriminate].
  unfold all. simpl. rewrite Hc. now apply IH.
Qed.

(** X1. [clean] yields a normalized text, is the identity on normalized texts
    (so applying it twice changes nothing), keeps the other characters in
    order, and yields the empty text exactly on texts of white space. *)
Theorem clean_spec (s : jsstr) :
  normalized (clean s)
  /\ (normalized s -> clean s = s)
  /\ clean (clean s) = clean s
  /\ filter is_nonspace (clean s) = filter is_nonspace s
  /\ (clean s = [] <-> all is_space s).
Proof.
  split; [apply clean_normalized|]. split; [apply normalized_clean|].
  split; [apply normalized_clean, clean_normalized|].
  split; [apply clean_nonspace|].
  split.
  - intros H. apply filter_nonspace_nil. rewrite <- clean_nonspace, H.
    reflexivity.
  - intros H. pose proof (clean_nonspace s) as Hf.
    rewrite (filter_all_space _ H) in Hf.
    destruct (clean_normalized s) as (_ & Hh & _).
    destruct (clean s) as [|c u]; [reflexivity|].
    simpl in Hh. simpl in Hf. unfold is_nonspace at 1 in Hf.
    rewrite Hh in Hf. discriminate.
Qed.

Lemma clean_spec_witness :
  normalized (js "a b") /\ clean (js "a b") = js "a b".
Proof.
  assert (H : normalized (js "a b")) by (repeat split).
  split; [exact H|].
  exact (proj1 (proj2 (clean_spec (js "a b"))) H).
Defined.

(** ** The shape of parseTime results *)

Lemma padStart2_two_digits h :
  all is_digit h -> (1 <= List.length h <= 2)%nat -> two_digits (padStart2 h).
Proof.
  intros Hd Hl. destruct h as [|a [|b [|c h]]]; simpl in Hl; try lia.
  - exists ch_zero, a. unfold all in Hd. simpl in Hd.
    rewrite andb_true_r in Hd. repeat split; auto.
  - exists a, b. unfold all in Hd. simpl in Hd.
    rewrite andb_true_r in Hd. apply andb_true_iff in Hd. tauto.
Qed.

Lemma small_table :
  forallb small_ok (map N.of_nat (seq 0 100)) = true.
Proof. vm_compute. reflexivity. Qed.

Lemma String_of_small n :
  n < 100 ->
  all is_digit (String_of n) /\ (1 <= List.length (String_of n) <= 2)%nat.
Proof.
  intros Hn. pose proof small_table as H. rewrite forallb_forall in H.
  assert (Hin : In n (map N.of_nat (seq 0 100))).
  { apply in_map_iff. exists (N.to_nat n). split; [apply N2Nat.id|].
    apply in_seq. lia. }
  apply H in Hin. unfold small_ok in Hin.
  apply andb_true_iff in Hin. destruct Hin as [Hin H3].
  apply andb_true_iff in Hin. destruct Hin as [H1 H2].
  apply Nat.leb_le in H2, H3. split; [exact H1 | lia].
Qed.

Lemma digit_value c : is_digit c = true -> c - 48 <= 9.
Proof.
  unfold is_digit. intros H. apply andb_true_iff in H. destruct H as [H1 H2].
  apply N.leb_le in H1, H2. lia.
Qed.

Lemma parseInt_small h :
  all is_digit h -> (List.length h <= 2)%nat -> parseInt h < 100.
Proof.
  intros Hd Hl. destruct h as [|a [|b [|c h]]]; simpl in Hl; try lia;
    unfold all in Hd; cbn [forallb] in Hd; unfold parseInt; cbn [fold_left].
  - lia.
  - rewrite andb_true_r in Hd. apply digit_value in Hd. lia.
  - rewrite andb_true_r in Hd. apply andb_true_iff in Hd. destruct Hd as [Ha Hb].
    apply digit_value in Ha, Hb. lia.
Qed.

Lemma adjust_hour_small ampm h : h < 100 -> adjust_hour ampm h < 100.
Proof.
  intros Hh. unfold adjust_hour.
  destruct (jsstr_eqb ampm s_ohu); destruct (h <? 12) eqn:E; cbn [andb];
    destruct (jsstr_eqb ampm s_ojeon); cbn [andb];
    try match goal with |- context [?x =? 12] => destruct (x =? 12) end;
    try apply N.ltb_lt in E; lia.
Qed.

Lemma rexec_sound r s m :
  rexec r s = Some m ->
  exists t, match_here r t = Some (m_after m, m_caps m).
Proof.
  unfold rexec. intros H. apply rexec_from_some in H.
  destruct H as (p & t & _ & Hm & _). eauto.
Qed.

Lemma pad_small_two_digits n : n < 100 -> two_digits (padStart2 (String_of n)).
Proof.
  intros Hn. destruct (String_of_small n Hn). now apply padStart2_two_digits.
Qed.

Lemma time_shape_of x y : two_digits x -> two_digits y -> TimeShape (hhmm x y).
Proof.
  intros (a & b & -> & Ha & Hb) (c & d & -> & Hc & Hd).
  exists a, b, c, d. repeat split; auto.
Qed.

Lemma parseTime_shape str t : parseTime str = Some t -> TimeShape t.
Proof.
  unfold parseTime. set (s := replace_ws_runs [] str).
  destruct (rexec re_clock s) as [m|] eqn:E1.
  - apply rexec_sound in E1. destruct E1 as (t0 & E1).
    apply clock_here_sound in E1. destruct E1 as (h & mi & HC & Hc).
    unfold group. rewrite Hc. cbn [cap Nat.eqb].
    intros H. inversion H; subst t; clear H.
    destruct HC as (_ & Hh & Hlh & Hm & Hlm).
    apply (time_shape_of (padStart2 h) mi).
    + now apply padStart2_two_digits.
    + destruct mi as [|c [|d [|x mi]]]; simpl in Hlm; try lia.
      exists c, d. unfold all in Hm. simpl in Hm. rewrite andb_true_r in Hm.
      apply andb_true_iff in Hm. tauto.
  - destruct (rexec re_ampm s) as [m|] eqn:E2.
    + apply rexec_sound in E2. destruct E2 as (t0 & E2).
      apply ampm_here_sound in E2.
      destruct E2 as (ap & h & rest & HA & [(mi & HMi & Hc) | (_ & Hc)]);
        unfold group; rewrite Hc; cbn [cap Nat.eqb];
        intros H; inversion H; subst t; clear H;
        destruct HA as (_ & _ & Hh & Hlh).
      * destruct HMi as (_ & Hm & Hlm).
        apply (time_shape_of (padStart2 _) (padStart2 _)).
        -- apply pad_small_two_digits, adjust_hour_small, parseInt_small;
             auto; lia.
        -- destruct mi as [|c mi]; [simpl in Hlm; lia|]. cbn [truthy].
           apply pad_small_two_digits, parseInt_small; auto; lia.
      * apply (time_shape_of (padStart2 _) [ch_zero; ch_zero]).
        -- apply pad_small_two_digits, adjust_hour_small, parseInt_small;
             auto; lia.
        -- exists ch_zero, ch_zero. repeat split.
    + destruct (rexec re_hour s) as [m|] eqn:E3; [|discriminate].
      apply rexec_sound in E3. destruct E3 as (t0 & E3).
      apply hour_here_sound in E3. destruct E3 as (h & HH & Hc).
      unfold group. rewrite Hc. cbn [cap Nat.eqb].
      intros H. inversion H; subst t; clear H.
      destruct HH as (_ & Hh & Hlh).
      apply (time_shape_of (padStart2 _) [ch_zero; ch_zero]).
      * apply pad_small_two_digits, parseInt_small; auto; lia.
      * exists ch_zero, ch_zero. repeat split.
Qed.

Lemma parseTime_fixed t : TimeShape t -> parseTime t = Some t.
Proof.
  intros (a & b & c & d & -> & Ha & Hb & Hc & Hd).
  apply (parseTime_clock [a; b; ch_colon; c; d] [] [a; b; ch_colon; c; d]
                         [a; b] [c; d] []).
  - unfold strip. cbn [filter]. unfold is_nonspace.
    rewrite (digit_not_space a Ha), (digit_not_space b Hb),
      (digit_not_space c Hc), (digit_not_space d Hd).
    reflexivity.
  - unfold ClockAt, all. simpl. rewrite Ha, Hb, Hc, Hd. repeat split; lia.
  - intros p1 p2 Hp Hne. symmetry in Hp. apply app_eq_nil in Hp. tauto.
Qed.

(** X2. Every result of [parseTime] is two digits, a colon and two digits, and
    [parseTime] maps such a text to itself, so parsing a result again gives
    the same result. *)
Theorem parseTime_result_shape (str t : jsstr) :
  parseTime str = Some t ->
  TimeShape t /\ parseTime t = Some t.
Proof.
  intros H. apply parseTime_shape in H. split; [exact H|].
  now apply parseTime_fixed.
Qed.

Lemma parseTime_result_shape_witness :
  parseTime (js "오후 7시 5분") = Some (js "19:05")
  /\ TimeShape (js "19:05") /\ parseTime (js "19:05") = Some (js "19:05").
Proof.
  assert (H : parseTime (js "오후 7시 5분") = Some (js "19:05")) by reflexivity.
  split; [exact H|].
  exact (parseTime_result_shape (js "오후 7시 5분") (js "19:05") H).
Defined.

(** ** The tags of normalizeCourse *)

Lemma length_split_on sep : forall s,
  List.length (split_on sep s) = S (count_occ N.eq_dec s sep).
Proof.
  induction s as [|c s IH]; [reflexivity|].
  cbn [split_on count_occ]. destruct (c =? sep) eqn:E.
  - apply N.eqb_eq in E. subst c. destruct (N.eq_dec sep sep); [|congruence].
    simpl. now rewrite IH.
  - apply N.eqb_neq in E. destruct (N.eq_dec c sep); [congruence|].
    destruct (split_on sep s); simpl in *; lia.
Qed.

Lemma trim_sub s c : In c (trim s) -> In c s.
Proof.
  destruct (trim_spec s) as (l & r & He & _).
  intros H. rewrite He. apply in_or_app. right. apply in_or_app. now left.
Qed.

Lemma all_digit_no c d : all is_digit d -> is_digit c = false -> ~ In c d.
Proof.
  unfold all. rewrite forallb_forall. intros H Hc Hin.
  apply H in Hin. congruence.
Qed.

Lemma not_headed_digits d r :
  all is_digit d -> (1 <= List.length d)%nat -> not_headed_by is_space (d ++ r).
Proof.
  intros Hd Hl. apply not_headed_run with (p := is_digit); auto.
  - exact digit_not_space.
  - intros ->. simpl in Hl. lia.
Qed.

Lemma normalize_segment_ok seg :
  seg <> [] -> ~ In ch_comma seg ->
  not_headed_by is_space seg -> not_headed_by is_space (rev seg) ->
  tag_ok (normalize_segment seg).
Proof.
  intros Hne Hc Hh Hl. unfold normalize_segment.
  destruct (includes seg s_pul).
  { repeat split; try discriminate. intros H. vm_compute in H. intuition lia. }
  destruct (includes seg s_hapeu).
  { repeat split; try discriminate. intros H. vm_compute in H. intuition lia. }
  destruct (rexec re_km seg) as [m|] eqn:E; [|repeat split; auto].
  apply rexec_sound in E. destruct E as (t0 & E).
  apply km_here_sound in E. destruct E as (d & HK & Hcap).
  unfold group. rewrite Hcap. cbn [cap Nat.eqb].
  destruct HK as (w & c & _ & Hd & Hld & _).
  assert (Hk : js "k" = [107]) by reflexivity. rewrite Hk.
  repeat split.
  - destruct d; discriminate.
  - intros Hin. apply in_app_or in Hin. destruct Hin as [Hin | [Hin | []]].
    + revert Hin. apply all_digit_no; auto.
    + discriminate Hin.
  - now apply not_headed_digits.
  - rewrite rev_app_distr. reflexivity.
Qed.

Lemma normalizeCourse_tag_ok (text : jsstr) :
  Forall tag_ok (normalizeCourse text).
Proof.
  unfold normalizeCourse.
  apply Forall_forall. intros tag Hin. apply in_map_iff in Hin.
  destruct Hin as (seg & <- & Hin). apply filter_In in Hin.
  destruct Hin as [Hin Ht]. apply in_map_iff in Hin.
  destruct Hin as (raw & <- & Hraw).
  destruct (trim_spec raw) as (l & r & _ & _ & _ & H1 & H2).
  apply normalize_segment_ok; auto.
  - intros E. rewrite E in Ht. discriminate.
  - intros Hc. apply trim_sub in Hc.
    pose proof (split_no_sep ch_comma text) as HF.
    rewrite Forall_forall in HF. exact (HF raw Hraw Hc).
Qed.

(** X3. Every tag [normalizeCourse] returns is non-empty, free of commas and of
    white space at its ends, and there are at most one more tags than the
    text has commas. *)
Theorem normalizeCourse_tags (text : jsstr) :
  Forall tag_ok (normalizeCourse text)
  /\ (List.length (normalizeCourse text)
      <= S (count_occ N.eq_dec text ch_comma))%nat.
Proof.
  split; [apply normalizeCourse_tag_ok|].
  unfold normalizeCourse. rewrite length_map.
  eapply Nat.le_trans; [apply filter_length_le|].
  rewrite length_map, length_split_on. lia.
Qed.

(** ** The entry period *)

Lemma split_on_free sep : forall a, ~ In sep a -> split_on sep a = [a].
Proof.
  induction a as [|c a IH]; intros H; [reflexivity|].
  cbn [split_on]. destruct (c =? sep) eqn:E.
  - apply N.eqb_eq in E. subst c. exfalso. apply H. now left.
  - rewrite IH; [reflexivity|]. intros Hin. apply H. now right.
Qed.

Lemma split_on_app sep : forall a b,
  ~ In sep a -> split_on sep (a ++ sep :: b) = a :: split_on sep b.
Proof.
  induction a as [|c a IH]; intros b H.
  - cbn [app split_on]. now rewrite N.eqb_refl.
  - cbn [app split_on]. destruct (c =? sep) eqn:E.
    + apply N.eqb_eq in E. subst c. exfalso. apply H. now left.
    + rewrite IH; [reflexivity|]. intros Hin. apply H. now right.
Qed.

Lemma includes_single c s : includes s [c] = true <-> In c s.
Proof.
  rewrite includes_spec. split.
  - intros (pre & suf & ->). apply in_or_app. right. now left.
  - intros H. apply in_split in H. destruct H as (l1 & l2 & ->).
    exists l1, l2. reflexivity.
Qed.

Lemma includes_single_false c s : ~ In c s -> includes s [c] = false.
Proof.
  intros H. destruct (includes s [c]) eqn:E; [|reflexivity].
  apply includes_single in E. contradiction.
Qed.

(** X4. The entry period gives dates only when it contains [~]: the start is
    parsed from the text before the first [~] and the end from the text
    between the first and the second [~] (or the end of the text), each on its
    own; whatever follows a second [~] is ignored. *)
Theorem entry_dates_spec (fmt : Dayjs -> jsstr) (entryRaw0 : jsstr) :
  (~ In ch_tilde entryRaw0 -> entry_dates fmt entryRaw0 = (None, None))
  /\ (forall a b tail,
         entryRaw0 = a ++ ch_tilde :: b ++ tail ->
         ~ In ch_tilde a -> ~ In ch_tilde b ->
         (tail = [] \/ exists c, tail = ch_tilde :: c) ->
         entry_dates fmt entryRaw0
         = (option_map fmt (parseKoreanDate (clean a)),
            option_map fmt (parseKoreanDate (clean b)))).
Proof.
  split.
  - intros H. unfold entry_dates. rewrite (includes_single_false _ _ H).
    now rewrite andb_false_r.
  - intros a b tail -> Ha Hb Ht. unfold entry_dates.
    assert (Hin : includes (a ++ ch_tilde :: b ++ tail) [ch_tilde] = true).
    { apply includes_single. apply in_or_app. right. now left. }
    rewrite Hin.
    assert (Htr : truthy (a ++ ch_tilde :: b ++ tail) = true)
      by (destruct a; reflexivity).
    rewrite Htr. cbn [andb]. rewrite (split_on_app _ _ _ Ha).
    destruct Ht as [-> | [c ->]].
    + rewrite app_nil_r, (split_on_free _ _ Hb). reflexivity.
    + rewrite (split_on_app _ _ _ Hb). reflexivity.
Qed.

Lemma entry_dates_spec_witness :
  ~ In ch_tilde (js "2025년12월1일 ") /\ ~ In ch_tilde (js " 미정")
  /\ entry_dates fmt_arg (js "2025년12월1일 ~ 미정~2026년1월1일")
     = (Some (js "2025-12-1"), None).
Proof.
  assert (H1 : ~ In ch_tilde (js "2025년12월1일 ")).
  { intros H. vm_compute in H. intuition discriminate. }
  assert (H2 : ~ In ch_tilde (js " 미정")).
  { intros H. vm_compute in H. intuition discriminate. }
  split; [exact H1|]. split; [exact H2|].
  exact (proj2 (entry_dates_spec fmt_arg (js "2025년12월1일 ~ 미정~2026년1월1일"))
               (js "2025년12월1일 ") (js " 미정") (js "~2026년1월1일")
               eq_refl H1 H2 (or_intror (ex_intro _ (js "2026년1월1일") eq_refl))).
Defined.

(** ** The homepage link *)

Lemma url_here_complete sch w rest t :
  UrlAt sch w rest t -> match_here re_url t = Some (rest, []).
Proof.
  intros (-> & Hs & Hw & Hl & Hr).
  unfold match_here, re_url. cbn [rmatch]. rewrite Lit_match.
  destruct Hs as [-> | ->].
  - change (js "http" ++ js "://" ++ w ++ rest)
      with (js "http" ++ (js "://" ++ w ++ rest)).
    rewrite starts_with_app, skipn_app_len.
    replace (js "://" ++ w ++ rest) with (58 :: (js "//" ++ w ++ rest))
      by reflexivity.
    replace (is_char 115 58) with false by reflexivity.
    rewrite Lit_match.
    replace (58 :: js "//" ++ w ++ rest) with (js "://" ++ (w ++ rest))
      by reflexivity.
    rewrite starts_with_app, skipn_app_len.
    apply rep_span; auto. right. split; [exact I | exact Hr].
  - replace (js "https" ++ js "://" ++ w ++ rest)
      with (js "http" ++ (115 :: js "://" ++ (w ++ rest))) by reflexivity.
    rewrite starts_with_app, skipn_app_len.
    replace (is_char 115 115) with true by reflexivity.
    rewrite Lit_match, starts_with_app, skipn_app_len.
    erewrite rep_span; eauto. right. split; [exact I | exact Hr].
Qed.

Lemma url_here_sound t rest c :
  match_here re_url t = Some (rest, c) ->
  exists sch w, UrlAt sch w rest t /\ c = [].
Proof.
  intros H. pose proof H as H0. open_match H.
  unfold re_url in HM. cbn [Matches] in HM.
  destruct HM as (s1 & c1 & Hlit & s2 & c2 & Hopt & s3 & c3 & Hsep & HM).
  destruct HM as (w & -> & Hw & Hl & _ & ->).
  assert (Hsch : exists sch, is_scheme sch /\ t = sch ++ js "://" ++ w ++ rest
                             /\ c3 = []).
  { change (Lit (js "http"))
      with (Seq (Chr (is_char 104)) (Seq (Chr (is_char 116))
             (Seq (Chr (is_char 116)) (Chr (is_char 112))))) in Hlit.
    change (Lit (js "://"))
      with (Seq (Chr (is_char 58)) (Seq (Chr (is_char 47)) (Chr (is_char 47))))
      in Hsep.
    cbn [Matches] in Hlit, Hsep, Hopt.
    destruct Hopt as [Hopt | Hopt]; break_matches.
    - exists (js "https"). repeat split. now right.
    - exists (js "http"). repeat split. now left. }
  destruct Hsch as (sch & Hs & -> & ->).
  destruct (drop_while_spec is_nonspace rest) as (w2 & He & Hw2 & Hr2).
  set (rest2 := drop_while is_nonspace rest) in *. clearbody rest2.
  assert (HU : UrlAt sch (w ++ w2) rest2 (sch ++ js "://" ++ w ++ rest)).
  { repeat split; auto.
    - rewrite He at 1. now rewrite <- app_assoc.
    - unfold all in *. rewrite forallb_app, Hw, Hw2. reflexivity.
    - rewrite length_app. lia. }
  apply url_here_complete in HU. rewrite HU in H0. inversion H0; subst rest2.
  assert (w2 = []).
  { apply (f_equal (@List.length _)) in He. rewrite length_app in He.
    destruct w2; [reflexivity | simpl in He; lia]. }
  subst w2. exists sch, w. repeat split; auto.
Qed.

Lemma re_url_recognizes : Recognizes re_url IsUrl.
Proof.
  intros t. split.
  - intros (sch & w & rest & H). rewrite (url_here_complete _ _ _ _ H).
    discriminate.
  - destruct (match_here re_url t) as [[rest c]|] eqn:E; [|congruence].
    intros _. apply url_here_sound in E. destruct E as (sch & w & H & _).
    exists sch, w, rest. exact H.
Qed.

Lemma homepage_of_text valueTd v old :
  no_link valueTd ->
  homepage_of valueTd v old
  = match rexec re_url v with Some m => Some (m_text m) | None => old end.
Proof.
  intros H. unfold homepage_of.
  destruct (cell_first_anchor valueTd) as [[href|]|] eqn:E; try reflexivity.
  rewrite (H href E). reflexivity.
Qed.

(** X5. The homepage of a row is the link target of the first anchor of the
    value cell when that is not empty; without such an anchor it is the
    leftmost URL-looking token of the value text, from [http://] or
    [https://] up to the next white space or the end, and the earlier value
    stays when the text has no such token. *)
Theorem homepage_of_spec (valueTd : cell) (v : jsstr) (old : option jsstr) :
  (forall href,
      cell_first_anchor valueTd = Some (Some href) -> href <> [] ->
      homepage_of valueTd v old = Some href)
  /\ (no_link valueTd ->
      (forall pre t sch w rest,
          v = pre ++ t -> UrlAt sch w rest t -> Leftmost IsUrl pre t ->
          homepage_of valueTd v old = Some (sch ++ js "://" ++ w))
      /\ (~ Occurs IsUrl v -> homepage_of valueTd v old = old)).
Proof.
  split.
  - intros href H Hne. unfold homepage_of. rewrite H.
    destruct href; [congruence | reflexivity].
  - intros Hn. split.
    + intros pre t sch w rest -> HU HL. rewrite (homepage_of_text _ _ _ Hn).
      rewrite (rexec_leftmost _ _ _ _ _ _ re_url_recognizes
                              (url_here_complete _ _ _ _ HU) HL).
      cbn [m_text]. destruct HU as (-> & _).
      rewrite !app_assoc. rewrite firstn_app_len. reflexivity.
    + intros HN. rewrite (homepage_of_text _ _ _ Hn).
      now rewrite (rexec_absent _ _ _ re_url_recognizes HN).
Qed.

Lemma homepage_of_spec_witness :
  no_link (td (js "문의 https://a.example/x?y=1 (공식)"))
  /\ UrlAt (js "https") (js "a.example/x?y=1") (js " (공식)")
           (js "https://a.example/x?y=1 (공식)")
  /\ Leftmost IsUrl (js "문의 ") (js "https://a.example/x?y=1 (공식)")
  /\ homepage_of (td (js "문의 https://a.example/x?y=1 (공식)"))
                 (js "문의 https://a.example/x?y=1 (공식)") None
     = Some (js "https" ++ js "://" ++ js "a.example/x?y=1").
Proof.
  assert (H1 : no_link (td (js "문의 https://a.example/x?y=1 (공식)"))).
  { intros href H. discriminate H. }
  assert (H2 : UrlAt (js "https") (js "a.example/x?y=1") (js " (공식)")
                     (js "https://a.example/x?y=1 (공식)")).
  { split; [vm_compute; reflexivity|]. split; [right; reflexivity|].
    split; [vm_compute; reflexivity|]. split; [vm_compute; lia|].
    vm_compute. reflexivity. }
  assert (H3 : Leftmost IsUrl (js "문의 ") (js "https://a.example/x?y=1 (공식)")).
  { eapply (leftmost_by_exec _ _ _ _ _ re_url_recognizes);
      vm_compute; reflexivity. }
  assert (H4 : js "문의 https://a.example/x?y=1 (공식)"
               = js "문의 " ++ js "https://a.example/x?y=1 (공식)")
    by (vm_compute; reflexivity).
  split; [exact H1|]. split; [exact H2|]. split; [exact H3|].
  exact (proj1 (proj2 (homepage_of_spec
                         (td (js "문의 https://a.example/x?y=1 (공식)"))
                         (js "문의 https://a.example/x?y=1 (공식)") None) H1)
               (js "문의 ") (js "https://a.example/x?y=1 (공식)")
               (js "https") (js "a.example/x?y=1") (js " (공식)")
               H4 H2 H3).
Defined.

(** ** Rows in another order *)

Lemma scan_row_assign st tds :
  scan_row st tds
  = match row_field tds with
    | Some f => assign f (last_cell tds) (row_value tds) st
    | None => st
    end.
Proof.
  unfold row_field, scan_row, row_value.
  destruct (List.length tds <? 2)%nat eqn:E; [reflexivity|].
  destruct tds as [|td0 tds]; [discriminate|]. cbn [row_label].
  destruct (clean (cell_text td0)) as [|a l] eqn:El; [reflexivity|].
  cbn [truthy negb]. unfold classify.
  repeat match goal with
         | |- context [includes ?a ?b] => destruct (includes a b)
         end; reflexivity.
Qed.

Lemma assign_comm f g a v b w st :
  f <> g ->
  assign f a v (assign g b w st) = assign g b w (assign f a v st).
Proof. intros H. destruct f, g; try congruence; reflexivity. Qed.

Lemma scan_row_comm st x y :
  (forall f, row_field x = Some f -> row_field y <> Some f) ->
  scan_row (scan_row st x) y = scan_row (scan_row st y) x.
Proof.
  intros H. rewrite !scan_row_assign.
  destruct (row_field x) as [f|]; destruct (row_field y) as [g|];
    try reflexivity.
  apply assign_comm. intros ->. now apply (H f).
Qed.

Lemma fields_of_cons tds doc :
  fields_of (tds :: doc)
  = match row_field tds with Some f => [f] | None => [] end ++ fields_of doc.
Proof. reflexivity. Qed.

Lemma scan_perm doc doc' :
  Permutation doc doc' -> NoDup (fields_of doc) ->
  forall st, fold_left scan_row doc st = fold_left scan_row doc' st.
Proof.
  induction 1 as [|x l l' Hp IH|x y l|l l' l'' H1 IH1 H2 IH2]; intros Hnd st.
  - reflexivity.
  - cbn [fold_left]. apply IH. rewrite fields_of_cons in Hnd.
    now apply NoDup_app_remove_l in Hnd.
  - cbn [fold_left]. f_equal. apply scan_row_comm.
    intros f Hy Hx. rewrite !fields_of_cons, Hy, Hx in Hnd.
    cbn [app] in Hnd. inversion Hnd as [|? ? Hn _]. apply Hn. now left.
  - rewrite IH1 by assumption. apply IH2.
    eapply Permutation_NoDup; [|exact Hnd].
    unfold fields_of. now apply Permutation_flat_map.
Qed.

(** X6. When no field is assigned by two rows, the record does not depend on the
    order of the rows. *)
Theorem fetchRaceDetail_row_order fmt no (doc doc' : document) :
  Permutation doc doc' -> NoDup (fields_of doc) ->
  scan_rows doc = scan_rows doc'
  /\ fetchRaceDetail fmt no doc = fetchRaceDetail fmt no doc'.
Proof.
  intros Hp Hnd.
  assert (Hs : scan_rows doc = scan_rows doc') by (now apply scan_perm).
  split; [exact Hs|]. unfold fetchRaceDetail. rewrite Hs.
  destruct doc as [|x l]; destruct doc' as [|y l']; try reflexivity.
  - apply Permutation_nil in Hp. discriminate.
  - apply Permutation_sym, Permutation_nil in Hp. discriminate.
Qed.

Lemma fetchRaceDetail_row_order_witness :
  Permutation doc_name_date (rev doc_name_date)
  /\ NoDup (fields_of doc_name_date)
  /\ fetchRaceDetail fmt_arg (js "7") doc_name_date
     = fetchRaceDetail fmt_arg (js "7") (rev doc_name_date).
Proof.
  assert (H1 : Permutation doc_name_date (rev doc_name_date))
    by apply Permutation_rev.
  assert (H2 : NoDup (fields_of doc_name_date)).
  { vm_compute. repeat constructor; simpl; intuition discriminate. }
  split; [exact H1|]. split; [exact H2|].
  exact (proj2 (fetchRaceDetail_row_order fmt_arg (js "7") _ _ H1 H2)).
Defined.

(** ** What the record carries *)

Lemma normalized_nil : normalized [].
Proof. repeat split. Qed.

Lemma assign_normalized f a v st :
  normalized v ->
  (forall g, normalized (text_var g st)) ->
  forall g, normalized (text_var g (assign f a v st)).
Proof.
  intros Hv Hst g. destruct g; try apply normalized_nil;
    destruct f; cbn [assign text_var raceName dateRaw courseRaw region venue
                     entryRaw]; auto;
    try apply (Hst FName); try apply (Hst FDate); try apply (Hst FCourse);
    try apply (Hst FRegion); try apply (Hst FVenue); try apply (Hst FEntry).
Qed.

Lemma scan_rows_normalized doc : forall g, normalized (text_var g (scan_rows doc)).
Proof.
  induction doc as [|tds doc IH] using rev_ind.
  - intros g. destruct g; apply normalized_nil.
  - rewrite scan_rows_snoc, scan_row_assign.
    destruct (row_field tds) as [f|]; [|exact IH].
    apply assign_normalized; [|exact IH].
    unfold row_value. apply clean_normalized.
Qed.

Lemma last_not_space : forall a,
  a <> [] -> not_headed_by is_space (rev a) ->
  exists a' c, a = a' ++ [c] /\ is_space c = false.
Proof.
  intros a Hne H. destruct (rev a) as [|c r] eqn:E.
  - apply (f_equal (@rev _)) in E. rewrite rev_involutive in E. simpl in E.
    congruence.
  - exists (rev r), c. split; [|exact H].
    apply (f_equal (@rev _)) in E. rewrite rev_involutive in E. exact E.
Qed.

Lemma collapsed_glue : forall a c b,
  collapsed (a ++ [c]) = true -> is_space c = false ->
  collapsed b = true -> not_headed_by is_space b ->
  collapsed (a ++ [c] ++ ch_space :: b) = true.
Proof.
  induction a as [|x a IH]; intros c b Ha Hc Hb Hh.
  - cbn [app collapsed]. rewrite Hc.
    change (is_space ch_space) with true. rewrite N.eqb_refl.
    destruct b as [|y b]; [reflexivity|]. simpl in Hh. rewrite Hh. exact Hb.
  - cbn [app collapsed] in *. apply andb_true_iff in Ha.
    destruct Ha as [H1 H2]. apply andb_true_iff. split; [|now apply IH].
    destruct (is_space x); [|reflexivity].
    destruct a as [|y a]; exact H1.
Qed.

Lemma normalized_join a b :
  normalized a -> normalized b -> a <> [] -> b <> [] ->
  normalized (a ++ [ch_space] ++ b).
Proof.
  intros (Ca & Ha & La) (Cb & Hb & Lb) Hna Hnb.
  destruct (last_not_space a Hna La) as (a' & c & -> & Hc).
  repeat split.
  - rewrite <- app_assoc. now apply collapsed_glue.
  - destruct a'; exact Ha.
  - rewrite !rev_app_distr. destruct (rev b) as [|y r] eqn:E; [|exact Lb].
    apply (f_equal (@rev _)) in E. rewrite rev_involutive in E. simpl in E.
    congruence.
Qed.

Lemma location_normalized (st : scan) :
  (forall f, normalized (text_var f st)) ->
  normalized (join [ch_space] (filter truthy [region st; venue st])).
Proof.
  intros Hn. pose proof (Hn FRegion) as Hr. pose proof (Hn FVenue) as Hv.
  cbn [text_var] in Hr, Hv.
  destruct (region st) as [|a r] eqn:Er; destruct (venue st) as [|b v] eqn:Ev;
    cbn [filter truthy join]; auto using normalized_nil.
  apply normalized_join; auto; discriminate.
Qed.

Lemma location_joined (st : scan) :
  (venue st = [] ->
   join [ch_space] (filter truthy [region st; venue st]) = region st)
  /\ (region st = [] ->
      join [ch_space] (filter truthy [region st; venue st]) = venue st)
  /\ (region st <> [] -> venue st <> [] ->
      join [ch_space] (filter truthy [region st; venue st])
      = region st ++ [ch_space] ++ venue st).
Proof.
  destruct (region st) as [|a r]; destruct (venue st) as [|b v];
    cbn [filter truthy join]; repeat split; intros; congruence.
Qed.

(** X7. The name, the raw entry period, the region and the venue read from the
    rows are normalized: no white space at the ends and single spaces
    inside. The location of the record is the region and the venue joined
    by exactly one space when both are present, the one that is present
    when the other is empty, and it is normalized as well, so it has no
    stray space. *)
Theorem record_texts_normalized fmt no (doc : document) (rec : EventRecord) :
  fetchRaceDetail fmt no doc = Ok rec ->
  normalized (race_name rec)
  /\ normalized (entry_period_raw rec)
  /\ normalized (location_full rec)
  /\ clean (location_full rec) = location_full rec
  /\ normalized (region (scan_rows doc))
  /\ normalized (venue (scan_rows doc))
  /\ (venue (scan_rows doc) = [] ->
      location_full rec = region (scan_rows doc))
  /\ (region (scan_rows doc) = [] ->
      location_full rec = venue (scan_rows doc))
  /\ (region (scan_rows doc) <> [] -> venue (scan_rows doc) <> [] ->
      location_full rec
      = region (scan_rows doc) ++ [ch_space] ++ venue (scan_rows doc)).
Proof.
  intros H. unfold fetchRaceDetail in H.
  destruct doc as [|r0 doc]; [discriminate|]. inversion H; subst rec; clear H.
  cbn [race_name entry_period_raw location_full].
  set (st := scan_rows (r0 :: doc)).
  pose proof (scan_rows_normalized (r0 :: doc)) as Hn. fold st in Hn.
  pose proof (location_normalized st Hn) as Hl.
  destruct (location_joined st) as (J1 & J2 & J3).
  split; [apply (Hn FName)|]. split; [apply (Hn FEntry)|].
  split; [exact Hl|]. split; [now apply normalized_clean|].
  split; [apply (Hn FRegion)|]. split; [apply (Hn FVenue)|].
  split; [exact J1|]. split; [exact J2 | exact J3].
Qed.

Lemma record_texts_normalized_witness :
  match fetchRaceDetail fmt_arg (js "7") doc_region_venue with
  | Ok rec =>
    location_full rec
    = region (scan_rows doc_region_venue) ++ [ch_space]
      ++ venue (scan_rows doc_region_venue)
    /\ normalized (location_full rec)
    /\ location_full rec = js "서울 상암 월드컵공원"
  | Err _ => False
  end.
Proof.
  destruct (fetchRaceDetail fmt_arg (js "7") doc_region_venue)
    as [rec|msg] eqn:H.
  - assert (Hr : region (scan_rows doc_region_venue) <> [])
      by (vm_compute; discriminate).
    assert (Hv : venue (scan_rows doc_region_venue) <> [])
      by (vm_compute; discriminate).
    pose proof (record_texts_normalized _ _ _ _ H)
      as (_ & _ & Hn & _ & _ & _ & _ & _ & Hj).
    split; [exact (Hj Hr Hv)|]. split; [exact Hn|].
    vm_compute in H. inversion H. reflexivity.
  - discriminate H.
Defined.

(** ** From the record to the property set *)

Lemma replace_first_app x r : forall a b,
  ~ In x a -> replace_first x r (a ++ x :: b) = a ++ r ++ b.
Proof.
  induction a as [|c a IH]; intros b H.
  - cbn [app replace_first]. now rewrite N.eqb_refl.
  - cbn [app replace_first]. destruct (c =? x) eqn:E.
    + apply N.eqb_eq in E. subst c. exfalso. apply H. now left.
    + rewrite IH; [reflexivity|]. intros Hin. apply H. now right.
Qed.

Lemma record_datetime fmt no doc rec :
  fetchRaceDetail fmt no doc = Ok rec ->
  race_datetime rec = raceDatetime_of fmt (dateRaw (scan_rows doc)).
Proof.
  unfold fetchRaceDetail. destruct doc; [discriminate|].
  intros H. inversion H. reflexivity.
Qed.

(** X8. The start sent to the store is the extracted date and time in ISO form
    with the fixed offset: when the date text has a date and its formatted
    form has no space, the property is the date, [T], the time (or 00:00)
    and [+09:00]; when the text has no date the property is absent. *)
Theorem race_start_iso fmt no (doc : document) (rec : EventRecord) :
  fetchRaceDetail fmt no doc = Ok rec ->
  (forall d,
      parseKoreanDate (dateRaw (scan_rows doc)) = Some d ->
      ~ In ch_space (fmt d) ->
      exists t,
        TimeShape t
        /\ race_datetime rec = Some (fmt d ++ js " " ++ t)
        /\ p_Race_DateTime (buildProperties rec)
           = Some (fmt d ++ js "T" ++ t ++ js "+09:00"))
  /\ (parseKoreanDate (dateRaw (scan_rows doc)) = None ->
      p_Race_DateTime (buildProperties rec) = None).
Proof.
  intros H. pose proof (record_datetime _ _ _ _ H) as Hdt.
  rewrite raceDatetime_of_eq in Hdt. split.
  - intros d Hd Hsp. rewrite Hd in Hdt.
    assert (Hex : exists t, TimeShape t
                    /\ race_datetime rec = Some (fmt d ++ [ch_space] ++ t)).
    { destruct (parseTime (dateRaw (scan_rows doc))) as [t0|] eqn:E.
      - exists t0. split; [now apply parseTime_shape in E | exact Hdt].
      - exists (js "00:00"). split; [|exact Hdt].
        exists 48, 48, 48, 48. repeat split. }
    clear Hdt. destruct Hex as (t & Ht & Hdt).
    exists t. split; [exact Ht|]. split; [exact Hdt|].
    unfold buildProperties. cbn [p_Race_DateTime]. rewrite Hdt.
    assert (Htr : truthy (fmt d ++ [ch_space] ++ t) = true)
      by (destruct (fmt d); reflexivity).
    cbn [truthy_opt option_map]. rewrite Htr.
    change ([ch_space] ++ t) with (ch_space :: t).
    rewrite (replace_first_app _ _ _ _ Hsp).
    unfold when_truthy. cbn [truthy_opt].
    assert (Htr2 : truthy ((fmt d ++ js "T" ++ t) ++ js "+09:00") = true).
    { destruct (fmt d); reflexivity. }
    rewrite Htr2. rewrite <- !app_assoc. reflexivity.
  - intros Hd. rewrite Hd in Hdt. unfold buildProperties.
    cbn [p_Race_DateTime]. rewrite Hdt. reflexivity.
Qed.

Lemma race_start_iso_witness :
  parseKoreanDate (dateRaw (scan_rows doc_name_date))
  = Some (dayjs (js "2026-1-11"))
  /\ ~ In ch_space (fmt_arg (dayjs (js "2026-1-11")))
  /\ match fetchRaceDetail fmt_arg (js "7") doc_name_date with
     | Ok rec =>
       exists t,
         TimeShape t
         /\ race_datetime rec = Some (js "2026-1-11" ++ js " " ++ t)
         /\ p_Race_DateTime (buildProperties rec)
            = Some (js "2026-1-11" ++ js "T" ++ t ++ js "+09:00")
     | Err _ => False
     end.
Proof.
  assert (H1 : parseKoreanDate (dateRaw (scan_rows doc_name_date))
               = Some (dayjs (js "2026-1-11"))) by reflexivity.
  assert (H2 : ~ In ch_space (fmt_arg (dayjs (js "2026-1-11")))).
  { intros H. vm_compute in H. intuition discriminate. }
  split; [exact H1|]. split; [exact H2|].
  destruct (fetchRaceDetail fmt_arg (js "7") doc_name_date) as [rec|msg] eqn:H.
  - exact (proj1 (race_start_iso fmt_arg (js "7") doc_name_date rec H)
                 (dayjs (js "2026-1-11")) H1 H2).
  - discriminate H.
Defined.

Lemma when_truthy_nonempty o : present_nonempty (when_truthy o).
Proof.
  intros u H. unfold when_truthy in H. destruct o as [[|c s]|]; simpl in H;
    try discriminate. inversion H. discriminate.
Qed.

Lemma normalized_placeholder : normalized placeholder_title.
Proof. repeat split. Qed.

(** X9. The property set built from an extracted record is well formed: the
    title is never empty, every category tag is non-empty and free of commas,
    the location is normalized, and no optional property is present with an
    empty value. *)
Theorem extracted_properties_wellformed fmt no (doc : document)
        (rec : EventRecord) :
  fetchRaceDetail fmt no doc = Ok rec ->
  p_Name (buildProperties rec) <> []
  /\ normalized (p_Name (buildProperties rec))
  /\ Forall tag_ok (p_Course (buildProperties rec))
  /\ normalized (p_Location (buildProperties rec))
  /\ present_nonempty (p_Race_DateTime (buildProperties rec))
  /\ present_nonempty (p_Entry_Start (buildProperties rec))
  /\ present_nonempty (p_Entry_End (buildProperties rec))
  /\ present_nonempty (p_URL (buildProperties rec)).
Proof.
  intros H.
  assert (Hc : course rec = normalizeCourse (courseRaw (scan_rows doc))).
  { unfold fetchRaceDetail in H. destruct doc; [discriminate|].
    inversion H. reflexivity. }
  assert (Hn : normalized (race_name rec)).
  { unfold fetchRaceDetail in H. destruct doc as [|r0 doc]; [discriminate|].
    inversion H. cbn [race_name].
    exact (scan_rows_normalized (r0 :: doc) FName). }
  assert (Hl : normalized (location_full rec)).
  { unfold fetchRaceDetail in H. destruct doc as [|r0 doc]; [discriminate|].
    inversion H. cbn [location_full].
    exact (location_normalized _ (scan_rows_normalized (r0 :: doc))). }
  unfold buildProperties.
  cbn [p_Name p_Course p_Location p_Race_DateTime p_Entry_Start p_Entry_End
       p_URL].
  split; [unfold or_default; destruct (race_name rec); discriminate|].
  split.
  { unfold or_default. destruct (race_name rec) eqn:E; cbn [truthy].
    - exact normalized_placeholder.
    - exact Hn. }
  split; [rewrite map_id, Hc; apply normalizeCourse_tag_ok|].
  split.
  { unfold or_default. destruct (location_full rec) eqn:E; cbn [truthy].
    - exact normalized_nil.
    - exact Hl. }
  repeat split; apply when_truthy_nonempty.
Qed.

Lemma extracted_properties_wellformed_witness :
  match fetchRaceDetail fmt_arg (js "7")
          [ [td (js "대회종목"); td (js "풀, ,10 km,,하프")] ] with
  | Ok rec => p_Name (buildProperties rec) <> []
              /\ Forall tag_ok (p_Course (buildProperties rec))
  | Err _ => False
  end.
Proof.
  destruct (fetchRaceDetail fmt_arg (js "7")
              [ [td (js "대회종목"); td (js "풀, ,10 km,,하프")] ])
    as [rec|msg] eqn:H.
  - pose proof (extracted_properties_wellformed _ _ _ _ H) as Hw.
    exact (conj (proj1 Hw) (proj1 (proj2 (proj2 Hw)))).
  - discriminate H.
Defined.

(** ** The requests of one upsert *)

Lemma token_absent_none cfg : NOTION_TOKEN cfg = None -> token_absent cfg.
Proof. unfold token_absent. now intros ->. Qed.

Lemma token_absent_empty cfg tk :
  NOTION_TOKEN cfg = Some tk -> truthy tk = false -> token_absent cfg.
Proof. unfold token_absent. intros -> H. exact H. Qed.

Lemma upsert_trace_of {W} (api : StoreApi W) (cfg : config)
        (race : EventRecord) (e : env W) :
  exists l,
    calls (snd (upsertRaceToNotion api cfg race e)) = calls e ++ l
    /\ upsert_trace cfg race l
    /\ (List.length l <= 2)%nat.
Proof.
  unfold upsertRaceToNotion, queryByRaceName, bind, fetch_query,
    res_json_call, pages_update, pages_create, console_out, ret, throw.
  destruct (DB_ID cfg) as [db|] eqn:Edb;
    [|exists []; rewrite app_nil_r; repeat split; [now left | simpl; lia]].
  destruct (truthy db) eqn:Etd;
    [|exists []; rewrite app_nil_r; repeat split; [now left | simpl; lia]].
  destruct (NOTION_TOKEN cfg) as [tk|] eqn:Etk.
  - destruct (truthy tk) eqn:Ett.
    + repeat match goal with
             | |- context [match ?x with _ => _ end] =>
               match x with
               | context [match _ with _ => _ end] => fail 1
               | _ => destruct x eqn:?
               end
             | |- context [if ?x then _ else _] => destruct x eqn:?
             end;
        cbn [snd calls]; rewrite <- ?app_assoc; eexists;
        (split; [reflexivity|]); (split; [|simpl; lia]);
        right; exists db; repeat split; auto; left; exists tk;
        repeat split; auto; cbn [app]; eauto.
    + cbn [snd calls world].
      destruct (api_create api db (buildProperties race) (world e)) as [[r|] w1];
        cbn [snd calls]; eexists; (split; [reflexivity|]);
        (split; [|simpl; lia]); right; exists db; repeat split; auto; right;
        split; auto; eapply token_absent_empty; eauto.
  - cbn [snd calls world].
    destruct (api_create api db (buildProperties race) (world e)) as [[r|] w1];
      cbn [snd calls]; eexists; (split; [reflexivity|]);
      (split; [|simpl; lia]); right; exists db; repeat split; auto; right;
      split; auto; now apply token_absent_none.
Qed.

Lemma upsert_trace_length cfg race l :
  upsert_trace cfg race l -> (List.length l <= 2)%nat.
Proof.
  intros [->|(db & _ & _ & [(tk & _ & _ & [->|[(pid & ->)| ->]])|(_ & ->)])];
    simpl; lia.
Qed.

Lemma upsert_query_first {W} (api : StoreApi W) (cfg : config)
      (db token : jsstr) (race : EventRecord) (e : env W) :
  configured cfg db token ->
  exists rest,
    calls (snd (upsertRaceToNotion api cfg race e))
    = calls e ++ ReqQuery db token (race_name race) :: rest
    /\ (List.length rest <= 1)%nat.
Proof.
  intros (H1 & H2 & H3 & H4).
  unfold upsertRaceToNotion, queryByRaceName, bind, fetch_query,
    res_json_call, pages_update, pages_create, console_out, ret, throw.
  rewrite H1, H2, H3, H4.
  repeat match goal with
         | |- context [match ?x with _ => _ end] =>
           match x with
           | context [match _ with _ => _ end] => fail 1
           | _ => destruct x eqn:?
           end
         | |- context [if ?x then _ else _] => destruct x eqn:?
         end;
    cbn [snd calls]; rewrite <- ?app_assoc; cbn [app]; eexists;
    (split; [reflexivity | simpl; lia]).
Qed.

(** X10. One upsert sends at most two requests, always in one of four shapes;
    all of them carry the configured identifiers, the record's name and the
    record's mapped properties, and a write never precedes the query. *)
Theorem upsert_requests_shape {W} (api : StoreApi W) (cfg : config)
        (race : EventRecord) (e : env W) :
  exists l,
    calls (snd (upsertRaceToNotion api cfg race e)) = calls e ++ l
    /\ upsert_trace cfg race l
    /\ (List.length l <= 2)%nat.
Proof.
  destruct (upsert_trace_of api cfg race e) as (l & Hc & Ht & _).
  exists l. split; [exact Hc|]. split; [exact Ht|].
  exact (upsert_trace_length cfg race l Ht).
Qed.

(** X11. With a collection identifier but without a token the upsert is not a
    no-op: the query is skipped, nothing is found, and a create is sent
    whose outcome is the outcome of the upsert. *)
Theorem upsert_without_token {W} (api : StoreApi W) (cfg : config)
        (race : EventRecord) (e : env W) (db : jsstr) :
  DB_ID cfg = Some db -> truthy db = true -> token_absent cfg ->
  calls (snd (upsertRaceToNotion api cfg race e))
  = calls e ++ [ReqCreate db (buildProperties race)]
  /\ fst (upsertRaceToNotion api cfg race e)
     = sdk_to_outcome
         (fst (api_create api db (buildProperties race) (world e))).
Proof.
  intros H1 H2 H3.
  destruct (query_token_absent api cfg (race_name race) e H3) as (Q1 & Q2 & Q3).
  destruct (queryByRaceName api cfg (race_name race) e) as [o e1] eqn:HQ.
  simpl in Q1, Q2, Q3. subst o.
  destruct (upsert_after_query api cfg db race e [] e1 H1 H2 HQ)
    as (Ho & Hc & _).
  rewrite Ho, Hc, Q2, Q3. split; reflexivity.
Qed.

Lemma upsert_without_token_witness :
  token_absent cfg_no_token
  /\ calls (snd (upsertRaceToNotion store_api cfg_no_token
                   (race_of (js "서울마라톤"))
                   (env0 [page_of (js "p1") (js "서울마라톤")])))
     = [ReqCreate (js "db1") (buildProperties (race_of (js "서울마라톤")))].
Proof.
  assert (H : token_absent cfg_no_token) by reflexivity.
  split; [exact H|].
  exact (proj1 (upsert_without_token store_api cfg_no_token
                  (race_of (js "서울마라톤"))
                  (env0 [page_of (js "p1") (js "서울마라톤")])
                  (js "db1") eq_refl eq_refl H)).
Defined.

(** ** Upserting twice into the store model *)

Lemma filter_map_keep {A} (p : A -> bool) (f : A -> A) : forall l,
  (forall x, In x l -> p (f x) = p x) ->
  filter p (map f l) = map f (filter p l).
Proof.
  induction l as [|x l IH]; intros H; [reflexivity|].
  cbn [map filter]. rewrite (H x (or_introl eq_refl)).
  rewrite IH by (intros y Hy; apply H; now right).
  destruct (p x); reflexivity.
Qed.

Lemma put_put pid props p : put pid props (put pid props p) = put pid props p.
Proof.
  unfold put. destruct (jsstr_eqb (page_id p) pid) eqn:E.
  - cbn [page_id]. now rewrite jsstr_eqb_refl.
  - now rewrite E.
Qed.

Lemma store_update_put pid props st :
  snd (store_update pid props st) = map (put pid props) st.
Proof. reflexivity. Qed.

Lemma store_create_then_update cfg db token race st :
  configured cfg db token -> race_name race <> [] ->
  ~ In (race_name race) (titles st) ->
  store_after cfg race st
  = st ++ [{| page_id := fresh_id st; page_props := buildProperties race |}]
  /\ store_after cfg race
       (st ++ [{| page_id := fresh_id st;
                  page_props := buildProperties race |}])
     = st ++ [{| page_id := fresh_id st; page_props := buildProperties race |}].
Proof.
  intros Hc Hn Hnew.
  destruct (store_upsert cfg db token race st Hc) as [_ S1].
  rewrite (not_in_matching _ _ Hnew) in S1.
  cbn [write_result store_api api_create store_create snd] in S1.
  set (p1 := {| page_id := fresh_id st; page_props := buildProperties race |})
    in *.
  split; [exact S1|].
  assert (Hm : matching (race_name race) (st ++ [p1]) = [p1]).
  { unfold matching. rewrite filter_app. fold (matching (race_name race) st).
    rewrite (not_in_matching _ _ Hnew). cbn [filter app].
    unfold page_title at 1. cbn [p1 page_props].
    rewrite (name_title race Hn), jsstr_eqb_refl. reflexivity. }
  destruct (store_upsert cfg db token race (st ++ [p1]) Hc) as [_ S2].
  rewrite Hm in S2. cbn [write_result store_api api_update] in S2.
  rewrite S2. cbn [store_update snd p1 page_id]. rewrite map_app.
  pose proof (update_other st (fresh_id st) (buildProperties race)
                           (fresh_id_fresh st)) as Hst.
  cbn [store_update snd] in Hst. rewrite Hst.
  cbn [map page_id]. rewrite jsstr_eqb_refl. reflexivity.
Qed.

(** X12. In the store model an upsert of a record with a non-empty name, done
    twice in a row, leaves the store as the first one left it. *)
Theorem upsert_store_idempotent (cfg : config) (db token : jsstr)
        (race : EventRecord) (st : store) :
  configured cfg db token -> race_name race <> [] -> NoDup (ids st) ->
  store_after cfg race (store_after cfg race st) = store_after cfg race st.
Proof.
  intros Hc Hn Hnd.
  destruct (matching (race_name race) st) as [|p0 l] eqn:Em.
  - apply matching_nil in Em.
    destruct (store_create_then_update cfg db token race st Hc Hn Em)
      as [S1 S2].
    rewrite S1. exact S2.
  - pose proof (matching_head _ _ _ _ Em) as [Hin Ht].
    destruct (store_upsert cfg db token race st Hc) as [_ S1].
    rewrite Em in S1. cbn [write_result store_api api_update] in S1.
    rewrite store_update_put in S1.
    assert (Hm : matching (race_name race) (map (put (page_id p0)
                                                     (buildProperties race)) st)
                 = map (put (page_id p0) (buildProperties race)) (p0 :: l)).
    { unfold matching. rewrite <- Em. unfold matching.
      apply filter_map_keep. intros p Hp. unfold put.
      destruct (jsstr_eqb (page_id p) (page_id p0)) eqn:E; [|reflexivity].
      apply jsstr_eqb_eq in E.
      assert (p = p0) by (eapply NoDup_map_eq; eauto). subst p.
      unfold page_title. cbn [page_props]. rewrite (name_title race Hn).
      fold (page_title p0). rewrite Ht. reflexivity. }
    destruct (store_upsert cfg db token race (store_after cfg race st) Hc)
      as [_ S2].
    rewrite S1 in S2 at 2 3. rewrite Hm in S2.
    cbn [map write_result store_api api_update] in S2.
    rewrite store_update_put in S2.
    assert (Hid : page_id (put (page_id p0) (buildProperties race) p0)
                  = page_id p0).
    { unfold put. rewrite jsstr_eqb_refl. reflexivity. }
    rewrite Hid in S2. rewrite S2, S1. rewrite map_map.
    apply map_ext. intros p. apply put_put.
Qed.

Lemma upsert_store_idempotent_witness :
  store_after cfg_ok (race_of (js "a"))
    (store_after cfg_ok (race_of (js "a")) [page_of (js "p1") (js "b")])
  = store_after cfg_ok (race_of (js "a")) [page_of (js "p1") (js "b")].
Proof.
  apply (upsert_store_idempotent cfg_ok (js "db1") (js "secret_token")).
  - repeat split.
  - discriminate.
  - repeat constructor. simpl. tauto.
Defined.

(** ** Listing identifiers *)

Lemma view_here_complete d rest t :
  ViewAt d rest t -> match_here re_view_no t = Some (rest, [(1%nat, d)]).
Proof.
  intros (-> & Hd & Hl & Hr).
  unfold match_here, re_view_no, digits. cbn [rmatch]. rewrite Lit_match.
  fold s_view. rewrite starts_with_app, skipn_app_len.
  apply rep_span; auto.
  - right. split; [exact I | exact Hr].
  - now rewrite firstn_app_len.
Qed.

Lemma view_here_sound t rest c :
  match_here re_view_no t = Some (rest, c) ->
  exists d, ViewAt d rest t /\ c = [(1%nat, d)].
Proof.
  intros H. pose proof H as H0. unfold match_here, re_view_no in H.
  cbn [rmatch] in H. rewrite Lit_match in H. fold s_view in H.
  destruct (starts_with s_view t) eqn:Es; [|discriminate].
  apply starts_with_split in Es.
  remember (skipn (List.length s_view) t) as u eqn:Hu. clear Hu. subst t.
  apply rep_sound in H. destruct H as (d & s' & -> & Hd & Hl & _ & Hk).
  rewrite firstn_app_len in Hk. inversion Hk; subst s' c; clear Hk.
  destruct (drop_while_spec is_digit rest) as (d2 & He & Hd2 & Hr2).
  set (rest2 := drop_while is_digit rest) in *. clearbody rest2.
  assert (HV : ViewAt (d ++ d2) rest2 (s_view ++ d ++ rest)).
  { repeat split; auto.
    - rewrite He at 1. now rewrite <- app_assoc.
    - unfold all in *. rewrite forallb_app, Hd, Hd2. reflexivity.
    - rewrite length_app. lia. }
  apply view_here_complete in HV. rewrite HV in H0. inversion H0 as [[Hr Hc]].
  assert (d2 = []).
  { rewrite <- Hr in He. apply (f_equal (@List.length _)) in He.
    rewrite length_app in He. destruct d2; [reflexivity | simpl in He; lia]. }
  subst d2. rewrite app_nil_r in *. exists d. split; [|reflexivity].
  repeat split; auto. rewrite <- Hr. exact Hr2.
Qed.

Lemma re_view_no_recognizes : Recognizes re_view_no IsView.
Proof.
  intros t. split.
  - intros (d & rest & H). rewrite (view_here_complete _ _ _ H). discriminate.
  - destruct (match_here re_view_no t) as [[rest c]|] eqn:E; [|congruence].
    intros _. apply view_here_sound in E. destruct E as (d & H & _).
    exists d, rest. exact H.
Qed.

Lemma existsb_eqb_In x l : existsb (jsstr_eqb x) l = true <-> In x l.
Proof.
  rewrite existsb_exists. split.
  - intros (y & Hy & E). apply jsstr_eqb_eq in E. now subst.
  - intros H. exists x. split; [exact H | apply jsstr_eqb_refl].
Qed.

Lemma set_add_In x nos : In x (set_add x nos).
Proof.
  unfold set_add. destruct (existsb (jsstr_eqb x) nos) eqn:E.
  - now apply existsb_eqb_In.
  - apply in_or_app. right. now left.
Qed.

Lemma set_add_NoDup x nos : NoDup nos -> NoDup (set_add x nos).
Proof.
  intros H. unfold set_add. destruct (existsb (jsstr_eqb x) nos) eqn:E; auto.
  apply NoDup_snoc; auto. intros Hin. apply existsb_eqb_In in Hin. congruence.
Qed.

Lemma set_add_extends x nos :
  exists l, set_add x nos = nos ++ l /\ (l = [] \/ l = [x]).
Proof.
  unfold set_add. destruct (existsb (jsstr_eqb x) nos).
  - exists []. rewrite app_nil_r. auto.
  - exists [x]. auto.
Qed.

(** What one anchor contributes: nothing, or the identifier of the leftmost
    [view.php?no=<digits>] in its link target. *)
Lemma collect_no_cases nos a :
  collect_no nos a = nos
  \/ exists href pre d rest,
       a = Some href /\ href = pre ++ s_view ++ d ++ rest
       /\ ViewAt d rest (s_view ++ d ++ rest)
       /\ Leftmost IsView pre (s_view ++ d ++ rest)
       /\ collect_no nos a = set_add d nos.
Proof.
  unfold collect_no. destruct a as [href|]; [|now left].
  destruct (includes href (js "view.php?no=")); [|now left].
  assert (Ho : or_default href [] = href) by (destruct href; reflexivity).
  rewrite Ho.
  destruct (rexec re_view_no href) as [m|] eqn:E; [|now left].
  unfold rexec in E. apply rexec_from_some in E.
  destruct E as (p & t & Hs & Hm & _ & _ & Hno).
  apply view_here_sound in Hm. destruct Hm as (d & HV & Hc).
  unfold group. rewrite Hc. cbn [cap Nat.eqb].
  right. pose proof HV as (Ht & _). subst t.
  exists href, p, d, (m_after m). repeat split; auto.
  - destruct HV as (_ & H & _). exact H.
  - destruct HV as (_ & _ & H & _). exact H.
  - destruct HV as (_ & _ & _ & H). exact H.
  - intros p1 p2 Hp Hne HP. apply re_view_no_recognizes in HP.
    apply HP. eapply Hno; eauto.
Qed.

Lemma collect_no_found nos href pre t d rest :
  href = pre ++ t -> ViewAt d rest t -> Leftmost IsView pre t ->
  collect_no nos (Some href) = set_add d nos.
Proof.
  intros -> HV HL. unfold collect_no.
  assert (Hi : includes (pre ++ t) (js "view.php?no=") = true).
  { apply includes_spec. destruct HV as (-> & _). exists pre, (d ++ rest).
    reflexivity. }
  rewrite Hi.
  assert (Ho : or_default (pre ++ t) [] = pre ++ t)
    by (destruct (pre ++ t); reflexivity).
  rewrite Ho.
  rewrite (rexec_leftmost _ _ _ _ _ _ re_view_no_recognizes
                          (view_here_complete _ _ _ HV) HL).
  reflexivity.
Qed.

Lemma collect_fold : forall anchors nos,
  NoDup nos ->
  exists l,
    fold_left collect_no anchors nos = nos ++ l
    /\ NoDup (nos ++ l)
    /\ Forall (listed anchors) l.
Proof.
  induction anchors as [|a anchors IH]; intros nos Hnd.
  - exists []. rewrite app_nil_r. repeat split; auto.
  - cbn [fold_left].
    assert (Hstep : exists l0, collect_no nos a = nos ++ l0
                      /\ NoDup (nos ++ l0) /\ Forall (listed (a :: anchors)) l0).
    { destruct (collect_no_cases nos a) as [-> | H].
      - exists []. rewrite app_nil_r. auto.
      - destruct H as (href & pre & d & rest & -> & Hh & HV & HL & ->).
        destruct (set_add_extends d nos) as (l0 & He & Hl0).
        exists l0. split; [exact He|]. split.
        + rewrite <- He. now apply set_add_NoDup.
        + destruct Hl0 as [-> | ->]; constructor; auto.
          exists href, pre, rest. repeat split; auto; try apply HV.
          now left. }
    destruct Hstep as (l0 & He & Hn0 & Hf0). rewrite He.
    destruct (IH (nos ++ l0) Hn0) as (l1 & He1 & Hn1 & Hf1).
    exists (l0 ++ l1). rewrite He1, app_assoc. repeat split; auto.
    apply Forall_app. split; [exact Hf0|].
    eapply Forall_impl; [|exact Hf1].
    intros n (href & pre & rest & Hin & H). exists href, pre, rest.
    split; [now right | exact H].
Qed.

Lemma fold_collect_keeps : forall anchors nos n,
  In n nos -> In n (fold_left collect_no anchors nos).
Proof.
  induction anchors as [|a anchors IH]; intros nos n H; [exact H|].
  cbn [fold_left]. apply IH.
  destruct (collect_no_cases nos a) as [-> | (h & p & d & r & _ & _ & _ & _ & ->)];
    auto.
  destruct (set_add_extends d nos) as (l & -> & _). apply in_or_app. now left.
Qed.

Lemma listed_collected anchors nos n :
  listed anchors n -> In n (fold_left collect_no anchors nos).
Proof.
  intros (href & pre & rest & Hin & Hh & HV & HL). revert nos.
  induction anchors as [|a anchors IH]; intros nos; [contradiction|].
  cbn [fold_left]. destruct Hin as [-> | Hin]; [|now apply IH].
  assert (G : forall x, x = set_add n nos ->
                        In n (fold_left collect_no anchors x)).
  { intros x ->. apply fold_collect_keeps, set_add_In. }
  apply G. exact (collect_no_found nos href pre _ n rest Hh HV HL).
Qed.

Lemma collect_nos_parts (page : html) (nos : list jsstr) :
  NoDup nos ->
  exists l,
    collect_nos page nos = nos ++ l
    /\ NoDup (collect_nos page nos)
    /\ Forall is_no l.
Proof.
  intros Hnd. unfold collect_nos.
  destruct (collect_fold (html_anchors page) nos Hnd) as (l & He & Hn & Hf).
  exists l. rewrite He. repeat split; auto.
  eapply Forall_impl; [|exact Hf].
  intros n (href & pre & rest & _ & _ & (_ & Hd & Hl & _) & _).
  split; [exact Hd|]. intros ->. simpl in Hl. lia.
Qed.

(** X13. The identifiers collected from a listing page extend the ones found so
    far, have no duplicates, are non-empty digit strings, and the new ones
    are exactly the digit runs after the leftmost [view.php?no=] followed by
    a digit in some anchor's link target. *)
Theorem collect_nos_spec (page : html) (nos : list jsstr) :
  NoDup nos ->
  exists l,
    collect_nos page nos = nos ++ l
    /\ NoDup (collect_nos page nos)
    /\ Forall is_no l
    /\ (forall n, In n l -> listed (html_anchors page) n)
    /\ (forall n, listed (html_anchors page) n -> In n (collect_nos page nos)).
Proof.
  intros Hnd. unfold collect_nos.
  destruct (collect_fold (html_anchors page) nos Hnd) as (l & He & Hn & Hf).
  exists l. rewrite He. repeat split; auto.
  - eapply Forall_impl; [|exact Hf].
    intros n (href & pre & rest & _ & _ & (_ & Hd & Hl & _) & _).
    split; [exact Hd|]. intros ->. simpl in Hl. lia.
  - now apply Forall_forall.
  - intros n Hl. rewrite <- He. now apply listed_collected.
Qed.

Lemma collect_nos_spec_witness :
  exists l,
    collect_nos page_listing [js "41"] = [js "41"] ++ l
    /\ NoDup (collect_nos page_listing [js "41"])
    /\ Forall is_no l
    /\ (forall n, In n l -> listed (html_anchors page_listing) n)
    /\ (forall n, listed (html_anchors page_listing) n ->
                  In n (collect_nos page_listing [js "41"])).
Proof.
  apply (collect_nos_spec page_listing [js "41"]).
  repeat constructor. simpl. tauto.
Defined.

(** ** fetchListNos and main *)

Section PipelineFacts.
Context {W : Type}.
Variable transport : jsstr -> result html.
Variable fmt : Dayjs -> jsstr.
Variable api : StoreApi W.
Variable cfg : config.
Variable writeResults : list EventRecord -> result unit.
Variable outPath : jsstr.
Variable inspect : jsstr -> jsstr.

Lemma collect_nos_ok page nos :
  NoDup nos -> Forall is_no nos ->
  NoDup (collect_nos page nos) /\ Forall is_no (collect_nos page nos).
Proof.
  intros Hn Hf. destruct (collect_nos_parts page nos Hn) as (l & He & Hn' & Hl).
  split; [exact Hn'|]. rewrite He. apply Forall_app. auto.
Qed.

Lemma collect_nos_In page nos n :
  NoDup nos ->
  In n (collect_nos page nos) <-> In n nos \/ listed (html_anchors page) n.
Proof.
  intros Hn. unfold collect_nos. split.
  - destruct (collect_fold (html_anchors page) nos Hn) as (l & He & _ & Hl).
    rewrite He. intros H. apply in_app_or in H. destruct H as [H|H]; [now left|].
    right. rewrite Forall_forall in Hl. now apply Hl.
  - intros [H|H]; [now apply fold_collect_keeps | now apply listed_collected].
Qed.

Lemma list_loop_calls : forall years nos (e : env W),
  calls (snd (list_loop transport years nos e)) = calls e
  /\ world (snd (list_loop transport years nos e)) = world e.
Proof.
  induction years as [|y years IH]; intros nos e.
  - cbn. split; reflexivity.
  - cbn [list_loop]. unfold bind, console_out, fetchHtml.
    destruct (transport (list_url y)) as [page|reason].
    + cbn [fst snd].
      match goal with
      | |- context [list_loop transport years ?n ?x] =>
        destruct (IH n x) as (H1 & H2)
      end.
      split; [exact H1 | exact H2].
    + cbn. split; reflexivity.
Qed.

Lemma list_loop_ok : forall years nos (e : env W),
  (forall y, In y years -> exists page, transport (list_url y) = Ok page) ->
  NoDup nos -> Forall is_no nos ->
  exists nos',
    fst (list_loop transport years nos e) = Returned nos'
    /\ NoDup nos' /\ Forall is_no nos'
    /\ (forall n, In n nos' <-> In n nos \/ listed_in transport years n).
Proof.
  induction years as [|y years IH]; intros nos e Hy Hn Hf.
  - exists nos. cbn. repeat split; auto.
    intros [H|(y & p & [] & _)]. exact H.
  - cbn [list_loop]. unfold bind, console_out, fetchHtml.
    destruct (Hy y (or_introl eq_refl)) as (page & Hp). rewrite Hp.
    cbn [fst snd].
    destruct (collect_nos_ok page nos Hn Hf) as [Hn1 Hf1].
    match goal with
    | |- context [list_loop transport years ?n ?x] =>
      destruct (IH n x (fun y' H' => Hy y' (or_intror H')) Hn1 Hf1)
        as (nos' & H1 & H2 & H3 & H4)
    end.
    exists nos'. split; [exact H1|]. split; [exact H2|]. split; [exact H3|].
    intros n. rewrite H4, (collect_nos_In page nos n Hn). split.
    + intros [[H|H]|(y' & p' & Hi & Ht & Hl)].
      * now left.
      * right. exists y, page. repeat split; auto. now left.
      * right. exists y', p'. repeat split; auto. now right.
    + intros [H|(y' & p' & [Hi|Hi] & Ht & Hl)].
      * left. now left.
      * subst y'. rewrite Hp in Ht. inversion Ht; subst p'. left. now right.
      * right. exists y', p'. repeat split; auto.
Qed.

Lemma list_loop_fail : forall years nos (e : env W) y reason,
  In y years -> transport (list_url y) = Err reason ->
  exists r, fst (list_loop transport years nos e) = Thrown r.
Proof.
  induction years as [|y0 years IH]; intros nos e y reason Hi Ht; [contradiction|].
  cbn [list_loop]. unfold bind, console_out, fetchHtml.
  destruct (transport (list_url y0)) as [page|r0] eqn:E.
  - cbn [fst snd]. destruct Hi as [->|Hi]; [rewrite E in Ht; discriminate|].
    eapply IH; eauto.
  - exists r0. reflexivity.
Qed.

Lemma fetchListNos_fst years (e : env W) :
  fst (fetchListNos transport years e)
  = fst (list_loop transport years [] e).
Proof.
  unfold fetchListNos, bind, console_out, ret.
  destruct (list_loop transport years [] e) as [[nos|r] e1]; reflexivity.
Qed.

Lemma fetchListNos_calls years (e : env W) :
  calls (snd (fetchListNos transport years e)) = calls e.
Proof.
  destruct (list_loop_calls years [] e) as [H _]. revert H.
  unfold fetchListNos, bind, console_out, ret.
  destruct (list_loop transport years [] e) as [[nos|r] e1]; cbn; auto.
Qed.

(** X14. fetchListNos: sends nothing to the store; when every listing page is
    fetched it returns, without repetition, exactly the digit strings linked
    from those pages; when one page fails the whole call throws. *)
Theorem fetchListNos_spec years (e : env W) :
  calls (snd (fetchListNos transport years e)) = calls e
  /\ ((forall y, In y years -> exists page, transport (list_url y) = Ok page) ->
      exists nos,
        fst (fetchListNos transport years e) = Returned nos
        /\ NoDup nos /\ Forall is_no nos
        /\ (forall n, In n nos <-> listed_in transport years n))
  /\ (forall y reason,
         In y years -> transport (list_url y) = Err reason ->
         exists r, fst (fetchListNos transport years e) = Thrown r).
Proof.
  split; [apply fetchListNos_calls|]. rewrite fetchListNos_fst. split.
  - intros Hy.
    destruct (list_loop_ok years [] e Hy (NoDup_nil _) (Forall_nil _))
      as (nos & H1 & H2 & H3 & H4).
    exists nos. repeat split; auto.
    + intros H. apply H4 in H. destruct H as [[]|H]. exact H.
    + intros H. apply H4. now right.
  - intros y reason. apply list_loop_fail.
Qed.

Lemma fetchListNos_YEARS (e : env W) :
  exists e1,
    fetchListNos transport YEARS e
    = (match transport (list_url 2026) with
       | Ok page => Returned (collect_nos page [])
       | Err reason => Thrown reason
       end, e1)
    /\ calls e1 = calls e.
Proof.
  unfold fetchListNos, YEARS, bind. cbn [list_loop].
  unfold bind, console_out, fetchHtml, ret.
  destruct (transport (list_url 2026)); eexists; split; reflexivity.
Qed.

Section Traces.
Variable P : EventRecord -> list request -> Prop.
Hypothesis HP : forall race (e : env W),
  exists l,
    calls (snd (upsertRaceToNotion api cfg race e)) = calls e ++ l
    /\ P race l.

Lemma detail_step no results (e : env W) :
  exists ls e1,
    try_catch
      (race <- fetchRaceDetail_page transport fmt no ;;
       try_catch
         (upsertRaceToNotion api cfg race ;;; ret (results ++ [race]))
         (fun reason =>
            log_detail_error no reason ;;; ret (results ++ [race])))
      (fun reason => log_detail_error no reason ;;; ret results) e
    = (Returned (results ++ extract transport fmt no), e1)
    /\ calls e1 = calls e ++ List.concat ls
    /\ Forall2 P (extract transport fmt no) ls.
Proof.
  unfold extract, try_catch, fetchRaceDetail_page, bind, console_out,
    fetchHtml, log_detail_error, ret, throw.
  destruct (transport (detail_url no)) as [page|reason].
  - destruct (fetchRaceDetail fmt no (html_rows page)) as [race|msg].
    + cbv beta iota.
      match goal with
      | |- context [upsertRaceToNotion api cfg race ?x] =>
        assert (Hc0 : calls x = calls e) by reflexivity; set (e0 := x) in *
      end.
      destruct (HP race e0) as (l & Hl & Ht).
      destruct (upsertRaceToNotion api cfg race e0) as [[u|r] e1] eqn:E;
        cbn [snd] in Hl; rewrite Hc0 in Hl; exists [l]; eexists;
        (split; [reflexivity|]);
        cbn [calls List.concat]; rewrite app_nil_r; (split; [exact Hl|]);
        (constructor; [exact Ht | constructor]).
    + exists []. eexists. split; [rewrite app_nil_r; reflexivity|].
      cbn [calls List.concat]. rewrite app_nil_r. split; [reflexivity | constructor].
  - exists []. eexists. split; [rewrite app_nil_r; reflexivity|].
    cbn [calls List.concat]. rewrite app_nil_r. split; [reflexivity | constructor].
Qed.

Lemma detail_loop_spec : forall nos results (e : env W),
  exists ls,
    fst (detail_loop transport fmt api cfg nos results e)
    = Returned (results ++ flat_map (extract transport fmt) nos)
    /\ calls (snd (detail_loop transport fmt api cfg nos results e))
       = calls e ++ List.concat ls
    /\ Forall2 P (flat_map (extract transport fmt) nos) ls.
Proof.
  induction nos as [|no nos IH]; intros results e.
  - exists []. cbn. rewrite !app_nil_r. repeat split. constructor.
  - destruct (detail_step no results e) as (l1 & e1 & Hs & Hc & Ht).
    assert (Heq : detail_loop transport fmt api cfg (no :: nos) results e
                  = detail_loop transport fmt api cfg nos
                      (results ++ extract transport fmt no) e1).
    { cbn [detail_loop]. unfold bind at 1. rewrite Hs. reflexivity. }
    rewrite Heq. cbn [flat_map].
    destruct (IH (results ++ extract transport fmt no) e1) as (ls & H1 & H2 & H3).
    exists (l1 ++ ls).
    split; [rewrite H1, app_assoc; reflexivity|]. split.
    + rewrite H2, Hc, concat_app, <- app_assoc. reflexivity.
    + now apply Forall2_app.
Qed.

Lemma main_parts (e : env W) :
  exists e' ls,
    main transport fmt api cfg writeResults outPath inspect e
    = (Returned (run_result transport fmt writeResults), e')
    /\ calls e' = calls e ++ List.concat ls
    /\ Forall2 P (run_records transport fmt) ls.
Proof.
  unfold main, run_result, run_records, try_catch. unfold bind at 1.
  destruct (fetchListNos_YEARS e) as (e1 & He & Hc). rewrite He.
  destruct (transport (list_url 2026)) as [page|reason].
  - unfold bind at 1.
    destruct (detail_loop_spec (collect_nos page []) [] e1) as (ls & H1 & H2 & H3).
    destruct (detail_loop transport fmt api cfg (collect_nos page []) [] e1)
      as [[results|r] e2]; cbn [fst snd] in H1, H2; [|discriminate].
    inversion H1; subst results. cbn [app].
    unfold bind, save, console_out, ret.
    destruct (writeResults (flat_map (extract transport fmt) (collect_nos page []))) as [u|r];
      eexists; exists ls; (split; [reflexivity|]); cbn [calls];
      (split; [rewrite H2, Hc; reflexivity | exact H3]).
  - unfold bind, console_out, ret.
    eexists. exists []. split; [reflexivity|]. cbn [calls List.concat].
    rewrite app_nil_r. split; [exact Hc | constructor].
Qed.

End Traces.

Lemma upsert_trace_ex (race : EventRecord) (e : env W) :
  exists l,
    calls (snd (upsertRaceToNotion api cfg race e)) = calls e ++ l
    /\ upsert_trace cfg race l.
Proof.
  destruct (upsert_trace_of api cfg race e) as (l & H1 & H2 & _). eauto.
Qed.

Lemma upsert_trace_db_absent race l :
  db_absent cfg -> upsert_trace cfg race l -> l = [].
Proof.
  unfold db_absent. intros Ha [H|(db & Hd & Ht & _)]; [exact H|].
  rewrite Hd in Ha. cbn in Ha. congruence.
Qed.

Lemma traces_db_absent : forall rs ls,
  db_absent cfg -> Forall2 (upsert_trace cfg) rs ls -> List.concat ls = [].
Proof.
  intros rs ls Ha H. induction H as [|r l rs ls Hr _ IH]; [reflexivity|].
  cbn [List.concat]. rewrite (upsert_trace_db_absent r l Ha Hr), IH. reflexivity.
Qed.

(** X15. main, result: the run never throws. It ends with exit status 1 exactly
    when the listing page cannot be fetched or the results cannot be
    written; otherwise it saves one record for every listed identifier whose
    detail page is fetched and has rows, in listing order. What the store
    answers, and whether it is configured at all, has no influence on the
    saved records. *)
Theorem main_outcome (e : env W) :
  fst (main transport fmt api cfg writeResults outPath inspect e)
  = Returned (run_result transport fmt writeResults).
Proof. destruct (main_parts _ upsert_trace_ex e) as (e' & ls & -> & _). reflexivity. Qed.

(** X16. main, requests: the store requests of a run are those of one upsert for
    each saved record, in the order of the records; a failed listing sends
    none. *)
Theorem main_requests (e : env W) :
  exists ls,
    calls (snd (main transport fmt api cfg writeResults outPath inspect e))
    = calls e ++ List.concat ls
    /\ Forall2 (upsert_trace cfg) (run_records transport fmt) ls
    /\ Forall (fun l => (List.length l <= 2)%nat) ls.
Proof.
  destruct (main_parts _ upsert_trace_ex e) as (e' & ls & -> & H1 & H2).
  exists ls. split; [exact H1|]. split; [exact H2|].
  clear H1. induction H2 as [|r l rs ls Hr _ IH]; constructor; auto.
  now apply (upsert_trace_length cfg r).
Qed.

(** X17. main without a collection identifier: the whole run sends no request to
    the store. *)
Theorem main_db_absent (e : env W) :
  db_absent cfg ->
  calls (snd (main transport fmt api cfg writeResults outPath inspect e))
  = calls e.
Proof.
  intros Ha. destruct (main_parts _ upsert_trace_ex e) as (e' & ls & -> & H1 & H2).
  cbn [snd]. rewrite H1, (traces_db_absent _ _ Ha H2). apply app_nil_r.
Qed.

(** X18. main with both variables set: every saved record is looked up in the
    store by its name, in the order of the records and whatever happened to
    the records before it, and at most one write follows each lookup. *)
Theorem main_queries_each_record (db token : jsstr) (e : env W) :
  configured cfg db token ->
  exists ls,
    calls (snd (main transport fmt api cfg writeResults outPath inspect e))
    = calls e ++ List.concat ls
    /\ Forall2 (fun race l =>
                  exists rest,
                    l = ReqQuery db token (race_name race) :: rest
                    /\ (List.length rest <= 1)%nat)
               (run_records transport fmt) ls.
Proof.
  intros Hc.
  destruct (main_parts
              (fun race l =>
                 exists rest,
                   l = ReqQuery db token (race_name race) :: rest
                   /\ (List.length rest <= 1)%nat)
              (fun race e0 =>
                 match upsert_query_first api cfg db token race e0 Hc with
                 | ex_intro _ rest (conj H1 H2) =>
                   ex_intro _ _ (conj H1 (ex_intro _ rest (conj eq_refl H2)))
                 end) e)
    as (e' & ls & -> & H1 & H2).
  exists ls. split; [exact H1 | exact H2].
Qed.

End PipelineFacts.

Lemma fetchListNos_spec_witness :
  (exists nos,
      fst (fetchListNos site [2026] (env0 (@nil page))) = Returned nos
      /\ NoDup nos /\ Forall is_no nos
      /\ (forall n, In n nos <-> listed_in site [2026] n))
  /\ exists r,
       fst (fetchListNos site_down [2026] (env0 (@nil page))) = Thrown r.
Proof.
  split.
  - apply (proj1 (proj2 (fetchListNos_spec site [2026] (env0 (@nil page))))).
    intros y [<-|[]]. exists page_listing. reflexivity.
  - apply (proj2 (proj2 (fetchListNos_spec site_down [2026]
                           (env0 (@nil page))))
             2026 (js "connect ECONNREFUSED")).
    + now left.
    + reflexivity.
Defined.

Lemma main_db_absent_witness :
  calls (snd (main site fmt_arg store_api cfg_none (fun _ => Ok tt)
                (js "output/roadrun.json") (fun r => r) (env0 [])))
  = [].
Proof.
  apply (main_db_absent site fmt_arg store_api cfg_none (fun _ => Ok tt)
           (js "output/roadrun.json") (fun r => r) (env0 [])).
  reflexivity.
Defined.

Lemma main_queries_each_record_witness :
  exists ls,
    calls (snd (main site fmt_arg store_api cfg_ok (fun _ => Ok tt)
                  (js "output/roadrun.json") (fun r => r) (env0 [])))
    = [] ++ List.concat ls
    /\ Forall2 (fun race l =>
                  exists rest,
                    l = ReqQuery (js "db1") (js "secret_token")
                                 (race_name race) :: rest
                    /\ (List.length rest <= 1)%nat)
               (run_records site fmt_arg) ls.
Proof.
  apply (main_queries_each_record site fmt_arg store_api cfg_ok
           (fun _ => Ok tt) (js "output/roadrun.json") (fun r => r)
           (js "db1") (js "secret_token") (env0 [])).
  repeat split.
Defined.

(** ** Normalizing tags again *)

Lemma normalize_segment_digits_k d :
  all is_digit d -> (1 <= List.length d)%nat ->
  normalize_segment (d ++ js "k") = d ++ js "k".
Proof.
  intros Hd Hl.
  assert (Hin : forall c, In c (d ++ js "k") -> is_digit c = true \/ c = 107).
  { intros c Hc. apply in_app_or in Hc. destruct Hc as [Hc | [Hc | []]].
    - left. unfold all in Hd. rewrite forallb_forall in Hd. now apply Hd.
    - right. now symmetry. }
  apply (normalize_segment_km (d ++ js "k") [] (d ++ js "k") d []).
  - intros (pre & suf & He).
    assert (Hc : In 0xD480 (d ++ js "k")).
    { rewrite He. apply in_or_app. right. now left. }
    apply Hin in Hc. destruct Hc as [Hc | Hc]; [vm_compute in Hc|]; discriminate.
  - intros (pre & suf & He).
    assert (Hc : In 0xD558 (d ++ js "k")).
    { rewrite He. apply in_or_app. right. now left. }
    apply Hin in Hc. destruct Hc as [Hc | Hc]; [vm_compute in Hc|]; discriminate.
  - reflexivity.
  - exists [], 107. repeat split; auto.
  - intros p1 p2 He Hne. symmetry in He. apply app_eq_nil in He.
    destruct He as [_ He]. contradiction.
Qed.

Lemma normalize_segment_cases s :
  normalize_segment s = js "full" \/ normalize_segment s = js "half"
  \/ (exists d, all is_digit d /\ (1 <= List.length d)%nat
                /\ normalize_segment s = d ++ js "k")
  \/ (normalize_segment s = s /\ includes s s_pul = false
      /\ includes s s_hapeu = false /\ rexec re_km s = None).
Proof.
  unfold normalize_segment.
  destruct (includes s s_pul) eqn:E1; [now left|].
  destruct (includes s s_hapeu) eqn:E2; [right; now left|].
  destruct (rexec re_km s) as [m|] eqn:E3.
  - pose proof E3 as E4. apply rexec_sound in E4. destruct E4 as (t0 & E4).
    apply km_here_sound in E4. destruct E4 as (d & HK & Hcap).
    unfold group. rewrite Hcap. cbn [cap Nat.eqb].
    destruct HK as (w & c & _ & Hd & Hld & _).
    right. right. left. exists d. auto.
  - right. right. right. auto.
Qed.

Lemma normalize_segment_idem s :
  normalize_segment (normalize_segment s) = normalize_segment s.
Proof.
  destruct (normalize_segment_cases s)
    as [H | [H | [(d & Hd & Hl & H) | (H & E1 & E2 & E3)]]]; rewrite H.
  - vm_compute. reflexivity.
  - vm_compute. reflexivity.
  - now apply normalize_segment_digits_k.
  - exact H.
Qed.

Lemma split_join_free sep : forall parts,
  parts <> [] -> Forall (fun p => ~ In sep p) parts ->
  split_on sep (join [sep] parts) = parts.
Proof.
  induction parts as [|p parts IH]; intros Hne Hf; [congruence|].
  inversion Hf as [|? ? Hp Hr]; subst.
  destruct parts as [|q parts].
  - cbn [join]. now apply split_on_free.
  - change (join [sep] (p :: q :: parts))
      with (p ++ sep :: join [sep] (q :: parts)).
    rewrite split_on_app by exact Hp. f_equal. apply IH; [discriminate | exact Hr].
Qed.

Lemma map_fixed {A} (f : A -> A) : forall l,
  Forall (fun x => f x = x) l -> map f l = l.
Proof.
  induction 1 as [|x l Hx _ IH]; [reflexivity|]. cbn [map]. now rewrite Hx, IH.
Qed.

Lemma filter_fixed {A} (p : A -> bool) : forall l,
  Forall (fun x => p x = true) l -> filter p l = l.
Proof.
  induction 1 as [|x l Hx _ IH]; [reflexivity|]. cbn [filter]. now rewrite Hx, IH.
Qed.

(** X19. The tags of [normalizeCourse], joined by commas, are normalized to
    themselves: normalizing a category list again changes nothing. *)
Theorem normalizeCourse_idempotent (text : jsstr) :
  normalizeCourse (join [ch_comma] (normalizeCourse text))
  = normalizeCourse text.
Proof.
  pose proof (normalizeCourse_tag_ok text) as Hok.
  assert (Hfix : Forall (fun t => normalize_segment t = t) (normalizeCourse text)).
  { unfold normalizeCourse. apply Forall_forall. intros t Ht.
    apply in_map_iff in Ht. destruct Ht as (seg & <- & _).
    apply normalize_segment_idem. }
  destruct (normalizeCourse text) as [|t tags] eqn:E; [reflexivity|].
  unfold normalizeCourse at 1.
  rewrite split_join_free.
  - rewrite (map_fixed trim), (filter_fixed truthy), (map_fixed normalize_segment);
      auto.
    + eapply Forall_impl; [|exact Hok]. intros a (Ha & _). now destruct a.
    + eapply Forall_impl; [|exact Hok]. intros a (_ & _ & H1 & H2).
      now apply trim_fixed.
  - discriminate.
  - eapply Forall_impl; [|exact Hok]. intros a (_ & Hc & _). exact Hc.
Qed.

(** ** White space and the time of day *)

(** X20. [parseTime] looks at the characters that are not white space only, so
    cleaning a text first does not change the time read from it. *)
Theorem parseTime_ignores_space (s1 s2 : jsstr) :
  (filter is_nonspace s1 = filter is_nonspace s2 ->
   parseTime s1 = parseTime s2)
  /\ parseTime (clean s1) = parseTime s1.
Proof.
  assert (H : forall a b, filter is_nonspace a = filter is_nonspace b ->
                          parseTime a = parseTime b).
  { intros a b Hab. unfold parseTime. now rewrite !strip_filter, Hab. }
  split; [apply H|]. apply H, clean_nonspace.
Qed.

Lemma parseTime_ignores_space_witness :
  parseTime (js " 오후  3시 30분") = parseTime (js "오후 3시30분 ").
Proof.
  apply (proj1 (parseTime_ignores_space (js " 오후  3시 30분")
                                        (js "오후 3시30분 "))).
  vm_compute. reflexivity.
Defined.

(** ** The saved records *)

Lemma extract_source (transport : jsstr -> result html) fmt no r :
  In r (extract transport fmt no) ->
  source r = js "roadrun" /\ source_id r = no /\ source_url r = detail_url no.
Proof.
  unfold extract. destruct (transport (detail_url no)) as [page|]; [|intros []].
  unfold fetchRaceDetail. destruct (html_rows page); [intros []|].
  intros [<- | []]. cbn [source source_id source_url]. unfold detail_url.
  split; [reflexivity|]. split; reflexivity.
Qed.

Lemma records_source (transport : jsstr -> result html) fmt : forall nos,
  NoDup nos ->
  NoDup (map source_id (flat_map (extract transport fmt) nos))
  /\ forall r, In r (flat_map (extract transport fmt) nos) ->
               In (source_id r) nos
               /\ source r = js "roadrun"
               /\ source_url r = detail_url (source_id r).
Proof.
  induction nos as [|no nos IH]; intros Hn.
  - split; [constructor | intros r []].
  - inversion Hn as [|? ? Hni Hn']; subst. destruct (IH Hn') as [IH1 IH2].
    cbn [flat_map]. split.
    + rewrite map_app.
      assert (Hx : forall r, In r (extract transport fmt no) -> source_id r = no)
        by (intros r Hr; apply (extract_source _ _ _ _ Hr)).
      unfold extract in *. destruct (transport (detail_url no)) as [page|];
        [|exact IH1].
      destruct (fetchRaceDetail fmt no (html_rows page)) as [race|]; [|exact IH1].
      cbn [map app]. constructor; [|exact IH1].
      rewrite (Hx race (or_introl eq_refl)). intros Hin.
      apply in_map_iff in Hin. destruct Hin as (r & Hr1 & Hr2).
      apply IH2 in Hr2. destruct Hr2 as [Hr2 _]. rewrite Hr1 in Hr2. contradiction.
    + intros r Hr. apply in_app_or in Hr. destruct Hr as [Hr | Hr].
      * destruct (extract_source _ _ _ _ Hr) as (H1 & H2 & H3).
        rewrite H2. repeat split; auto. now left.
      * destruct (IH2 r Hr) as (H1 & H2 & H3). repeat split; auto. now right.
Qed.

Lemma extract_again (transport : jsstr -> result html) fmt no r :
  In r (extract transport fmt no) ->
  extract transport fmt (source_id r) = [r].
Proof.
  intros Hr. destruct (extract_source _ _ _ _ Hr) as (_ & -> & _).
  revert Hr. unfold extract.
  destruct (transport (detail_url no)) as [page|]; [|intros []].
  destruct (fetchRaceDetail fmt no (html_rows page)); [|intros []].
  intros [<- | []]. reflexivity.
Qed.

(** X21. The records a completed run saves are taken from the listing: every
    [source_id] is a non-empty digit string linked from the listing page, no
    two records have the same one, each record is the one extracted from the
    detail page of its identifier, and [source] and [source_url] are the
    fixed tag and the address of that page. *)
Theorem main_saved_records {W} (transport : jsstr -> result html) fmt
        (api : StoreApi W) cfg writeResults outPath inspect (e : env W)
        (results : list EventRecord) :
  fst (main transport fmt api cfg writeResults outPath inspect e)
  = Returned (Completed results) ->
  exists page,
    transport (list_url 2026) = Ok page
    /\ NoDup (map source_id results)
    /\ Forall (fun r => listed (html_anchors page) (source_id r)
                        /\ In (source_id r) (collect_nos page [])
                        /\ is_no (source_id r)
                        /\ extract transport fmt (source_id r) = [r]
                        /\ source r = js "roadrun"
                        /\ source_url r = detail_url (source_id r)) results.
Proof.
  intros H.
  destruct (main_parts transport fmt api cfg writeResults outPath inspect
              _ (upsert_trace_ex api cfg) e) as (e' & ls & Heq & _).
  rewrite Heq in H. cbn [fst] in H. unfold run_result, run_records in H.
  destruct (transport (list_url 2026)) as [page|]; [|discriminate].
  exists page. split; [reflexivity|].
  destruct (writeResults (flat_map (extract transport fmt) (collect_nos page [])));
    [|discriminate].
  inversion H; subst results; clear H.
  destruct (collect_nos_parts page [] (NoDup_nil _)) as (l & He & Hn & Hf).
  pose proof (fun n => collect_nos_In page [] n (NoDup_nil _)) as Hin.
  cbn [app] in He. rewrite He in *.
  destruct (records_source transport fmt l Hn) as [H1 H2].
  split; [exact H1|]. apply Forall_forall. intros r Hr.
  destruct (H2 r Hr) as (Ha & Hb & Hc).
  rewrite Forall_forall in Hf.
  split.
  { apply Hin in Ha. destruct Ha as [[] | Ha]. exact Ha. }
  split; [exact Ha|]. split; [exact (Hf _ Ha)|].
  split; [|split; [exact Hb | exact Hc]].
  apply in_flat_map in Hr. destruct Hr as (no & _ & Hr).
  exact (extract_again _ _ _ _ Hr).
Qed.

Lemma main_saved_records_witness :
  exists results,
    fst (main site fmt_arg store_api cfg_ok (fun _ => Ok tt)
           (js "output/roadrun.json") (fun r => r) (env0 []))
    = Returned (Completed results)
    /\ map source_id results = [js "41"]
    /\ Forall (fun r => In (source_id r) (collect_nos page_listing [])) results.
Proof.
  eexists. split; [vm_compute; reflexivity|]. split; [reflexivity|].
  destruct (main_saved_records site fmt_arg store_api cfg_ok
              (fun _ => Ok tt) (js "output/roadrun.json") (fun r => r)
              (env0 []) _ eq_refl) as (page & Hp & _ & Hf).
  assert (Hpg : page = page_listing).
  { assert (Hs : site (list_url 2026) = Ok page_listing)
      by (vm_compute; reflexivity).
    rewrite Hs in Hp. now inversion Hp. }
  subst page. eapply Forall_impl; [|exact Hf]. intros r (_ & Hi & _). exact Hi.
Defined.
